(** * Pacman simulation core: a shallow embedding and its verified properties

    The development follows the TypeScript sources of the game: the level graph
    and the path search ([pathfinding/Node], [pathfinding/PathFinder]), the
    level loader ([game/Level/LevelLoader], [game/Level/Level]), the ghost
    behaviours and the pathfinding component, the wall collision resolution,
    the event mediator, the score system and the game state machine.

    Conventions.
    - A JavaScript object with identity (a [Node]) lives in a heap, a list of
      records; a reference is the index of the record.  Field updates
      ([n.prev = element]) are list updates of the heap.
    - A function that can throw returns an [Outcome]; a loop whose
      termination is not evident from its text is driven by a [fuel] argument
      and a separate theorem shows that enough fuel always yields a result.
    - [Math.random()] reads from a stream of draws that is passed along, and
      the browser's timeouts are a map of pending handles.
    - Pixel coordinates, sizes and the score are JavaScript numbers: the
      binary64 floats of the kernel ([PrimFloat]), with their rounding.  A
      theorem that needs sums without rounding says so: it is stated for
      numbers on a grid of multiples of a power of two.  The speed of the
      movement component and the tick counters, which the code only
      compares, negates and increments, are rationals. *)

From Stdlib Require Import ZArith QArith Qabs Qround Qminmax Lia Lqa List Ascii String.
From Stdlib Require Floats.Floats.
From stdpp Require Import gmap strings list pretty.

Set Warnings "-clear-no-such-hyp,-inexact-float".
Local Open Scope nat_scope.

(* ===================================================================== *)
(** * Outcomes of code that may throw or loop *)
(* ===================================================================== *)

(** [enum GameErrorType] *)
Inductive GameErrorType : Type :=
| LevelLoadError | AudioLoadError | ImageLoadError
| InvalidStateError | CollisionError | PathfindingError
| InitializationError | RenderError | NetworkError
| DataStorageError.

(** What a call can throw: a [GameError] of some type (its message is not
    modelled), or the runtime's [TypeError] for a property read on [null] or
    [undefined]. *)
Inductive Exception : Type :=
| GameError (t : GameErrorType)
| TypeError.

(** The result of running code: the value it returns, the exception it
    throws, or, for a loop driven by fuel, fuel exhausted. *)
Inductive Outcome (A : Type) : Type :=
| Done (a : A)
| Throw (e : Exception)
| OutOfFuel.
Arguments Done {A} a.
Arguments Throw {A} e.
Arguments OutOfFuel {A}.

Abbreviation Crash := (Throw TypeError).

Definition bind {A B} (m : Outcome A) (k : A -> Outcome B) : Outcome B :=
  match m with
  | Done a => k a
  | Throw e => Throw e
  | OutOfFuel => OutOfFuel
  end.

(* ===================================================================== *)
(** * JavaScript numbers *)
(* ===================================================================== *)

Module Float64.
Import SpecFloat PrimFloat FloatOps.
Local Open Scope Z_scope.

(** The value of a finite number in units of [2^-1074], the smallest
    positive double; [None] for the infinities and NaN. *)
Definition SFscaled (x : spec_float) : option Z :=
  match x with
  | S754_zero _ => Some 0
  | S754_finite s m e => Some (cond_Zopp s (Zpos m) * 2 ^ (e + 1074))
  | _ => None
  end.

Definition scaled (f : float) : option Z := SFscaled (Prim2SF f).

(** The value of a finite number in these units, and zero for the others. *)
Definition value (f : float) : Z := default 0 (scaled f).


(** The number nearest to an integer: the conversion of an integer to a
    JavaScript number. *)
Definition of_Z (z : Z) : float := SF2Prim (binary_normalize prec emax z 0 false).

Definition of_nat (n : nat) : float := of_Z (Z.of_nat n).

(** The integer part of a finite number, rounded down. *)
Definition floorZ (f : float) : option Z :=
  match Prim2SF f with
  | S754_zero _ => Some 0
  | S754_finite s m e => Some (Z.shiftl (cond_Zopp s (Zpos m)) e)
  | _ => None
  end.

(** [Math.floor]: a number without fraction bits, an infinity, NaN or a
    zero is returned as it is. *)
Definition floor (f : float) : float :=
  match Prim2SF f with
  | S754_finite s m e =>
      if 0 <=? e then f else of_Z (Z.shiftl (cond_Zopp s (Zpos m)) e)
  | _ => f
  end.

(** ** The text of a number in a template literal, for integers *)

(** The decimal digits [s] and the decimal exponent [n] of the shortest
    decimal [s * 10^(n - k)], [k] the number of digits of [s], that is read
    back as the number [m * 2^e], for [e > 0]: the decimals read back as
    this number are those between the midpoints to the neighbouring
    numbers, the midpoints included when [m] is even. *)
Definition digits10 (v : Z) : Z := Z.of_nat (String.length (pretty v)).

Definition candidate (m : positive) (e : Z) (k : Z) : option Z :=
  let v := Zpos m * 2 ^ e in
  let above := 2 * v + 2 ^ e in
  let below := 2 * v - (if Zpos m =? 2 ^ 52 then 2 ^ (e - 1) else 2 ^ e) in
  let reads c :=
    if Z.even (Zpos m) then (below <=? 2 * c) && (2 * c <=? above)
    else (below <? 2 * c) && (2 * c <? above) in
  let p := 10 ^ (digits10 v - k) in
  let q := v / p in
  match reads (q * p), reads ((q + 1) * p) with
  | true, true =>
      Some (if v - q * p <? (q + 1) * p - v then q
            else if (q + 1) * p - v <? v - q * p then q + 1
            else if Z.even q then q else q + 1)
  | true, false => Some q
  | false, true => Some (q + 1)
  | false, false => None
  end.

Fixpoint shortest (fuel : nat) (m : positive) (e : Z) (k : Z) : Z * Z :=
  match fuel with
  | O => (Zpos m * 2 ^ e, digits10 (Zpos m * 2 ^ e))
  | S fuel' =>
      match candidate m e k with
      | Some s =>
          (s, if s =? 10 ^ k then digits10 (Zpos m * 2 ^ e) + 1
              else digits10 (Zpos m * 2 ^ e))
      | None => shortest fuel' m e (k + 1)
      end
  end.

Fixpoint strip_zeros (fuel : nat) (s : Z) : Z :=
  match fuel with
  | O => s
  | S fuel' => if (0 <? s) && (s mod 10 =? 0) then strip_zeros fuel' (s / 10) else s
  end.

Fixpoint zeros (n : nat) : string :=
  match n with
  | O => ""
  | S n' => String "0" (zeros n')
  end.

(** [Number::toString] for a positive integer [m * 2^e] with [e > 0]:
    the digits and then zeros up to 21 digits, the exponent form from
    there on. *)
Definition largeText (m : positive) (e : Z) : string :=
  let (s, n) := shortest 17 m e 1 in
  let digits := pretty (strip_zeros 400 s) in
  let k := Z.of_nat (String.length digits) in
  if n <=? 21 then digits +:+ zeros (Z.to_nat (n - k))
  else
    match digits with
    | String d EmptyString => String d ("e+" +:+ pretty (n - 1))
    | String d rest => String d ("." +:+ rest +:+ "e+" +:+ pretty (n - 1))
    | EmptyString => ""
    end.

(** The text of [Math.floor(x)] in a template literal. *)
Definition integerText (f : float) : string :=
  match Prim2SF f with
  | S754_nan => "NaN"
  | S754_infinity false => "Infinity"
  | S754_infinity true => "-Infinity"
  | S754_zero _ => "0"
  | S754_finite s m e =>
      if 0 <? e then (if s then "-" else "") +:+ largeText m e
      else pretty (Z.shiftl (cond_Zopp s (Zpos m)) e)
  end.

End Float64.

(* ===================================================================== *)
(** * pathfinding/Node.ts and pathfinding/PathFinder.ts *)
(* ===================================================================== *)

Module Graph.

(** A reference to a [Node] object: its index in the heap. *)
Abbreviation NodeRef := nat.

(** [class Node]: the fields of the source, [neighbours] and [prev] holding
    references. *)
Record Node := mkNode {
  isPassable : bool;
  neighbours : list NodeRef;
  x : Z;
  y : Z;
  prev : option NodeRef
}.

Abbreviation Heap := (list Node).

(** [new Node(isPassable, x, y)]: no neighbours yet, [prev = null]. *)
Definition newNode (p : bool) (nx ny : Z) : Node :=
  mkNode p [] nx ny None.

(** [n.prev = element] *)
Definition set_prev (e : NodeRef) (nd : Node) : Node :=
  mkNode (isPassable nd) (neighbours nd) (x nd) (y nd) (Some e).

(** [node.neighbours.push(n)] *)
Definition push_neighbour (n : NodeRef) (nd : Node) : Node :=
  mkNode (isPassable nd) (neighbours nd ++ [n]) (x nd) (y nd) (prev nd).

(** [Node.reset()] *)
Definition reset (nd : Node) : Node :=
  mkNode (isPassable nd) (neighbours nd) (x nd) (y nd) None.

End Graph.

Module PathFinder.
Import Graph.

(** [queue.pop()]: removes and returns the last element of the array. *)
Fixpoint pop (q : list NodeRef) : option (NodeRef * list NodeRef) :=
  match q with
  | [] => None
  | [a] => Some (a, [])
  | a :: q' =>
      match pop q' with
      | Some (l, r) => Some (l, a :: r)
      | None => None
      end
  end.

(** The body of [element.neighbours.forEach(n => ...)]: a neighbour that is
    passable and not in [visited] gets [prev = element] and is put at the
    front of the queue ([unshift]).  [None] stands for a dangling reference,
    which the TypeScript types exclude. *)
Fixpoint expand (element : NodeRef) (visited : gset NodeRef)
    (ns : list NodeRef) (h : Heap) (queue : list NodeRef)
  : option (Heap * list NodeRef) :=
  match ns with
  | [] => Some (h, queue)
  | n :: ns' =>
      match h !! n with
      | None => None
      | Some nd =>
          if isPassable nd && bool_decide (n ∉ visited)
          then expand element visited ns' (<[n := set_prev element nd]> h) (n :: queue)
          else expand element visited ns' h queue
      end
  end.

(** The path reconstruction:
    [while (current !== from) { path.push(current); current = current.prev!; }
     path.push(from); path.reverse();] *)
Fixpoint walk (fuel : nat) (h : Heap) (from current : NodeRef)
    (path : list NodeRef) : Outcome (list NodeRef) :=
  match fuel with
  | O => OutOfFuel
  | S f =>
      if decide (current = from) then Done (reverse (path ++ [from]))
      else
        match h !! current with
        | None => Crash
        | Some nd =>
            match prev nd with
            | None => Crash
            | Some p => walk f h from p (path ++ [current])
            end
        end
  end.

(** The state of the [while (queue.length > 0)] loop: the heap (the [prev]
    fields are written during the search), the visited set and the queue. *)
Record BfsState := mkBfs {
  heap : Heap;
  visited : gset NodeRef;
  queue : list NodeRef
}.

(** The loop of [constructPathBFS], counting its iterations: the result is
    the outcome together with the number of loop bodies that were run. *)
Fixpoint bfs_loop (fuel : nat) (from to : NodeRef) (s : BfsState) (iters : nat)
  : Outcome (Heap * list NodeRef) * nat :=
  match fuel with
  | O => (OutOfFuel, iters)
  | S f =>
      match pop (queue s) with
      | None => (Done (heap s, []), iters)
      | Some (element, queue') =>
          let visited' := {[element]} ∪ visited s in
          if decide (element = to) then
            (match walk f (heap s) from element [] with
             | Done p => Done (heap s, p)
             | Throw e => Throw e
             | OutOfFuel => OutOfFuel
             end, S iters)
          else
            match heap s !! element with
            | None => (Crash, S iters)
            | Some nd =>
                match expand element visited' (neighbours nd) (heap s) queue' with
                | None => (Crash, S iters)
                | Some (h', q') => bfs_loop f from to (mkBfs h' visited' q') (S iters)
                end
            end
      end
  end.

(** [PathFinder.constructPathBFS(from, to)] run on heap [h]: the heap after
    the search and the returned path. *)
Definition constructPathBFS (fuel : nat) (from to : NodeRef) (h : Heap)
  : Outcome (Heap * list NodeRef) :=
  fst (bfs_loop fuel from to (mkBfs h ∅ [from]) 0).

(** The number of iterations of the [while] loop in that run. *)
Definition loop_iterations (fuel : nat) (from to : NodeRef) (h : Heap) : nat :=
  snd (bfs_loop fuel from to (mkBfs h ∅ [from]) 0).

(** ** Graph-level notions used by the specifications *)

(** Every reference stored in a [neighbours] array points into the heap. *)
Definition well_formed (h : Heap) : Prop :=
  Forall (fun nd => Forall (fun n => n < length h) (neighbours nd)) h.

(** The part of a node that the search never writes. *)
Definition shape (nd : Node) : bool * list NodeRef :=
  (isPassable nd, neighbours nd).

Definition same_graph (h h' : Heap) : Prop := shape <$> h = shape <$> h'.

(** [v] is a passable neighbour of [u]: the edges the search follows. *)
Definition edge (h : Heap) (u v : NodeRef) : Prop :=
  exists nu nv, h !! u = Some nu /\ v ∈ neighbours nu /\
                h !! v = Some nv /\ isPassable nv = true.

(** [to] is reachable from [from] through passable nodes: [from] itself, or a
    passable neighbour of a reachable node. *)
Inductive reach (h : Heap) (from : NodeRef) : NodeRef -> Prop :=
| reach_refl : reach h from from
| reach_step u v : reach h from u -> edge h u v -> reach h from v.

(** The largest length of a [neighbours] array. *)
Definition max_degree (h : Heap) : nat :=
  foldr (fun nd m => Nat.max (length (neighbours nd)) m) 0 h.

(** The [prev] links lead from [v] to [from] in [k] steps through nodes of [V]. *)
Inductive chain (h : Heap) (V : gset NodeRef) (from : NodeRef)
  : NodeRef -> nat -> Prop :=
| chain_base : chain h V from from 0
| chain_step v nd p k :
    v <> from -> v ∈ V -> h !! v = Some nd -> prev nd = Some p ->
    chain h V from p k -> chain h V from v (S k).

(** Number of heap cells that are not in [V]. *)
Definition unvisited (N : nat) (V : gset NodeRef) : nat :=
  size ((set_seq 0 N : gset nat) ∖ V).

Definition weight (B : nat) (ls : list nat) : nat :=
  sum_list_with (fun u => B ^ u) ls.

(** The fields of a node the search never writes: all but [prev]. *)
Definition frame (nd : Node) : bool * list NodeRef * Z * Z :=
  (isPassable nd, neighbours nd, x nd, y nd).

(** Every step of [p] goes from a node to one of its passable neighbours. *)
Fixpoint is_path (h : Heap) (p : list NodeRef) : Prop :=
  match p with
  | a :: (b :: _) as p' => edge h a b /\ is_path h p'
  | _ => True
  end.

(** The [prev] fields of [v] in two heaps agree. *)
Definition same_prev (h1 h2 : Heap) (v : NodeRef) : Prop :=
  prev <$> h1 !! v = prev <$> h2 !! v.

(** The path and the iteration count of a run of the loop, the heap left
    out. *)
Definition result_path (r : Outcome (Heap * list NodeRef) * nat)
  : Outcome (list NodeRef) * nat :=
  (bind r.1 (fun hp => Done hp.2), r.2).

End PathFinder.

(* ===================================================================== *)
(** * game/Collisions/CollisionDetector.ts and entities/Wall.ts *)
(* ===================================================================== *)

Module CollisionDetector.
Import PrimFloat.
Local Open Scope float_scope.

(** [interface Rectangle] *)
Record Rectangle := mkRect { x : float; y : float; width : float; height : float }.

(** [interface CollisionInfo] *)
Record CollisionInfo := mkInfo {
  collided : bool; dx : float; dy : float; crossWidth : float; crossHeight : float
}.

(** The object returned by [getResolutionVector]. *)
Record Resolution := mkResolution { penetration : float; normalX : float; normalY : float }.


(** [CollisionDetector.getCollisionInfo] *)
Definition getCollisionInfo (rect1 rect2 : Rectangle) : CollisionInfo :=
  let dx := (x rect1 + width rect1 / 2) - (x rect2 + width rect2 / 2) in
  let dy := (y rect1 + height rect1 / 2) - (y rect2 + height rect2 / 2) in
  let width := (width rect1 + width rect2) / 2 in
  let height := (height rect1 + height rect2) / 2 in
  let crossWidth := width * dy in
  let crossHeight := height * dx in
  let collided := (abs dx <=? width) && (abs dy <=? height) in
  mkInfo collided dx dy crossWidth crossHeight.

(** [CollisionDetector.getResolutionVector] *)
Definition getResolutionVector (info : CollisionInfo) : Resolution :=
  if abs (crossWidth info) <=? abs (crossHeight info) then
    mkResolution (abs (crossWidth info)) (if dx info <? 0 then -1 else 1) 0
  else
    mkResolution (abs (crossHeight info)) 0 (if dy info <? 0 then -1 else 1).

End CollisionDetector.

Module Wall.
Import PrimFloat CollisionDetector.
Local Open Scope float_scope.

(** [interface CircularEntity]: the position and [getRadius()] of the entity
    a wall pushes away; [reposition] rewrites the position. *)
Record CircularEntity := mkCircle { cx : float; cy : float; radius : float }.

Definition reposition (nx ny : float) (e : CircularEntity) : CircularEntity :=
  mkCircle nx ny (radius e).

(** [class Wall]: position of the top-left corner and size. *)
Record Wall := mkWall { x : float; y : float; width : float; height : float }.

(** The two rectangles [handleCollision] builds. *)
Definition wallRect (w : Wall) : Rectangle :=
  mkRect (x w) (y w) (width w) (height w).

Definition entityRect (e : CircularEntity) : Rectangle :=
  mkRect (cx e - radius e) (cy e - radius e) (radius e * 2) (radius e * 2).

(** [Wall.resolveCollision]; [a !== 0] is the negation of [a == 0] on
    numbers, and [a > 0] is [0 < a]. *)
Definition resolveCollision (w : Wall) (e : CircularEntity) (r : Resolution)
  : CircularEntity :=
  if negb (normalX r =? 0) then
    reposition
      (if 0 <? normalX r then x w + width w + radius e + 1
       else x w - radius e - 1)
      (cy e) e
  else
    reposition
      (cx e)
      (if 0 <? normalY r then y w + height w + radius e + 1
       else y w - radius e - 1)
      e.

(** [Wall.handleCollision] *)
Definition handleCollision (w : Wall) (e : CircularEntity) : CircularEntity :=
  let collisionInfo := getCollisionInfo (entityRect e) (wallRect w) in
  if collided collisionInfo then
    resolveCollision w e (getResolutionVector collisionInfo)
  else e.

(** ** Notions used by the specification *)

(** Whether the wall and the entity's bounding box collide. *)
Definition collides (w : Wall) (e : CircularEntity) : bool :=
  collided (getCollisionInfo (entityRect e) (wallRect w)).

(** The axis [getResolutionVector] chooses: [true] for the horizontal one. *)
Definition horizontal (w : Wall) (e : CircularEntity) : bool :=
  negb (normalX (getResolutionVector (getCollisionInfo (entityRect e) (wallRect w))) =? 0).

(** Length of the intersection of the intervals [[a, a + la]] and
    [[b, b + lb]]. *)
Definition overlap (a la b lb : Z) : Z :=
  Z.max 0 (Z.min (a + la) (b + lb) - Z.max a b)%Z.

(** The overlap of the wall and of the square around the entity on each
    axis, computed on the values of the numbers, without rounding, in units
    of [2^-1074]. *)
Definition overlap_x (w : Wall) (e : CircularEntity) : Z :=
  overlap (Float64.value (cx e) - Float64.value (radius e)) (2 * Float64.value (radius e))
          (Float64.value (x w)) (Float64.value (width w)).





End Wall.

Module CollisionSystem.
Import Wall.


End CollisionSystem.

(* ===================================================================== *)
(** * enums: event types and game status *)
(* ===================================================================== *)

(** [enum GameEventType], in the order of the source. *)
Inductive GameEventType : Type :=
| ScoreChanged | GhostEaten | FruitCollected | HighScoreAdded
| GameStarted | GamePaused | GameResumed
| GameOverEvent (* [GameEventType.GameOver]; [GameOver] is the status *)
| LevelCompleted
| PacmanMoved | PacmanDied | GhostScared | GhostRecovered | DotCollected
| PelletCollected | GhostCollided | PowerModeEnded
| ShowPath | HidePath | ShowNameInput | ShowHighScores
| LevelLoaded.

(** The numeric value of an enum member, which is the key of the [Map]. *)
Definition eventTypeValue (t : GameEventType) : nat :=
  match t with
  | ScoreChanged => 0 | GhostEaten => 1 | FruitCollected => 2
  | HighScoreAdded => 3 | GameStarted => 4 | GamePaused => 5
  | GameResumed => 6 | GameOverEvent => 7 | LevelCompleted => 8
  | PacmanMoved => 9 | PacmanDied => 10 | GhostScared => 11
  | GhostRecovered => 12 | DotCollected => 13 | PelletCollected => 14
  | GhostCollided => 15 | PowerModeEnded => 16 | ShowPath => 17
  | HidePath => 18 | ShowNameInput => 19 | ShowHighScores => 20
  | LevelLoaded => 21
  end.

Definition eventTypeOfValue (n : nat) : option GameEventType :=
  match n with
  | 0 => Some ScoreChanged | 1 => Some GhostEaten | 2 => Some FruitCollected
  | 3 => Some HighScoreAdded | 4 => Some GameStarted | 5 => Some GamePaused
  | 6 => Some GameResumed | 7 => Some GameOverEvent | 8 => Some LevelCompleted
  | 9 => Some PacmanMoved | 10 => Some PacmanDied | 11 => Some GhostScared
  | 12 => Some GhostRecovered | 13 => Some DotCollected
  | 14 => Some PelletCollected | 15 => Some GhostCollided
  | 16 => Some PowerModeEnded | 17 => Some ShowPath | 18 => Some HidePath
  | 19 => Some ShowNameInput | 20 => Some ShowHighScores
  | 21 => Some LevelLoaded
  | _ => None
  end.

#[global] Instance GameEventType_eq_dec : EqDecision GameEventType.
Proof. solve_decision. Defined.

#[global] Instance GameEventType_countable : Countable GameEventType.
Proof.
  apply (inj_countable eventTypeValue eventTypeOfValue).
  by intros [].
Defined.

(** [enum GameStatus] *)
Inductive GameStatus : Type :=
| Loading | Playing | Paused | GameOver | Victory | NameInput | HighScores.

#[global] Instance GameStatus_eq_dec : EqDecision GameStatus.
Proof. solve_decision. Defined.

(* ===================================================================== *)
(** * game/EventMediator.ts *)
(* ===================================================================== *)

Module EventMediator.

Section Mediator.
(** [L]: the listeners, function objects compared by identity; [D]: the
    payload of an event; [W]: the state the listeners act on. *)
Context {L D W : Type} `{EqDecision L}.

(** [interface GameEvent] *)
Record GameEvent := mkEvent { type : GameEventType; data : D }.

(** The mediator's [listeners] map besides the rest of the program state: a
    listener is called with both in reach, since it may call [register],
    [unregister] or [notify] itself. *)
Record World := mkWorld {
  listeners : gmap GameEventType (list L);
  state : W
}.

(** [EventMediator.register] *)
Definition register (eventType : GameEventType) (listener : L) (w : World) : World :=
  let m :=
    match listeners w !! eventType with
    | Some _ => listeners w
    | None => <[eventType := []]> (listeners w)
    end in
  mkWorld (alter (fun eventListeners => eventListeners ++ [listener]) eventType m)
          (state w).

(** [eventListeners.indexOf(listener)] followed by [splice(index, 1)]: the
    first occurrence is removed. *)
Fixpoint remove_first (listener : L) (ls : list L) : list L :=
  match ls with
  | [] => []
  | l :: ls' => if decide (l = listener) then ls' else l :: remove_first listener ls'
  end.

(** [EventMediator.unregister] *)
Definition unregister (eventType : GameEventType) (listener : L) (w : World) : World :=
  match listeners w !! eventType with
  | None => w
  | Some _ => mkWorld (alter (remove_first listener) eventType (listeners w)) (state w)
  end.

(** What calling a listener does: it gets [notify] of the mediator, the event
    and the world. *)
Variable call : L -> (GameEvent -> World -> Outcome World) -> GameEvent -> World -> Outcome World.

(** [for (const listener of eventListeners) listener(event)]: the array
    iterator reads the length and the element at its index from the array as
    it is at each step. *)
Fixpoint dispatch (fuel : nat) (notify : GameEvent -> World -> Outcome World)
    (event : GameEvent) (i : nat) (w : World) : Outcome World :=
  match fuel with
  | O => OutOfFuel
  | S f =>
      match listeners w !! type event ≫= (fun eventListeners => eventListeners !! i) with
      | None => Done w
      | Some listener =>
          bind (call listener notify event w) (dispatch f notify event (S i))
      end
  end.

(** [EventMediator.notify] *)
Fixpoint notify (fuel : nat) (event : GameEvent) (w : World) : Outcome World :=
  match fuel with
  | O => OutOfFuel
  | S f =>
      match listeners w !! type event with
      | None => Done w
      | Some _ => dispatch f (notify f) event 0 w
      end
  end.

(** ** Notions used by the specification *)

(** Calling the listeners of a list one after the other. *)
Fixpoint call_all (notify : GameEvent -> World -> Outcome World)
    (ls : list L) (event : GameEvent) (w : World) : Outcome World :=
  match ls with
  | [] => Done w
  | l :: ls' => bind (call l notify event w) (call_all notify ls' event)
  end.

(** The listeners registered for a kind. *)
Definition registered (k : GameEventType) (w : World) : list L :=
  default [] (listeners w !! k).

(** No listener invoked in the run of [call_all] over [ls] from [w] changes
    the list of the event's kind: each call that returns leaves the list as
    it found it. *)
Fixpoint undisturbed (notify : GameEvent -> World -> Outcome World)
    (ls : list L) (event : GameEvent) (w : World) : Prop :=
  match ls with
  | [] => True
  | l :: ls' =>
      match call l notify event w with
      | Done w' =>
          listeners w' !! type event = listeners w !! type event /\
          undisturbed notify ls' event w'
      | _ => True
      end
  end.

(** A call to [register] or [unregister]. *)
Inductive Op : Type :=
| Register (k : GameEventType) (l : L)
| Unregister (k : GameEventType) (l : L).

Definition apply_op (w : World) (o : Op) : World :=
  match o with
  | Register k l => register k l w
  | Unregister k l => unregister k l w
  end.

(** The listeners of kind [k] after a sequence of calls, computed on a plain
    list: a registration appends, a removal deletes the first occurrence. *)
Fixpoint registration_order (k : GameEventType) (ops : list Op) (acc : list L) : list L :=
  match ops with
  | [] => acc
  | Register k' l :: ops' =>
      registration_order k ops' (if decide (k' = k) then acc ++ [l] else acc)
  | Unregister k' l :: ops' =>
      registration_order k ops' (if decide (k' = k) then remove_first l acc else acc)
  end.

End Mediator.

Arguments GameEvent D : clear implicits.
Arguments World L W : clear implicits.
Arguments Op L : clear implicits.

End EventMediator.

(* ===================================================================== *)
(** * game/Systems/ScoreSystem.ts *)
(* ===================================================================== *)

Module ScoreSystem.
Import EventMediator.
Import PrimFloat.

(** The payload of an event: the optional fields the listeners of the score
    system and the publishers of the events read or write. *)
Record EventData := mkData {
  isPowerPellet : option bool;
  isPathPellet : option bool;
  duration : option Z;
  dataScore : option float;
  pointsAdded : option float;
  powerModeEnded : option bool
}.

Definition emptyData : EventData := mkData None None None None None None.

(** [event.data?.field] used as a condition: [undefined] is falsy. *)
Definition truthy (b : option bool) : bool := default false b.

(** [scoreValues] *)
Record ScoreValues := mkValues {
  dot : float;
  powerPellet : float;
  pathPellet : float;
  ghost : list float;
  fruit : float;
  levelCompletion : float
}.

(** The fields of [ScoreSystem]; [eventMediator] is the world's mediator. *)
Record State := mkState {
  score : float;
  consecutiveGhosts : nat;
  scoreValues : ScoreValues
}.

(** The six arrow functions registered by [setupEventListeners]. *)
Inductive Listener : Type :=
| OnDotCollected | OnPelletCollected | OnGhostEaten
| OnFruitCollected | OnLevelCompleted | OnPowerModeEnded.

#[global] Instance Listener_eq_dec : EqDecision Listener.
Proof. solve_decision. Defined.

Abbreviation Event := (GameEvent (option EventData)).
Abbreviation SWorld := (World Listener State).
Abbreviation Notify := (Event -> SWorld -> Outcome SWorld).

Definition set_state (s : State) (w : SWorld) : SWorld :=
  mkWorld (listeners w) s.

(** Default score values of the constructor. *)
Definition defaultScoreValues : ScoreValues :=
  mkValues 0.5 1 1 [1; 2; 4; 8]%float 5 1.

(** [ScoreSystem.addScore] *)
Definition addScore (points : float) (notify : Notify) (w : SWorld) : Outcome SWorld :=
  let s := state w in
  let s' := mkState (score s + points) (consecutiveGhosts s) (scoreValues s) in
  notify (mkEvent ScoreChanged
            (Some (mkData None None None (Some (score s')) (Some points) None)))
         (set_state s' w).

(** [ScoreSystem.resetConsecutiveGhosts] *)
Definition resetConsecutiveGhosts (w : SWorld) : SWorld :=
  set_state (mkState (score (state w)) 0 (scoreValues (state w))) w.

(** [ScoreSystem.addGhostScore]; reading the array outside its bounds gives
    [undefined], and adding [undefined] gives [NaN]. *)
Definition addGhostScore (notify : Notify) (w : SWorld) : Outcome SWorld :=
  let s := state w in
  let index := Z.min (Z.of_nat (consecutiveGhosts s))
                     (Z.of_nat (length (ghost (scoreValues s))) - 1) in
  let points :=
    if (index <? 0)%Z then nan
    else default nan (ghost (scoreValues s) !! Z.to_nat index) in
  addScore points notify
    (set_state (mkState (score s) (S (consecutiveGhosts s)) (scoreValues s)) w).

(** The bodies of the listeners. *)
Definition call (l : Listener) (notify : Notify) (event : Event) (w : SWorld)
  : Outcome SWorld :=
  match l with
  | OnDotCollected => addScore (dot (scoreValues (state w))) notify w
  | OnPelletCollected =>
      if truthy (data event ≫= isPowerPellet) then
        bind (addScore (powerPellet (scoreValues (state w))) notify w)
             (fun w' => Done (resetConsecutiveGhosts w'))
      else if truthy (data event ≫= isPathPellet) then
        addScore (pathPellet (scoreValues (state w))) notify w
      else Done w
  | OnGhostEaten => addGhostScore notify w
  | OnFruitCollected => addScore (fruit (scoreValues (state w))) notify w
  | OnLevelCompleted => addScore (levelCompletion (scoreValues (state w))) notify w
  | OnPowerModeEnded => Done (resetConsecutiveGhosts w)
  end.

(** [ScoreSystem.setupEventListeners] *)
Definition setupEventListeners (w : SWorld) : SWorld :=
  register PowerModeEnded OnPowerModeEnded
    (register LevelCompleted OnLevelCompleted
      (register FruitCollected OnFruitCollected
        (register GhostEaten OnGhostEaten
          (register PelletCollected OnPelletCollected
            (register DotCollected OnDotCollected w))))).

(** [new ScoreSystem(eventMediator)], the mediator holding [m]. *)
Definition newScoreSystem (m : gmap GameEventType (list Listener)) : SWorld :=
  setupEventListeners (mkWorld m (mkState 0 0 defaultScoreValues)).

(** [ScoreSystem.getScore] *)
Definition getScore (w : SWorld) : float := score (state w).

(** [ScoreSystem.reset] *)
Definition reset (w : SWorld) : SWorld :=
  set_state (mkState 0 0 (scoreValues (state w))) w.

(** Publishing a sequence of events on the mediator, one after the other. *)
Fixpoint notify_all (fuel : nat) (events : list Event) (w : SWorld) : Outcome SWorld :=
  match events with
  | [] => Done w
  | e :: events' => bind (notify call fuel e w) (notify_all fuel events')
  end.

(** The events of the scenario. *)
Definition dotCollectedEvent : Event := mkEvent DotCollected (Some emptyData).
Definition powerPelletEvent : Event :=
  mkEvent PelletCollected
    (Some (mkData (Some true) None (Some 10000%Z) None None None)).
Definition ghostEatenEvent : Event := mkEvent GhostEaten (Some emptyData).
Definition powerModeEndedEvent : Event :=
  mkEvent PowerModeEnded (Some (mkData None None None None None (Some true))).

End ScoreSystem.

(* ===================================================================== *)
(** * utils/Managers/TimerManager.ts and game/GameState.ts *)
(* ===================================================================== *)

Module GameState.
Import EventMediator.

(** The two callbacks [GameState] hands to the timer manager. *)
Inductive TimerCallback : Type :=
| ScaredExpired   (* [ghostsScared = false], then PowerModeEnded is published *)
| PathExpired.    (* [showPath = false] *)

(** A timeout of the browser that is still to fire: the closure built by
    [TimerManager.setTimer], which knows the timer's identifier and the
    callback, and the delay it was set with. *)
Record Timeout := mkTimeout {
  timerKey : string;
  callback : TimerCallback;
  delay : Q
}.

(** The fields of [GameState], the [timers] map of its [TimerManager], the
    score system with the mediator it listens on, and the part of the
    browser the timer manager uses: the pending timeouts by handle and the
    next handle [setTimeout] returns.  Of [statusChangeCallback] the state
    records whether it is set; what the installed closure does is a
    parameter of [setStatus]. *)
Record State := mkGameState {
  status : GameStatus;
  level : nat;
  ghostsScared : bool;
  showPath : bool;
  timers : gmap string nat;
  scoreSystem : ScoreSystem.SWorld;
  hasStatusChangeCallback : bool;
  nextHandle : nat;
  pending : gmap nat Timeout
}.

Definition SCARED_TIMER : string := "ghostsScared".
Definition PATH_TIMER : string := "showPath".

(** [new GameState(scoreSystem, statusChangeCallback)] in a browser with no
    timeout of this manager pending. *)
Definition newGameState (scoreSystem : ScoreSystem.SWorld) (hasCallback : bool)
    (handle : nat) : State :=
  mkGameState Loading 1 false false ∅ scoreSystem hasCallback handle ∅.

(** ** TimerManager *)

(** [TimerManager.clearTimer] *)
Definition clearTimer (id : string) (s : State) : State :=
  match timers s !! id with
  | Some timerId =>
      mkGameState (status s) (level s) (ghostsScared s) (showPath s)
        (delete id (timers s)) (scoreSystem s) (hasStatusChangeCallback s) (nextHandle s) (delete timerId (pending s))
  | None => s
  end.

(** [TimerManager.setTimer] *)
Definition setTimer (id : string) (cb : TimerCallback) (duration : Q) (s : State)
  : State :=
  let s1 := clearTimer id s in
  let timerId := nextHandle s1 in
  mkGameState (status s1) (level s1) (ghostsScared s1) (showPath s1)
    (<[id := timerId]> (timers s1)) (scoreSystem s1) (hasStatusChangeCallback s1) (S timerId)
    (<[timerId := mkTimeout id cb duration]> (pending s1)).

(** [TimerManager.clearAllTimers]: [clearTimeout] for every handle of the
    map, then [timers.clear()]. *)
Definition clearAllTimers (s : State) : State :=
  mkGameState (status s) (level s) (ghostsScared s) (showPath s)
    ∅ (scoreSystem s) (hasStatusChangeCallback s)
    (nextHandle s)
    (foldr (fun kv p => delete kv.2 p) (pending s) (map_to_list (timers s))).

(** [TimerManager.isTimerActive] *)
Definition isTimerActive (id : string) (s : State) : bool :=
  bool_decide (is_Some (timers s !! id)).

(** ** GameState *)

(** [this.status = status] *)
Definition set_status (st : GameStatus) (s : State) : State :=
  mkGameState st (level s) (ghostsScared s) (showPath s) (timers s)
    (scoreSystem s) (hasStatusChangeCallback s)
    (nextHandle s) (pending s).

Section StatusChange.
(** What the closure held in [statusChangeCallback] does when it is called
    with the new status: it runs with the game state in reach, where the new
    status is already stored, it may call the methods of [GameState] again,
    and it may throw. *)
Variable statusChangeCallback : GameStatus -> State -> Outcome State.

(** [GameState.setStatus] *)
Definition setStatus (st : GameStatus) (s : State) : Outcome State :=
  let oldStatus := status s in
  let s1 := set_status st s in
  if bool_decide (oldStatus <> st) && hasStatusChangeCallback s1
  then statusChangeCallback st s1
  else Done s1.

Definition startGame (s : State) : Outcome State := setStatus Playing s.




Definition endGame (s : State) : Outcome State :=
  bind (setStatus GameOver s) (fun s' => Done (clearAllTimers s')).


Definition showNameInput (s : State) : Outcome State := setStatus NameInput s.

Definition showHighScores (s : State) : Outcome State := setStatus HighScores s.

End StatusChange.



Definition set_flags (scared path : bool) (sys : ScoreSystem.SWorld) (s : State) : State :=
  mkGameState (status s) (level s) scared path (timers s)
    sys (hasStatusChangeCallback s)
    (nextHandle s) (pending s).

(** [GameState.setGhostsScared] *)
Definition setGhostsScared (duration : Q) (s : State) : State :=
  setTimer SCARED_TIMER ScaredExpired duration
    (set_flags true (showPath s) (ScoreSystem.resetConsecutiveGhosts (scoreSystem s)) s).

(** [GameState.setShowPath] *)
Definition setShowPath (duration : Q) (s : State) : State :=
  setTimer PATH_TIMER PathExpired duration
    (set_flags (ghostsScared s) true (scoreSystem s) s).

(** [GameState.reset] *)
Definition reset (s : State) : State :=
  let s1 := mkGameState Loading 1 false false (timers s) (scoreSystem s)
              (hasStatusChangeCallback s)
              (nextHandle s) (pending s) in
  let s2 := clearAllTimers s1 in
  set_flags (ghostsScared s2) (showPath s2) (ScoreSystem.reset (scoreSystem s2)) s2.


(** Running a callback of [GameState]. *)
Definition run_callback (fuel : nat) (cb : TimerCallback) (s : State) : Outcome State :=
  match cb with
  | ScaredExpired =>
      let s1 := set_flags false (showPath s) (scoreSystem s) s in
      bind (notify ScoreSystem.call fuel ScoreSystem.powerModeEndedEvent (scoreSystem s1))
           (fun sys => Done (set_flags (ghostsScared s1) (showPath s1) sys s1))
  | PathExpired => Done (set_flags (ghostsScared s) false (scoreSystem s) s)
  end.

(** The browser fires the timeout with handle [timerId], if it is pending:
    the closure of [setTimer] calls the callback and deletes the timer's
    identifier from the map. *)
Definition fire (fuel : nat) (timerId : nat) (s : State) : Outcome State :=
  match pending s !! timerId with
  | None => Done s
  | Some t =>
      let s1 := mkGameState (status s) (level s) (ghostsScared s) (showPath s)
                  (timers s) (scoreSystem s) (hasStatusChangeCallback s) (nextHandle s) (delete timerId (pending s)) in
      bind (run_callback fuel (callback t) s1)
           (fun s2 => Done
              (mkGameState (status s2) (level s2) (ghostsScared s2) (showPath s2)
                 (delete (timerKey t) (timers s2)) (scoreSystem s2)
                 (hasStatusChangeCallback s2)
                 (nextHandle s2) (pending s2)))
  end.

(** ** The status-change callbacks of the game *)


(** [Game.handlePotentialHighScore] as far as it reaches the game state:
    [isHighScore] is the answer of [uiManager.isHighScore()]; the screens
    that [uiManager] shows and their deferred callbacks are outside the
    model.  [Game.showHighScoresAndRestart] begins with
    [gameState.showHighScores()]. *)
Definition handlePotentialHighScore
    (statusChangeCallback : GameStatus -> State -> Outcome State)
    (isHighScore : bool) (s : State) : Outcome State :=
  if isHighScore then showNameInput statusChangeCallback s
  else showHighScores statusChangeCallback s.

Definition levelCompletedEvent (s : State) : ScoreSystem.Event :=
  mkEvent LevelCompleted
    (Some (ScoreSystem.mkData None None None (Some (ScoreSystem.getScore (scoreSystem s)))
             None None)).

(** [EventSystem.handleGameStatusChange], the callback that the constructor
    of [EventSystem] installs with [setStatusChangeCallback] in place of
    [Game]'s, together with the listeners that the game registers for the
    events it publishes.  GamePaused and GameResumed have no listener.  The
    GameOver event has the listener of [Game.setupHighScoreEvents], which
    calls [handlePotentialHighScore] since the event carries the score (and
    an empty listener of the page).  LevelCompleted has the listener of the
    score system and then that of [Game.setupHighScoreEvents].
    ShowNameInput and ShowHighScores have the listeners of [EventSystem],
    which call [showNameInput()] and [showHighScores()].  The calls come
    back to [setStatus], hence to this callback: [fuel] bounds the depth. *)
Fixpoint handleGameStatusChange (fuel : nat) (isHighScore : bool)
    (st : GameStatus) (s : State) : Outcome State :=
  match fuel with
  | O => OutOfFuel
  | S f =>
      let callback := handleGameStatusChange f isHighScore in
      match st with
      | GameOver => handlePotentialHighScore callback isHighScore s
      | Victory =>
          bind (notify ScoreSystem.call f (levelCompletedEvent s) (scoreSystem s))
               (fun sys =>
                  handlePotentialHighScore callback isHighScore
                    (set_flags (ghostsScared s) (showPath s) sys s))
      | NameInput => showNameInput callback s
      | HighScores => showHighScores callback s
      | Playing | Paused | Loading => Done s
      end
  end.

(** ** Notions used by the specification *)

(** Every pending timeout of the manager is recorded in its map, under the
    identifier its closure holds. *)
Definition managed (s : State) : Prop :=
  forall timerId t, pending s !! timerId = Some t ->
    timers s !! timerKey t = Some timerId.



End GameState.

(* ===================================================================== *)
(** * utils/Utils.ts (distanceBetween) and entities/Ghost/GhostBehavior.ts *)
(* ===================================================================== *)

Module GhostBehavior.
Import Graph.

(** [distanceBetween]: the Manhattan distance of two points. *)
Definition distanceBetween (point1 point2 : Node) : Z :=
  (Z.abs (x point1 - x point2) + Z.abs (y point1 - y point2))%Z.

(** Reading the fields of the node a reference points to. *)
Definition deref (h : list Node) (r : nat) : Outcome Node :=
  match h !! r with
  | Some nd => Done nd
  | None => Crash
  end.

(** [nodes.filter(n => n.isPassable)] *)
Fixpoint filterPassable (h : list Node) (ns : list nat) : Outcome (list nat) :=
  match ns with
  | [] => Done []
  | n :: ns' =>
      bind (deref h n) (fun nd =>
      bind (filterPassable h ns') (fun rest =>
      Done (if isPassable nd then n :: rest else rest)))
  end.

(** The behaviours with their fields; [PatrolBehavior] is the only one with
    a field that changes, [currentPatrolIndex]. *)
Inductive Behavior : Type :=
| ChaserBehavior (chaseRadius : Q)
| AmbusherBehavior (chaseRadius : Q)
| PatrolBehavior (patrolPoints : list nat) (currentPatrolIndex : nat) (chaseRadius : Q).

(** Constructor defaults. *)
Definition defaultChaser : Behavior := ChaserBehavior 5.
Definition defaultAmbusher : Behavior := AmbusherBehavior 8.
Definition defaultPatrol : Behavior := PatrolBehavior [] 0 3.

Definition getName (b : Behavior) : string :=
  match b with
  | ChaserBehavior _ => "Chaser"
  | AmbusherBehavior _ => "Ambusher"
  | PatrolBehavior _ _ _ => "Patrol"
  end.

(** [PatrolBehavior.setPatrolPoints]; the other behaviours have no such
    method. *)
Definition setPatrolPoints (points : list nat) (b : Behavior) : Behavior :=
  match b with
  | PatrolBehavior _ _ chaseRadius => PatrolBehavior points 0 chaseRadius
  | _ => b
  end.

(** [PatrolBehavior.addPatrolPoint] *)
Definition addPatrolPoint (point : nat) (b : Behavior) : Behavior :=
  match b with
  | PatrolBehavior patrolPoints currentPatrolIndex chaseRadius =>
      PatrolBehavior (patrolPoints ++ [point]) currentPatrolIndex chaseRadius
  | _ => b
  end.

Section Supplier.
(** [W] is the state behind the random-point supplier: calling
    [getRandomPoint()] may change it and may throw. *)
Context {W : Type}.

Definition Supplier := W -> Outcome nat * W.

(** [distanceBetween(currentPoint, pacmanPoint) <= chaseRadius] *)
Definition withinRadius (cur pac : Node) (chaseRadius : Q) : bool :=
  Qle_bool (inject_Z (distanceBetween cur pac)) chaseRadius.

Definition supplied (b : Behavior) (r : Outcome nat * W)
  : Outcome (option nat * Behavior) * W :=
  (bind r.1 (fun n => Done (Some n, b)), r.2).

(** [determineDestination] of the three classes: the destination ([None] for
    [undefined]) and the behaviour after the call. *)
Definition determineDestination (b : Behavior) (h : list Node)
    (currentPoint pacmanPoint : nat) (isScared : bool)
    (getRandomPoint : Supplier) (w : W)
  : Outcome (option nat * Behavior) * W :=
  match b with
  | ChaserBehavior chaseRadius =>
      if isScared then supplied b (getRandomPoint w)
      else
        match deref h currentPoint, deref h pacmanPoint with
        | Done cur, Done pac =>
            if withinRadius cur pac chaseRadius then (Done (Some pacmanPoint, b), w)
            else supplied b (getRandomPoint w)
        | _, _ => (Crash, w)
        end
  | AmbusherBehavior chaseRadius =>
      if isScared then supplied b (getRandomPoint w)
      else
        match deref h currentPoint, deref h pacmanPoint with
        | Done cur, Done pac =>
            if withinRadius cur pac chaseRadius then
              match filterPassable h (neighbours pac) with
              | Done (n :: _) => (Done (Some n, b), w)
              | Done [] => (Done (Some pacmanPoint, b), w)
              | Throw e => (Throw e, w)
              | OutOfFuel => (OutOfFuel, w)
              end
            else supplied b (getRandomPoint w)
        | _, _ => (Crash, w)
        end
  | PatrolBehavior patrolPoints currentPatrolIndex chaseRadius =>
      if bool_decide (length patrolPoints = 0) then
        if isScared then supplied b (getRandomPoint w)
        else
          match deref h currentPoint, deref h pacmanPoint with
          | Done cur, Done pac =>
              if withinRadius cur pac chaseRadius then (Done (Some pacmanPoint, b), w)
              else supplied b (getRandomPoint w)
          | _, _ => (Crash, w)
          end
      else if isScared then supplied b (getRandomPoint w)
      else
        match deref h currentPoint, deref h pacmanPoint with
        | Done cur, Done pac =>
            if withinRadius cur pac chaseRadius then (Done (Some pacmanPoint, b), w)
            else
              let target := patrolPoints !! currentPatrolIndex in
              if bool_decide (Some currentPoint = target) then
                let next := (S currentPatrolIndex) mod (length patrolPoints) in
                (Done (patrolPoints !! next, PatrolBehavior patrolPoints next chaseRadius), w)
              else (Done (target, b), w)
        | _, _ => (Crash, w)
        end
  end.

End Supplier.

End GhostBehavior.

(* ===================================================================== *)
(** * entities/MutualComponents/MovementComponent.ts *)
(* ===================================================================== *)

Module MovementComponent.
Local Open Scope Q_scope.

(** [a < b] on numbers, as a boolean. *)
Definition Qltb (a b : Q) : bool := negb (Qle_bool b a).

(** [a !== b] on numbers. *)
Definition Qneb (a b : Q) : bool := negb (Qeq_bool a b).

(** [interface Speed] *)
Record Speed := mkSpeed { dx : Q; dy : Q; magnitude : Q }.

(** [new MovementComponent(position, initialMagnitude)] *)
Definition newMovement (initialMagnitude : Q) : Speed :=
  mkSpeed 0 0 initialMagnitude.

(** [MovementComponent.moveInDirection] *)
Definition moveInDirection (direction : string) (s : Speed) : Speed :=
  if String.eqb direction "UP" then mkSpeed 0 (- magnitude s) (magnitude s)
  else if String.eqb direction "DOWN" then mkSpeed 0 (magnitude s) (magnitude s)
  else if String.eqb direction "LEFT" then mkSpeed (- magnitude s) 0 (magnitude s)
  else if String.eqb direction "RIGHT" then mkSpeed (magnitude s) 0 (magnitude s)
  else s.

(** [MovementComponent.stop] *)
Definition stop (s : Speed) : Speed := mkSpeed 0 0 (magnitude s).

(** [MovementComponent.setMagnitude] *)
Definition setMagnitude (magnitude : Q) (s : Speed) : Speed :=
  let dx' := if Qneb (dx s) 0
             then (if Qltb 0 (dx s) then magnitude else - magnitude)
             else dx s in
  let dy' := if Qneb (dy s) 0
             then (if Qltb 0 (dy s) then magnitude else - magnitude)
             else dy s in
  mkSpeed dx' dy' magnitude.

(** [MovementComponent.getDirection] *)
Definition getDirection (s : Speed) : string :=
  if Qltb 0 (dx s) then "RIGHT"
  else if Qltb (dx s) 0 then "LEFT"
  else if Qltb 0 (dy s) then "DOWN"
  else if Qltb (dy s) 0 then "UP"
  else "NONE".

End MovementComponent.

(* ===================================================================== *)
(** * entities/GhostComponents/PathfindingComponent.ts *)
(* ===================================================================== *)

Module PathfindingComponent.
Import Graph GhostBehavior.

(** The fields of [PathfindingComponent] that it owns; [position] and
    [movementController] are shared with the ghost and are passed in. *)
Record Component := mkComponent {
  path : list nat;
  destination : option nat;
  currentPoint : option nat;
  currentTarget : option nat;
  updateFrequency : Q;
  lastUpdate : nat
}.

(** [new PathfindingComponent(position, movementController, updateFrequency)];
    the parameter defaults to 30. *)
Definition newComponent (updateFrequency : Q) : Component :=
  mkComponent [] None None None updateFrequency 0.

Definition defaultUpdateFrequency : Q := 30.

(** [setUpdateFrequency]: [Math.max(1, frequency)] *)
Definition setUpdateFrequency (frequency : Q) (c : Component) : Component :=
  mkComponent (path c) (destination c) (currentPoint c) (currentTarget c)
    (Qmax 1 frequency) (lastUpdate c).

(** [setDestination] *)
Definition setDestination (d : nat) (c : Component) : Component :=
  mkComponent (path c) (Some d) (currentPoint c) (currentTarget c)
    (updateFrequency c) (lastUpdate c).

Definition hasPath (c : Component) : bool := bool_decide (0 < length (path c)).

Section Update.
(** [W]: the state behind [getRandomPoint]; [C]: the movement controller,
    of which the component only calls [moveInDirection]. *)
Context {W C : Type}.
Variable moveInDirection : string -> C -> C.

(** What an update reads and writes: the node heap (the search writes the
    [prev] fields), the component, the ghost's behaviour, the movement
    controller and the supplier's state. *)
Record Env := mkEnv {
  heap : list Node;
  comp : Component;
  behavior : Behavior;
  controller : C;
  world : W
}.

(** The direction chosen by the comparisons of [determineMovementDirection]. *)
Definition axisDirection (target current : Node) : string :=
  if (x current <? x target)%Z then "RIGHT"
  else if (x target <? x current)%Z then "LEFT"
  else if (y target <? y current)%Z then "UP"
  else if (y current <? y target)%Z then "DOWN"
  else "NONE".

(** [determineMovementDirection] *)
Definition determineMovementDirection (e : Env) : Outcome Env :=
  match currentTarget (comp e), currentPoint (comp e) with
  | Some t, Some p =>
      if decide (t = p) then Done e
      else
        bind (deref (heap e) t) (fun tn =>
        bind (deref (heap e) p) (fun pn =>
        let direction := axisDirection tn pn in
        if negb (String.eqb direction "NONE") then
          Done (mkEnv (heap e) (comp e) (behavior e)
                      (moveInDirection direction (controller e)) (world e))
        else Done e))
  | _, _ => Done e
  end.

(** [moveToNextNode] *)
Definition moveToNextNode (getRandomPoint : Supplier) (e : Env) : Outcome Env :=
  match currentPoint (comp e) with
  | None => Done e
  | Some cp =>
      let c := comp e in
      if bool_decide (2 <= length (path c)) then
        determineMovementDirection
          (mkEnv (heap e)
             (mkComponent (path c) (destination c) (currentPoint c) (path c !! 1)
                          (updateFrequency c) (lastUpdate c))
             (behavior e) (controller e) (world e))
      else
        let target := Some (default cp (head (path c))) in
        let r := getRandomPoint (world e) in
        bind r.1 (fun d =>
        determineMovementDirection
          (mkEnv (heap e)
             (mkComponent (path c) (Some d) (currentPoint c) target
                          (updateFrequency c) (lastUpdate c))
             (behavior e) (controller e) r.2))
  end.

(** [updatePathfinding] *)
Definition updatePathfinding (fuel : nat) (getRandomPoint : Supplier)
    (pacmanPoint : nat) (isScared : bool) (e : Env) : Outcome Env :=
  match currentPoint (comp e) with
  | None => Done e
  | Some cp =>
      let c := comp e in
      let r := determineDestination (behavior e) (heap e) cp pacmanPoint isScared
                 getRandomPoint (world e) in
      bind r.1 (fun db =>
      let c1 := mkComponent (path c) db.1 (currentPoint c) (currentTarget c)
                            (updateFrequency c) (lastUpdate c) in
      match db.1 with
      | None => Done (mkEnv (heap e) c1 db.2 (controller e) r.2)
      | Some d =>
          bind (PathFinder.constructPathBFS fuel cp d (heap e)) (fun hp =>
          moveToNextNode getRandomPoint
            (mkEnv hp.1
               (mkComponent hp.2 (destination c1) (currentPoint c1) (currentTarget c1)
                            (updateFrequency c1) (lastUpdate c1))
               db.2 (controller e) r.2))
      end)
  end.

(** [update]: [getPoint] is applied to the ghost's position. *)
Definition update (fuel : nat) (getPoint : PrimFloat.float -> PrimFloat.float -> Outcome nat)
    (getRandomPoint : Supplier) (px py : PrimFloat.float) (pacmanPoint : nat) (isScared : bool)
    (e : Env) : Outcome Env :=
  bind (getPoint px py) (fun p =>
  let c := comp e in
  let ticks := S (lastUpdate c) in
  if Qle_bool (updateFrequency c) (inject_Z (Z.of_nat ticks)) then
    updatePathfinding fuel getRandomPoint pacmanPoint isScared
      (mkEnv (heap e)
         (mkComponent (path c) (destination c) (Some p) (currentTarget c)
                      (updateFrequency c) 0)
         (behavior e) (controller e) (world e))
  else
    Done (mkEnv (heap e)
            (mkComponent (path c) (destination c) (Some p) (currentTarget c)
                         (updateFrequency c) ticks)
            (behavior e) (controller e) (world e))).

(** Whether a tick with this component runs the path search. *)
Definition recomputes (c : Component) : bool :=
  Qle_bool (updateFrequency c) (inject_Z (Z.of_nat (S (lastUpdate c)))).

End Update.

Arguments Env W C : clear implicits.

End PathfindingComponent.

(* ===================================================================== *)
(** * Entities created by the level loader *)
(* ===================================================================== *)

Module Entities.
Import PrimFloat.

(** [new Dot(x, y, radius)] *)
Record Dot := mkDot { dotX : float; dotY : float; dotRadius : float }.

(** [PowerPellet | PathPellet], each built from [(x, y, radius)]. *)
Inductive Pellet : Type :=
| PowerPellet (x y radius : float)
| PathPellet (x y radius : float).

(** [class Ghost]: position, size, colour, behaviour, and the movement and
    pathfinding components its constructor creates. *)
Record Ghost := mkGhost {
  ghostX : float;
  ghostY : float;
  ghostWidth : float;
  ghostHeight : float;
  color : string;
  behavior : GhostBehavior.Behavior;
  movement : MovementComponent.Speed;
  pathfinding : PathfindingComponent.Component
}.

(** [new Ghost(x, y, width, height, color, behavior)]: the movement
    component starts with magnitude 0.8 and the pathfinding component with
    an update frequency of 30. *)
Definition newGhost (x y width height : float) (color : string)
    (behavior : GhostBehavior.Behavior) : Ghost :=
  mkGhost x y width height color behavior
    (MovementComponent.newMovement 0.8%Q)
    (PathfindingComponent.newComponent 30).

(** [class GhostFactory] *)
Definition createChaser (x y size : float) : Ghost :=
  newGhost x y size size "red" (GhostBehavior.ChaserBehavior 5).

Definition createAmbusher (x y size : float) : Ghost :=
  newGhost x y size size "pink" (GhostBehavior.AmbusherBehavior 8).

Definition createPatrol (x y size : float) (patrolPoints : list nat) : Ghost :=
  newGhost x y size size "orange" (GhostBehavior.PatrolBehavior patrolPoints 0 3).

Definition createRandom (x y size : float) : Ghost :=
  newGhost x y size size "cyan" (GhostBehavior.ChaserBehavior 0).

(** The part of [Pacman] the loader touches: position, collision radius and
    speed. *)
Record Pacman := mkPacman {
  body : Wall.CircularEntity;
  speed : MovementComponent.Speed
}.

Definition resize (radius : float) (p : Pacman) : Pacman :=
  mkPacman (Wall.mkCircle (Wall.cx (body p)) (Wall.cy (body p)) radius) (speed p).

Definition stop (p : Pacman) : Pacman :=
  mkPacman (body p) (MovementComponent.stop (speed p)).

Definition reposition (x y : float) (p : Pacman) : Pacman :=
  mkPacman (Wall.reposition x y (body p)) (speed p).

(** [class LevelEntities] *)
Record LevelEntities := mkEntities {
  walls : list Wall.Wall;
  dots : list Dot;
  ghosts : list Ghost;
  pellets : list Pellet;
  startNode : option nat
}.

Definition noEntities : LevelEntities := mkEntities [] [] [] [] None.

Definition addWall (w : Wall.Wall) (e : LevelEntities) : LevelEntities :=
  mkEntities (walls e ++ [w]) (dots e) (ghosts e) (pellets e) (startNode e).

Definition addDot (d : Dot) (e : LevelEntities) : LevelEntities :=
  mkEntities (walls e) (dots e ++ [d]) (ghosts e) (pellets e) (startNode e).

Definition addGhost (g : Ghost) (e : LevelEntities) : LevelEntities :=
  mkEntities (walls e) (dots e) (ghosts e ++ [g]) (pellets e) (startNode e).

Definition addPellet (p : Pellet) (e : LevelEntities) : LevelEntities :=
  mkEntities (walls e) (dots e) (ghosts e) (pellets e ++ [p]) (startNode e).

Definition setStartNode (n : nat) (e : LevelEntities) : LevelEntities :=
  mkEntities (walls e) (dots e) (ghosts e) (pellets e) (Some n).

End Entities.

(* ===================================================================== *)
(** * game/Level/LevelLoader.ts and game/Level/Level.ts *)
(* ===================================================================== *)

Module Level.
Import PrimFloat Graph Entities.
Local Open Scope string_scope.

(** The line feed character, the separator of [split]. *)
Definition newline : ascii := Ascii.ascii_of_nat 10.

(** [levelData.split(newline)]: the rows of the level; a string without a
    line feed is one row, the empty string included. *)
Fixpoint split (s : string) : list string :=
  match s with
  | EmptyString => [EmptyString]
  | String c s' =>
      if Ascii.eqb c newline then EmptyString :: split s'
      else
        match split s' with
        | r :: rs => String c r :: rs
        | [] => [String c EmptyString]
        end
  end.

(** The template string of the map keys: the two coordinates in decimal,
    separated by a space. *)
Definition key (x y : Z) : string := pretty x +:+ " " +:+ pretty y.

(** [interface LevelConfig] and the fields of [Level]; the nodes of the
    graph live in [nodes], the heap the references of [graph] point into. *)
Record Level := mkLevel {
  levelData : string;
  graph : gmap string nat;
  nodes : list Node;
  startNode : nat;
  tileSize : float;
  entities : LevelEntities
}.

(** ** LevelLoader *)

Record LevelLoader := mkLoader {
  loaderData : string;
  loaderTileSize : float
}.

(** [new LevelLoader(levelData, canvasWidth)] *)
Definition newLevelLoader (levelData : string) (canvasWidth : float) : Outcome LevelLoader :=
  if String.eqb levelData "" then Throw (GameError LevelLoadError)
  else
    let rows := split levelData in
    let levelWidth := String.length (default "" (head rows)) in
    if bool_decide (levelWidth <= 0)%nat then Throw (GameError LevelLoadError)
    else Done (mkLoader levelData (canvasWidth / Float64.of_nat levelWidth)%float).

(** [validateLevelDimensions] *)
Definition validateLevelDimensions (rows : list string) : Outcome unit :=
  let firstRowLength := String.length (default "" (head rows)) in
  if forallb (fun row => Nat.eqb (String.length row) firstRowLength) (tail rows)
  then
    if bool_decide (length rows < 3 \/ firstRowLength < 3)%nat
    then Throw (GameError LevelLoadError)
    else Done tt
  else Throw (GameError LevelLoadError).

(** What [createGraphAndEntities] builds, with the Pacman it positions. *)
Record Build := mkBuild {
  bNodes : list Node;
  bGraph : gmap string nat;
  bEntities : LevelEntities;
  bPacman : Pacman
}.

(** [processTileCharacter]: the entity of a tile, by its character. *)
Definition processTileCharacter (tileSize : float) (char : ascii) (x y : nat)
    (entities : LevelEntities) (pacman : Pacman) : LevelEntities * Pacman :=
  let posX := (Float64.of_nat x * tileSize + tileSize / 2)%float in
  let posY := (Float64.of_nat y * tileSize + tileSize / 2)%float in
  if Ascii.eqb char "S" then
    (entities, reposition posX posY (stop (resize ((tileSize / 2) * 0.8)%float pacman)))
  else if Ascii.eqb char "." then
    (addDot (mkDot posX posY ((tileSize / 2) * 0.15)%float) entities, pacman)
  else if Ascii.eqb char "#" then
    (addWall (Wall.mkWall (Float64.of_nat x * tileSize)%float
                          (Float64.of_nat y * tileSize)%float tileSize tileSize)
             entities, pacman)
  else if Ascii.eqb char "G" then
    (addGhost (createChaser posX posY ((tileSize / 2) * 0.5)%float) entities, pacman)
  else if Ascii.eqb char "A" then
    (addGhost (createAmbusher posX posY ((tileSize / 2) * 0.5)%float) entities, pacman)
  else if Ascii.eqb char "R" then
    (addGhost (createRandom posX posY ((tileSize / 2) * 0.5)%float) entities, pacman)
  else if Ascii.eqb char "H" then
    (addPellet (PathPellet posX posY ((tileSize / 2) * 0.40)%float) entities, pacman)
  else if Ascii.eqb char "P" then
    (addPellet (PowerPellet posX posY ((tileSize / 2) * 0.40)%float) entities, pacman)
  else (entities, pacman).

(** The body of the inner loop of [createGraphAndEntities] for the tile
    [char] at column [j] of row [i]. *)
Definition createTile (tileSize : float) (i j : nat) (char : ascii) (b : Build) : Build :=
  let passable := negb (Ascii.eqb char "#") in
  let node := length (bNodes b) in
  let ep := processTileCharacter tileSize char j i (bEntities b) (bPacman b) in
  mkBuild (bNodes b ++ [newNode passable (Z.of_nat j) (Z.of_nat i)])
          (<[key (Z.of_nat j) (Z.of_nat i) := node]> (bGraph b))
          (if Ascii.eqb char "S" then setStartNode node ep.1 else ep.1)
          ep.2.

(** [for (let j = 0; j < rows[i].length; j++)], from column [j] on. *)
Fixpoint createRow (tileSize : float) (i j : nat) (row : string) (b : Build) : Build :=
  match row with
  | EmptyString => b
  | String char row' => createRow tileSize i (S j) row' (createTile tileSize i j char b)
  end.

(** [for (let i = 0; i < rows.length; i++)], from row [i] on. *)
Fixpoint createRows (tileSize : float) (i : nat) (rows : list string) (b : Build) : Build :=
  match rows with
  | [] => b
  | row :: rows' => createRows tileSize (S i) rows' (createRow tileSize i 0 row b)
  end.

(** [createGraphAndEntities] *)
Definition createGraphAndEntities (tileSize : float) (rows : list string) (pacman : Pacman)
  : Build :=
  createRows tileSize 0 rows (mkBuild [] ∅ noEntities pacman).

(** The four keys [connectNodes] looks up for the tile at [(j, i)]: above,
    left, right, below. *)
Definition neighbourKeys (j i : Z) : list string :=
  [key j (i - 1); key (j - 1) i; key (j + 1) i; key j (i + 1)]%Z.

(** The body of the inner loop of [connectNodes]. *)
Definition connectTile (graph : gmap string nat) (i j : nat) (h : list Node)
  : list Node :=
  match graph !! key (Z.of_nat j) (Z.of_nat i) with
  | None => h
  | Some node =>
      foldl (fun h n => alter (push_neighbour n) node h) h
            (omap (fun k => graph !! k)
                  (neighbourKeys (Z.of_nat j) (Z.of_nat i)))
  end.

Fixpoint connectRow (graph : gmap string nat) (i j : nat) (row : string)
    (h : list Node) : list Node :=
  match row with
  | EmptyString => h
  | String _ row' => connectRow graph i (S j) row' (connectTile graph i j h)
  end.

Fixpoint connectRows (graph : gmap string nat) (i : nat) (rows : list string)
    (h : list Node) : list Node :=
  match rows with
  | [] => h
  | row :: rows' => connectRows graph (S i) rows' (connectRow graph i 0 row h)
  end.

(** [connectNodes] *)
Definition connectNodes (graph : gmap string nat) (rows : list string)
    (h : list Node) : list Node :=
  connectRows graph 0 rows h.

(** [buildLevel]: the level and the Pacman it has positioned. *)
Definition buildLevel (loader : LevelLoader) (pacman : Pacman) : Outcome (Level * Pacman) :=
  let rows := split (loaderData loader) in
  bind (validateLevelDimensions rows) (fun _ =>
  let b := createGraphAndEntities (loaderTileSize loader) rows pacman in
  let h := connectNodes (bGraph b) rows (bNodes b) in
  match Entities.startNode (bEntities b) with
  | None => Throw (GameError LevelLoadError)
  | Some start =>
      Done (mkLevel (loaderData loader) (bGraph b) h start (loaderTileSize loader)
                    (bEntities b), bPacman b)
  end).

(** Loading a level from its text, as the game does: a loader is
    constructed for the canvas width and asked to build the level. *)
Definition loadLevel (levelData : string) (canvasWidth : float) (pacman : Pacman)
  : Outcome (Level * Pacman) :=
  bind (newLevelLoader levelData canvasWidth) (fun loader => buildLevel loader pacman).

(** ** Level *)

(** The key [getNode] builds: the texts of the floors of the coordinates,
    separated by a space. *)
Definition floorKey (x y : float) : string :=
  Float64.integerText (Float64.floor x) +:+ " " +:+
  Float64.integerText (Float64.floor y).

(** [Level.getNode] *)
Definition getNode (lv : Level) (x y : float) : option nat :=
  graph lv !! floorKey x y.

(** [Level.getPoint]; with a tile size of zero the quotients are infinite
    or NaN. *)
Definition getPoint (lv : Level) (x y : float) : Outcome nat :=
  match getNode lv (x / tileSize lv)%float (y / tileSize lv)%float with
  | Some n => Done n
  | None => Throw (GameError PathfindingError)
  end.

(** The source of [Math.random()]: the values it is going to return and
    the number of values returned so far. *)
Record Rng := mkRng { draws : nat -> float; drawn : nat }.

(** [Math.random()] *)
Definition random (r : Rng) : float * Rng :=
  (draws r (drawn r), mkRng (draws r) (S (drawn r))).

Definition maxAttempts : nat := 100.

(** The [do ... while] loop of [getRandomPoint], entered with [attempts]
    attempts made.  Each attempt draws twice; the attempt that reaches
    [maxAttempts] throws before its point is looked at. *)
Fixpoint randomPointLoop (fuel : nat) (lv : Level) (maxX maxY : nat)
    (attempts : nat) (r : Rng) : Outcome nat * Rng :=
  match fuel with
  | O => (OutOfFuel, r)
  | S f =>
      let (u, r1) := random r in
      let x := Float64.floor (u * Float64.of_nat maxX)%float in
      let (v, r2) := random r1 in
      let y := Float64.floor (v * Float64.of_nat maxY)%float in
      let point := getNode lv x y in
      let attempts := S attempts in
      if bool_decide (maxAttempts <= attempts)%nat
      then (Throw (GameError PathfindingError), r2)
      else
        match point with
        | Some n =>
            match nodes lv !! n with
            | Some nd => if isPassable nd then (Done n, r2)
                         else randomPointLoop f lv maxX maxY attempts r2
            | None => (Crash, r2)
            end
        | None => randomPointLoop f lv maxX maxY attempts r2
        end
  end.

(** [Level.getRandomPoint] *)
Definition getRandomPoint (fuel : nat) (lv : Level) (r : Rng) : Outcome nat * Rng :=
  let rows := split (levelData lv) in
  let maxX := String.length (default "" (head rows)) in
  let maxY := length rows in
  if bool_decide (maxX = 0 \/ maxY = 0)%nat
  then (Throw (GameError InvalidStateError), r)
  else randomPointLoop fuel lv maxX maxY 0 r.

(** [Level.isCompleted] *)
Definition isCompleted (lv : Level) : bool :=
  bool_decide (length (dots (entities lv)) = 0)%nat.

End Level.

(* ===================================================================== *)
(** * Properties of the path search *)
(* ===================================================================== *)

Module PathFinderProofs.
Import Graph PathFinder.

Lemma pop_None q : pop q = None -> q = [].
Proof.
  induction q as [|a q IH]; [done|].
  simpl. destruct q as [|b q]; [done|].
  destruct (pop (b :: q)) as [[l r]|] eqn:E; [done|].
  intros _. by specialize (IH eq_refl).
Qed.

Lemma pop_Some q e q' : pop q = Some (e, q') -> q = q' ++ [e].
Proof.
  revert e q'. induction q as [|a q IH]; intros e q'; [done|].
  simpl. destruct q as [|b q]; [by intros [= <- <-]|].
  destruct (pop (b :: q)) as [[l r]|] eqn:E; [|done].
  intros [= <- <-]. by rewrite (IH _ _ eq_refl).
Qed.

Lemma pop_snoc q e : pop (q ++ [e]) = Some (e, q).
Proof.
  induction q as [|a q IH]; [done|].
  change ((a :: q) ++ [e]) with (a :: (q ++ [e])).
  simpl. rewrite IH. by destruct (q ++ [e]) eqn:E; [destruct q|].
Qed.

Lemma same_graph_refl h : same_graph h h.
Proof. done. Qed.

Lemma same_graph_trans h1 h2 h3 :
  same_graph h1 h2 -> same_graph h2 h3 -> same_graph h1 h3.
Proof. unfold same_graph. congruence. Qed.

Lemma same_graph_length h h' : same_graph h h' -> length h = length h'.
Proof.
  intros E. apply (f_equal length) in E. by rewrite !length_fmap in E.
Qed.

Lemma same_graph_lookup h h' r nd :
  same_graph h h' -> h !! r = Some nd ->
  exists nd', h' !! r = Some nd' /\ shape nd' = shape nd.
Proof.
  intros E Hr. apply (f_equal (fun l => l !! r)) in E.
  rewrite !list_lookup_fmap, Hr in E. simpl in E.
  destruct (h' !! r) as [nd'|]; [|done]. exists nd'. split; [done|].
  simpl in E. congruence.
Qed.

Lemma same_graph_set_prev h n nd e :
  h !! n = Some nd -> same_graph h (<[n := set_prev e nd]> h).
Proof.
  intros Hn. unfold same_graph. rewrite list_fmap_insert.
  symmetry. apply list_insert_id. by rewrite list_lookup_fmap, Hn.
Qed.

Lemma same_graph_sym h h' : same_graph h h' -> same_graph h' h.
Proof. done. Qed.

Lemma edge_same_graph h h' u v : same_graph h h' -> edge h u v -> edge h' u v.
Proof.
  intros E (nu & nv & Hu & Hin & Hv & Hp).
  destruct (same_graph_lookup _ _ _ _ E Hu) as (nu' & Hu' & Su).
  destruct (same_graph_lookup _ _ _ _ E Hv) as (nv' & Hv' & Sv).
  injection Su as Su1 Su2. injection Sv as Sv1 Sv2.
  exists nu', nv'. repeat split; [done| |done|]; congruence.
Qed.

(** *** The [forEach] over the neighbours *)

Lemma expand_spec e V ns : forall (h : list Node) q,
  Forall (fun n => n < length h) ns ->
  exists h' news,
    expand e V ns h q = Some (h', news ++ q) /\
    length news <= length ns /\
    same_graph h h' /\
    (forall n, n ∈ news ->
       (n ∈ ns) /\ (n ∉ V) /\
       (exists nd, h !! n = Some nd /\ isPassable nd = true) /\
       (exists nd', h' !! n = Some nd' /\ prev nd' = Some e)) /\
    (forall r, r ∉ news -> h' !! r = h !! r).
Proof.
  induction ns as [|n ns IH]; intros h q Hv.
  { exists h, []. simpl. split; [done|]. split; [lia|]. split; [done|].
    split; [|done]. intros m Hm. by apply elem_of_nil in Hm. }
  apply Forall_cons in Hv as [Hn Hv].
  destruct (lookup_lt_is_Some_2 h n Hn) as [nd Hnd].
  simpl. rewrite Hnd.
  destruct (isPassable nd && bool_decide (n ∉ V)) eqn:Hc.
  - apply andb_true_iff in Hc as [Hp HnV]. apply bool_decide_eq_true in HnV.
    pose proof (same_graph_set_prev h n nd e Hnd) as Hsg.
    destruct (IH (<[n := set_prev e nd]> h) (n :: q)) as (h' & news & He & Hl & Hs & Hnew & Hold).
    { by rewrite length_insert. }
    exists h', (news ++ [n]). rewrite <- app_assoc. simpl.
    split; [done|]. split; [rewrite length_app; simpl; lia|].
    split; [by eapply same_graph_trans|].
    split.
    + intros m Hm. apply elem_of_app in Hm as [Hm|Hm].
      * destruct (Hnew m Hm) as (H1 & H2 & (nd1 & H3 & H4) & H5).
        split; [by apply elem_of_cons; right|]. split; [done|]. split; [|done].
        destruct (decide (m = n)) as [->|Hne].
        -- exists nd. done.
        -- rewrite list_lookup_insert_ne in H3 by done. eauto.
      * apply list_elem_of_singleton in Hm as ->.
        split; [by apply elem_of_cons; left|]. split; [done|]. split; [eauto|].
        destruct (decide (n ∈ news)) as [Hin|Hnin].
        -- by destruct (Hnew n Hin) as (_ & _ & _ & H5).
        -- rewrite (Hold n Hnin). rewrite list_lookup_insert_eq by done. eauto.
    + intros r Hr. rewrite not_elem_of_app in Hr. destruct Hr as [Hr1 Hr2].
      rewrite (Hold r Hr1). apply list_lookup_insert_ne.
      intros ->. apply Hr2. by apply list_elem_of_singleton.
  - destruct (IH h q Hv) as (h' & news & He & Hl & Hs & Hnew & Hold).
    exists h', news. split; [done|]. split; [simpl; lia|]. split; [done|].
    split; [|done].
    intros m Hm. destruct (Hnew m Hm) as (H1 & H2 & H3 & H4).
    split; [by apply elem_of_cons; right|]. done.
Qed.

(** *** Counting the unvisited nodes *)

Lemma unvisited_mono N e (V : gset nat) :
  unvisited N ({[e]} ∪ V) <= unvisited N V.
Proof. unfold unvisited. apply subseteq_size. set_solver. Qed.

Lemma unvisited_fresh N e (V : gset nat) :
  e < N -> e ∉ V -> S (unvisited N ({[e]} ∪ V)) <= unvisited N V.
Proof.
  intros He HV. unfold unvisited.
  assert (Hsub : (set_seq 0 N : gset nat) ∖ ({[e]} ∪ V) ⊂ (set_seq 0 N : gset nat) ∖ V).
  { apply strict_spec_alt. split; [set_solver|].
    intros Heq. assert (Hin : e ∈ (set_seq 0 N : gset nat) ∖ V).
    { apply elem_of_difference. split; [apply elem_of_set_seq; lia|done]. }
    rewrite <- Heq in Hin. set_solver. }
  apply subset_size in Hsub. lia.
Qed.

Lemma unvisited_empty N : unvisited N ∅ = N.
Proof.
  unfold unvisited. rewrite difference_empty_L. apply size_set_seq.
Qed.

(** *** The weight of a labelled queue *)

Lemma weight_app B l1 l2 : weight B (l1 ++ l2) = weight B l1 + weight B l2.
Proof. apply sum_list_with_app. Qed.

Lemma weight_replicate B n u : weight B (replicate n u) = n * B ^ u.
Proof.
  unfold weight. induction n as [|n IH]; [done|]. simpl. rewrite IH. lia.
Qed.

Lemma pow_succ_split D u : 1 <= u -> D * S D ^ (u - 1) + 1 <= S D ^ u.
Proof.
  intros Hu. replace u with (S (u - 1)) at 2 by lia.
  rewrite Nat.pow_succ_r'.
  assert (1 <= S D ^ (u - 1)) by (apply Nat.neq_0_lt_0, Nat.pow_nonzero; lia).
  lia.
Qed.

Lemma max_degree_bound (h : list Node) r nd :
  h !! r = Some nd -> length (neighbours nd) <= max_degree h.
Proof.
  revert r. induction h as [|a h IH]; intros r; [done|].
  destruct r as [|r]; simpl.
  - intros [= ->]. lia.
  - intros Hr. specialize (IH _ Hr). lia.
Qed.

(** *** Chains of [prev] links *)

Lemma chain_mono (h : list Node) (V V' : gset nat) from v k :
  V ⊆ V' -> chain h V from v k -> chain h V' from v k.
Proof.
  intros Hsub. induction 1 as [|v nd p k Hne Hin Hl Hp _ IH]; [constructor|].
  econstructor; eauto.
Qed.

Lemma chain_heap (h h' : list Node) (V : gset nat) from v k :
  (forall r, r ∈ V -> h' !! r = h !! r) ->
  chain h V from v k -> chain h' V from v k.
Proof.
  intros Heq. induction 1 as [|v nd p k Hne Hin Hl Hp _ IH]; [constructor|].
  econstructor; eauto. by rewrite Heq.
Qed.

Lemma walk_chain (h : list Node) (V : gset nat) from v k :
  chain h V from v k ->
  forall fuel acc, k < fuel -> exists p, walk fuel h from v acc = Done p.
Proof.
  induction 1 as [|v nd p k Hne Hin Hl Hp _ IH]; intros fuel acc Hf.
  - destruct fuel as [|f]; [lia|]. simpl. rewrite decide_True by done. eauto.
  - destruct fuel as [|f]; [lia|]. simpl. rewrite decide_False by done.
    rewrite Hl, Hp. apply IH. lia.
Qed.

(** Whatever the heap, a returned path is the reversal of the nodes walked:
    it starts at [from] and ends at the node the walk started from. *)
Lemma walk_shape fuel : forall (h : list Node) from v acc p,
  walk fuel h from v acc = Done p ->
  head p = Some from /\ last p = head (acc ++ [v]).
Proof.
  induction fuel as [|f IH]; intros h from v acc p; [done|].
  simpl. destruct (decide (v = from)) as [->|Hne].
  - intros [= <-]. rewrite reverse_app. simpl. split; [done|].
    rewrite last_cons. rewrite last_reverse.
    destruct acc; done.
  - destruct (h !! v) as [nd|]; [|done]. destruct (prev nd) as [q|]; [|done].
    intros Hw. apply IH in Hw as [H1 H2]. split; [done|].
    rewrite H2. rewrite <- app_assoc. by destruct acc.
Qed.

Lemma elem_of_snoc_last (q : list nat) e : e ∈ q ++ [e].
Proof. apply elem_of_app. right. by apply list_elem_of_singleton. Qed.

Lemma elem_of_snoc_init (q : list nat) e n : n ∈ q -> n ∈ q ++ [e].
Proof. intros. apply elem_of_app. by left. Qed.

(** *** The loop invariant *)

Section Search.
Variable h0 : list Node.
Variables from to : nat.
Hypothesis Hwf : well_formed h0.

Let N := length h0.
Let B := S (max_degree h0).

(** The label [u] of a queue entry [n] bounds the number of unvisited nodes,
    strictly when [n] itself has been visited since it was queued. *)
Definition label_ok (V : gset nat) (n u : nat) : Prop :=
  n < N /\ unvisited N V + (if decide (n ∈ V) then 1 else 0) <= u.

Record Inv (s : BfsState) (c : nat) (ls : list nat) : Prop := {
  inv_graph : same_graph h0 (heap s);
  inv_labels : Forall2 (label_ok (visited s)) (queue s) ls;
  inv_reach_q : forall n, n ∈ queue s -> reach h0 from n;
  inv_chain : forall v, v ∈ visited s ->
      exists k, k <= c /\ chain (heap s) (visited s) from v k;
  inv_qprev : forall q, q ∈ queue s ->
      q = from \/ q ∈ visited s \/
      exists nd p, heap s !! q = Some nd /\ prev nd = Some p /\ p ∈ visited s
}.

Lemma label_ok_positive V n u : label_ok V n u -> 1 <= u.
Proof.
  intros [Hn Hu]. destruct (decide (n ∈ V)) as [Hin|Hnin]; [lia|].
  pose proof (unvisited_fresh N n V Hn Hnin). lia.
Qed.

Lemma label_ok_popped V n u :
  label_ok V n u -> unvisited N ({[n]} ∪ V) <= u - 1.
Proof.
  intros [Hn Hu]. destruct (decide (n ∈ V)) as [Hin|Hnin].
  - pose proof (unvisited_mono N n V). lia.
  - pose proof (unvisited_fresh N n V Hn Hnin). lia.
Qed.

Lemma label_ok_kept V e n u :
  label_ok V n u -> label_ok ({[e]} ∪ V) n u.
Proof.
  intros [Hn Hu]. split; [done|].
  destruct (decide (n ∈ V)) as [Hin|Hnin].
  - rewrite decide_True by set_solver. pose proof (unvisited_mono N e V). lia.
  - destruct (decide (n ∈ {[e]} ∪ V)) as [Hin'|Hnin'].
    + assert (n = e) as -> by set_solver.
      pose proof (unvisited_fresh N e V Hn Hnin). lia.
    + pose proof (unvisited_mono N e V). lia.
Qed.

Lemma popped_chain s c ls e q' :
  Inv s c ls -> queue s = q' ++ [e] ->
  exists k, k <= S c /\ chain (heap s) ({[e]} ∪ visited s) from e k.
Proof.
  intros HI Hq.
  destruct (decide (e = from)) as [->|Hne]; [exists 0; split; [lia|constructor]|].
  destruct (inv_qprev _ _ _ HI e) as [Hf|[Hv|(nd & p & Hl & Hp & HpV)]].
  { rewrite Hq. apply elem_of_snoc_last. }
  - done.
  - destruct (inv_chain _ _ _ HI e Hv) as (k & Hk & Hc).
    exists k. split; [lia|]. eapply chain_mono; [|done]. set_solver.
  - destruct (inv_chain _ _ _ HI p HpV) as (k & Hk & Hc).
    exists (S k). split; [lia|].
    eapply chain_step; [done|set_solver|done|done|].
    eapply chain_mono; [|done]. set_solver.
Qed.

Lemma heap_lookup_h0 s c ls r nd :
  Inv s c ls -> heap s !! r = Some nd ->
  exists nd0, h0 !! r = Some nd0 /\ isPassable nd0 = isPassable nd /\
              neighbours nd0 = neighbours nd.
Proof.
  intros HI Hr.
  destruct (same_graph_lookup _ _ _ _ (same_graph_sym _ _ (inv_graph _ _ _ HI)) Hr)
    as (nd0 & H0 & Hs).
  injection Hs as H1 H2. eauto.
Qed.

Lemma neighbours_valid r nd0 :
  h0 !! r = Some nd0 -> Forall (fun n => n < N) (neighbours nd0).
Proof.
  intros Hr. unfold well_formed in Hwf. rewrite Forall_forall in Hwf.
  apply Hwf. by eapply list_elem_of_lookup_2.
Qed.

(** One iteration that expands [e] re-establishes the invariant, with a
    labelling of strictly smaller weight. *)
Lemma step_inv s c ls e q' nd :
  Inv s c ls -> queue s = q' ++ [e] -> heap s !! e = Some nd ->
  exists h' q'' ls',
    expand e ({[e]} ∪ visited s) (neighbours nd) (heap s) q' = Some (h', q'') /\
    Inv (mkBfs h' ({[e]} ∪ visited s) q'') (S c) ls' /\
    S (weight B ls') <= weight B ls.
Proof.
  intros HI Hq He.
  pose proof (inv_labels _ _ _ HI) as Hlab. rewrite Hq in Hlab.
  apply Forall2_app_inv_l in Hlab as (ls1 & lsu & Hl1 & Hlu & ->).
  apply Forall2_cons_inv_l in Hlu as (u & k' & Hu & Hnil & ->).
  apply Forall2_nil_inv_l in Hnil as ->.
  destruct (heap_lookup_h0 _ _ _ _ _ HI He) as (nd0 & H0 & Hp0 & Hn0).
  pose proof (neighbours_valid _ _ H0) as Hval. rewrite Hn0 in Hval.
  pose proof (same_graph_length _ _ (inv_graph _ _ _ HI)) as Hlen.
  destruct (expand_spec e ({[e]} ∪ visited s) (neighbours nd) (heap s) q')
    as (h' & news & Hex & Hnl & Hsg & Hnew & Hold).
  { eapply Forall_impl; [exact Hval|]. intros n Hn. simpl in Hn. unfold N in Hn. lia. }
  set (V' := {[e]} ∪ visited s) in *.
  exists h', (news ++ q'), (replicate (length news) (unvisited N V') ++ ls1).
  split; [done|]. split; [split; simpl|].
  - eapply same_graph_trans; [apply (inv_graph _ _ _ HI)|done].
  - apply Forall2_app.
    + apply Forall2_replicate_r; [done|]. apply Forall_forall. intros n Hn.
      destruct (Hnew n Hn) as (Hin & HnV & _ & _).
      unfold flip. split.
      * rewrite Forall_forall in Hval. by apply Hval.
      * rewrite decide_False by done. lia.
    + eapply Forall2_impl; [exact Hl1|]. intros n v Hnv. by apply label_ok_kept.
  - intros n Hn. apply elem_of_app in Hn as [Hn|Hn].
    + destruct (Hnew n Hn) as (Hin & HnV & (ndn & Hln & Hpn) & _).
      destruct (heap_lookup_h0 _ _ _ _ _ HI Hln) as (ndn0 & Hl0 & Hpp & _).
      eapply reach_step.
      * apply (inv_reach_q _ _ _ HI). rewrite Hq. apply elem_of_snoc_last.
      * exists nd0, ndn0. rewrite Hn0. repeat split; [done|done|done|congruence].
    + apply (inv_reach_q _ _ _ HI). rewrite Hq. by apply elem_of_snoc_init.
  - intros v Hv.
    assert (Hc : exists k, k <= S c /\ chain (heap s) V' from v k).
    { apply elem_of_union in Hv as [Hv|Hv].
      - apply elem_of_singleton in Hv as ->. by eapply popped_chain.
      - destruct (inv_chain _ _ _ HI v Hv) as (k & Hk & Hc).
        exists k. split; [lia|]. eapply chain_mono; [|done]. set_solver. }
    destruct Hc as (k & Hk & Hc). exists k. split; [done|].
    eapply chain_heap; [|done]. intros r Hr. apply Hold.
    intros Hrn. by destruct (Hnew r Hrn) as (_ & HrV & _).
  - intros q Hqin. apply elem_of_app in Hqin as [Hn|Hn].
    + destruct (Hnew q Hn) as (_ & _ & _ & (nd' & Hl' & Hp')).
      right; right. exists nd', e. repeat split; [done|done|set_solver].
    + destruct (inv_qprev _ _ _ HI q) as [Hf|[Hv|(ndq & p & Hl & Hp & HpV)]].
      { rewrite Hq. by apply elem_of_snoc_init. }
      * by left.
      * right; left. set_solver.
      * right; right. destruct (decide (q ∈ news)) as [Hqn|Hqn].
        -- destruct (Hnew q Hqn) as (_ & _ & _ & (nd' & Hl' & Hp')).
           exists nd', e. repeat split; [done|done|set_solver].
        -- exists ndq, p. rewrite (Hold q Hqn). repeat split; [done|done|set_solver].
  - rewrite !weight_app, weight_replicate. simpl. rewrite Nat.add_0_r.
    pose proof (label_ok_positive _ _ _ Hu) as Hu1.
    pose proof (label_ok_popped _ _ _ Hu) as Hu2. fold V' in Hu2.
    pose proof (max_degree_bound h0 e nd0 H0) as Hdeg. rewrite Hn0 in Hdeg.
    pose proof (pow_succ_split (max_degree h0) u Hu1) as Hpow. fold B in Hpow.
    assert (Hle : B ^ unvisited N V' <= B ^ (u - 1)).
    { apply Nat.pow_le_mono_r; [unfold B; lia|done]. }
    assert (length news * B ^ unvisited N V' <= max_degree h0 * B ^ (u - 1)).
    { apply Nat.mul_le_mono; lia. }
    lia.
Qed.

(** From a state that satisfies the invariant the loop returns, after at most
    [w] further iterations when the labelling weighs at most [w]. *)
Lemma nonempty_queue_weight s c ls e q' :
  Inv s c ls -> queue s = q' ++ [e] -> e < N /\ 1 <= weight B ls.
Proof.
  intros HI Hq.
  pose proof (inv_labels _ _ _ HI) as Hlab. rewrite Hq in Hlab.
  apply Forall2_app_inv_l in Hlab as (ls1 & lsu & Hl1 & Hlu & ->).
  apply Forall2_cons_inv_l in Hlu as (u & k' & Hu & Hnil & ->).
  split; [by destruct Hu|].
  rewrite weight_app. simpl.
  assert (1 <= B ^ u) by (apply Nat.neq_0_lt_0, Nat.pow_nonzero; unfold B; lia).
  lia.
Qed.

Lemma loop_total w : forall fuel s c ls iters,
  Inv s c ls -> weight B ls <= w -> c + 2 * w + 1 <= fuel ->
  exists h' p n,
    bfs_loop fuel from to s iters = (Done (h', p), n) /\
    n <= iters + w /\ (p <> [] -> reach h0 from to).
Proof.
  induction w as [|w IH]; intros fuel s c ls iters HI Hw Hf.
  - destruct fuel as [|f]; [lia|]. simpl.
    destruct (pop (queue s)) as [[e q']|] eqn:Hpop.
    + apply pop_Some in Hpop.
      destruct (nonempty_queue_weight _ _ _ _ _ HI Hpop). lia.
    + exists (heap s), [], iters. split; [done|]. split; [lia|done].
  - destruct fuel as [|f]; [lia|]. simpl.
    destruct (pop (queue s)) as [[e q']|] eqn:Hpop;
      [|exists (heap s), [], iters; split; [done|]; split; [lia|done]].
    apply pop_Some in Hpop.
    destruct (nonempty_queue_weight _ _ _ _ _ HI Hpop) as [HeN Hpos].
    destruct (decide (e = to)) as [->|Hne].
    + destruct (popped_chain _ _ _ _ _ HI Hpop) as (k & Hk & Hc).
      destruct (walk_chain _ _ _ _ _ Hc f []) as [p Hp]; [lia|].
      rewrite Hp. exists (heap s), p, (S iters). split; [done|]. split; [lia|].
      intros _. apply (inv_reach_q _ _ _ HI). rewrite Hpop. apply elem_of_snoc_last.
    + pose proof (same_graph_length _ _ (inv_graph _ _ _ HI)) as Hlen.
      destruct (lookup_lt_is_Some_2 (heap s) e) as [nd He]; [unfold N in HeN; lia|].
      rewrite He.
      destruct (step_inv _ _ _ _ _ _ HI Hpop He) as (h' & q'' & ls' & Hex & HI' & Hw').
      rewrite Hex.
      destruct (IH f _ (S c) ls' (S iters) HI') as (h'' & p & n & Hr & Hn & Hreach);
        [lia|lia|].
      exists h'', p, n. split; [done|]. split; [lia|done].
Qed.

Lemma initial_inv : from < N -> Inv (mkBfs h0 ∅ [from]) 0 [N].
Proof.
  intros Hfrom. split; simpl.
  - apply same_graph_refl.
  - constructor; [|constructor]. split; [done|].
    rewrite unvisited_empty. rewrite decide_False by set_solver. lia.
  - intros n Hn. apply list_elem_of_singleton in Hn as ->. constructor.
  - intros v Hv. set_solver.
  - intros q Hq. apply list_elem_of_singleton in Hq. by left.
Qed.

End Search.

(** A returned non-empty path starts at [from] and ends at [to]; this holds
    for every heap and every state the loop is started in. *)
Lemma loop_path_ends fuel : forall from to s iters h' p n,
  bfs_loop fuel from to s iters = (Done (h', p), n) ->
  p <> [] -> head p = Some from /\ last p = Some to.
Proof.
  induction fuel as [|f IH]; intros from to s iters h' p n; [done|].
  simpl. destruct (pop (queue s)) as [[e q']|]; [|by intros [= <- <- <-]].
  destruct (decide (e = to)) as [->|Hne].
  - destruct (walk f (heap s) from to []) as [p'| |] eqn:Hw; try done.
    intros [= <- <- <-] _. by apply walk_shape in Hw.
  - destruct (heap s !! e) as [nd|]; [|done].
    destruct (expand _ _ _ _ _) as [[h1 q1]|]; [|done].
    apply IH.
Qed.

(** Searching from a node to itself returns the one-node path, whatever the
    heap holds. *)
Lemma same_node_path (h : list Node) n fuel :
  2 <= fuel -> constructPathBFS fuel n n h = Done (h, [n]).
Proof.
  intros Hf. destruct fuel as [|[|f]]; [lia|lia|].
  unfold constructPathBFS. simpl. rewrite !decide_True by done. done.
Qed.

(** The graph of a 3x3 level without walls (rows [S..], [...], [...]), node
    [(j, i)] at index [3 * i + j], neighbours in the order up, left, right,
    down. *)
Definition open3x3 : list Node :=
  [ mkNode true [1; 3] 0 0 None;    mkNode true [0; 2; 4] 1 0 None;
    mkNode true [1; 5] 2 0 None;    mkNode true [0; 4; 6] 0 1 None;
    mkNode true [1; 3; 5; 7] 1 1 None; mkNode true [2; 4; 8] 2 1 None;
    mkNode true [3; 7] 0 2 None;    mkNode true [4; 6; 8] 1 2 None;
    mkNode true [5; 7] 2 2 None ].

(** Two passable nodes with a wall node between them. *)
Definition walled_off : list Node :=
  [ mkNode true [1] 0 0 None; mkNode false [0; 2] 1 0 None;
    mkNode true [1] 2 0 None ].

Lemma bfs_fuel_bound (h : list Node) from to fuel :
  well_formed h -> from < length h ->
  2 * S (max_degree h) ^ length h + 2 <= fuel ->
  exists h' p n,
    bfs_loop fuel from to (mkBfs h ∅ [from]) 0 = (Done (h', p), n) /\
    n <= S (max_degree h) ^ length h /\ (p <> [] -> reach h from to).
Proof.
  intros Hwf Hfrom Hfuel.
  destruct (loop_total h from to Hwf (S (max_degree h) ^ length h) fuel
              (mkBfs h ∅ [from]) 0 [length h] 0) as (h' & p & n & Hr & Hn & Hreach).
  - by apply initial_inv.
  - unfold weight. simpl. lia.
  - lia.
  - exists h', p, n. split; [done|]. split; [lia|done].
Qed.

(** C3.  For a heap whose neighbour references are valid and a start node in
    the heap, [constructPathBFS] returns a path once the fuel passes a bound;
    the path is [[from]] when [from = to], it is empty when [to] is not
    reachable from [from] through passable nodes, and whenever it is not
    empty it begins with [from] and ends with [to]. *)
Theorem constructPathBFS_paths (h : list Node) (from to : nat) :
  well_formed h -> from < length h ->
  exists fuel0, forall fuel, fuel0 <= fuel ->
    exists h' p,
      constructPathBFS fuel from to h = Done (h', p) /\
      (from = to -> p = [from]) /\
      (~ reach h from to -> p = []) /\
      (p <> [] -> head p = Some from /\ last p = Some to).
Proof.
  intros Hwf Hfrom. exists (2 * S (max_degree h) ^ length h + 2).
  intros fuel Hfuel.
  destruct (bfs_fuel_bound h from to fuel Hwf Hfrom Hfuel)
    as (h' & p & n & Hr & Hn & Hreach).
  exists h', p. unfold constructPathBFS. rewrite Hr. simpl.
  split; [done|]. split; [|split].
  - intros <-. pose proof (same_node_path h from fuel) as Hs.
    unfold constructPathBFS in Hs. rewrite Hr in Hs. simpl in Hs.
    assert (Done (h', p) = Done (h, [from])) as [= _ ->] by (apply Hs; lia). done.
  - intros Hnr. destruct p as [|a p]; [done|]. exfalso. by apply Hnr, Hreach.
  - intros Hp. by eapply loop_path_ends.
Qed.

Lemma constructPathBFS_paths_witness :
  exists fuel0, forall fuel, fuel0 <= fuel ->
    exists h' p,
      constructPathBFS fuel 0 2 walled_off = Done (h', p) /\
      (0 = 2 -> p = [0]) /\
      (~ reach walled_off 0 2 -> p = []) /\
      (p <> [] -> head p = Some 0 /\ last p = Some 2).
Proof.
  apply (constructPathBFS_paths walled_off 0 2).
  - unfold well_formed, walled_off. repeat (constructor; simpl; try lia).
  - simpl. lia.
Defined.




End PathFinderProofs.

(* ===================================================================== *)
(** * Properties of binary64 arithmetic *)
(* ===================================================================== *)

Module Float64Facts.
Import SpecFloat PrimFloat FloatOps FloatAxioms Float64.
Local Open Scope Z_scope.










Lemma switch_Eq_Eq c : Pos.switch_Eq Eq c = c.
Proof. by destruct c. Qed.








(** ** Rounding a representable number leaves it as it is *)

















(** ** Doubling and halving *)





(** ** Comparisons of numbers that are not NaN *)

Lemma SFcompare_antisym x y :
  SFcompare y x = option_map CompOpp (SFcompare x y).
Proof.
  destruct x as [sx|sx| |sx mx ex], y as [sy|sy| |sy my ey]; simpl;
    try by repeat match goal with s : bool |- _ => destruct s end.
  destruct sx, sy; simpl; try done.
  - rewrite (Z.compare_antisym ex ey). destruct (ex ?= ey); simpl; try done.
    f_equal. rewrite !Pos.compare_cont_spec, !switch_Eq_Eq.
    rewrite (Pos.compare_antisym mx my). by destruct (mx ?= my)%positive.
  - rewrite (Z.compare_antisym ex ey). destruct (ex ?= ey); simpl; try done.
    f_equal. rewrite !Pos.compare_cont_spec, !switch_Eq_Eq.
    rewrite (Pos.compare_antisym mx my). by destruct (mx ?= my)%positive.
Qed.

Lemma SFcompare_some x y :
  x <> S754_nan -> y <> S754_nan -> exists c, SFcompare x y = Some c.
Proof. destruct x, y; simpl; intros ? ?; try done; eauto. Qed.

Lemma SFcompare_refl x : x <> S754_nan -> SFcompare x x = Some Eq.
Proof.
  destruct x as [s|s| |s m e]; simpl; try done; try by destruct s.
  intros _. rewrite Z.compare_refl, Pos.compare_cont_refl. by destruct s.
Qed.

(** [a === a] holds exactly for the numbers other than NaN. *)
Lemma number_spec a : (a =? a)%float = true <-> Prim2SF a <> S754_nan.
Proof.
  rewrite eqb_spec. unfold SFeqb. split.
  - intros H Hn. by rewrite Hn in H.
  - intros H. by rewrite SFcompare_refl.
Qed.

Lemma leb_refl a : (a =? a)%float = true -> (a <=? a)%float = true.
Proof.
  intros H%number_spec. rewrite leb_spec. unfold SFleb. by rewrite SFcompare_refl.
Qed.

Lemma leb_total a b :
  (a =? a)%float = true -> (b =? b)%float = true ->
  (a <=? b)%float = false -> (b <=? a)%float = true.
Proof.
  intros Ha%number_spec Hb%number_spec. rewrite !leb_spec. unfold SFleb.
  rewrite (SFcompare_antisym (Prim2SF a) (Prim2SF b)).
  destruct (SFcompare_some _ _ Ha Hb) as [c ->]. by destruct c.
Qed.

Lemma abs_number a : (a =? a)%float = true -> (abs a =? abs a)%float = true.
Proof.
  rewrite !number_spec, abs_spec. by destruct (Prim2SF a).
Qed.

(** ** Numbers on a grid *)





Section Grid.
Variable g : Z.
Hypothesis Hg : -1074 <= g <= 971.









End Grid.

End Float64Facts.

(* ===================================================================== *)
(** * Properties of the wall collision resolution *)
(* ===================================================================== *)

Module WallProofs.
Import PrimFloat CollisionDetector Wall Float64 Float64Facts.
Local Open Scope Z_scope.



Section OnGrid.
(** The grid of the halves. *)
Variable g : Z.
Hypothesis Hg : -41 <= g <= -1.

















End OnGrid.




Section Resolution.
Variable g : Z.
Hypothesis Hg : -41 <= g <= -1.




End Resolution.





(** A 30x30 wall whose left edge is at [2^60], where the doubles are 256
    apart, and an entity of radius 12 centred on that edge. *)
Definition farWall : Wall := mkWall 1152921504606846976 0 30 30.
Definition farEntity : CircularEntity := mkCircle 1152921504606846976 15 12.

(** C5 as stated fails.  The wall and the entity collide and the
    horizontal axis is chosen, but the new position [x + width + radius + 1]
    is rounded back to [2^60] at each sum: the entity is not displaced, its
    square still overlaps the wall on that axis by the radius, and the pair
    still collides. *)
Lemma wall_resolution_rounding :
  collides farWall farEntity = true /\
  horizontal farWall farEntity = true /\
  handleCollision farWall farEntity = farEntity /\
  0 < overlap_x farWall (handleCollision farWall farEntity) /\
  collides farWall (handleCollision farWall farEntity) = true.
Proof. vm_compute. repeat split. Qed.

End WallProofs.

(* ===================================================================== *)
(** * Properties of the event mediator *)
(* ===================================================================== *)

Module EventMediatorProofs.
Import EventMediator.

Section Dispatch.
Context {L D W : Type} `{EqDecision L}.
Variable call : L -> (GameEvent D -> World L W -> Outcome (World L W)) ->
                GameEvent D -> World L W -> Outcome (World L W).

Lemma registered_register k k' (l : L) (w : World L W) :
  registered k (register k' l w) =
  if decide (k' = k) then registered k w ++ [l] else registered k w.
Proof.
  unfold registered, register. simpl.
  destruct (decide (k' = k)) as [->|Hne].
  - rewrite lookup_alter_eq.
    destruct (listeners w !! k) as [ls|] eqn:E; simpl.
    + by rewrite E.
    + by rewrite lookup_insert_eq.
  - rewrite lookup_alter_ne by done.
    destruct (listeners w !! k') as [ls|] eqn:E; [done|].
    by rewrite lookup_insert_ne.
Qed.

Lemma registered_unregister k k' (l : L) (w : World L W) :
  registered k (unregister k' l w) =
  if decide (k' = k) then remove_first l (registered k w) else registered k w.
Proof.
  unfold registered, unregister.
  destruct (listeners w !! k') as [ls|] eqn:E; simpl.
  - destruct (decide (k' = k)) as [->|Hne].
    + rewrite lookup_alter_eq, E. done.
    + by rewrite lookup_alter_ne.
  - destruct (decide (k' = k)) as [->|Hne]; [|done]. by rewrite E.
Qed.

(** The [Map] and the plain list agree on the listeners of each kind. *)
Lemma registered_after_ops k (ops : list (Op L)) : forall (w : World L W),
  registered k (foldl apply_op w ops) = registration_order k ops (registered k w).
Proof.
  induction ops as [|[k' l|k' l] ops IH]; intros w; simpl; [done| |].
  - rewrite IH, registered_register. done.
  - rewrite IH, registered_unregister. done.
Qed.

(** While no call of the run changes the list of the event's kind, the loop
    calls the rest of the list in order. *)
Lemma dispatch_call_all nfy (event : GameEvent D) rest :
  forall pre (w : World L W) fuel,
    undisturbed call nfy rest event w ->
    registered (type event) w = pre ++ rest -> length rest < fuel ->
    dispatch call fuel nfy event (length pre) w = call_all call nfy rest event w.
Proof.
  induction rest as [|l rest IH]; intros pre w fuel Hpres Hreg Hfuel;
    (destruct fuel as [|f]; [simpl in Hfuel; lia|]); simpl.
  - unfold registered in Hreg. rewrite app_nil_r in Hreg.
    destruct (listeners w !! type event) as [ls|]; simpl; [|done].
    simpl in Hreg. subst ls. by rewrite lookup_ge_None_2.
  - unfold registered in Hreg.
    destruct (listeners w !! type event) as [ls|] eqn:E; simpl in Hreg;
      [|by destruct pre].
    subst ls. simpl.
    rewrite lookup_app_r by lia. rewrite Nat.sub_diag. simpl.
    simpl in Hpres.
    destruct (call l nfy event w) as [w'| |] eqn:Hc; simpl; [|done|done].
    destruct Hpres as [Hsame Hpres].
    specialize (IH (pre ++ [l]) w' f).
    rewrite length_app in IH. simpl in IH.
    replace (length pre + 1) with (S (length pre)) in IH by lia.
    apply IH; [done| |simpl in Hfuel; lia].
    unfold registered. rewrite Hsame, E. simpl. by rewrite <- app_assoc.
Qed.

Lemma notify_undisturbed fuel (event : GameEvent D) (w : World L W) :
  undisturbed call (notify call fuel) (registered (type event) w) event w ->
  length (registered (type event) w) < fuel ->
  notify call (S fuel) event w =
  call_all call (notify call fuel) (registered (type event) w) event w.
Proof.
  intros Hpres Hfuel. simpl.
  destruct (listeners w !! type event) as [ls|] eqn:E.
  - by apply (dispatch_call_all _ event (registered (type event) w) []).
  - unfold registered. by rewrite E.
Qed.

(** Listeners that never change the list of the kind do not disturb any
    run. *)
Lemma undisturbed_all nfy (event : GameEvent D) :
  (forall l w1 w2, call l nfy event w1 = Done w2 ->
     listeners w2 !! type event = listeners w1 !! type event) ->
  forall ls (w : World L W), undisturbed call nfy ls event w.
Proof.
  intros Hpres. induction ls as [|l ls IH]; intros w; simpl; [done|].
  destruct (call l nfy event w) as [w'| |] eqn:Hc; [|done|done].
  split; [by eapply Hpres|apply IH].
Qed.

Lemma notify_call_all fuel (event : GameEvent D) (w : World L W) :
  (forall l w1 w2, call l (notify call fuel) event w1 = Done w2 ->
     listeners w2 !! type event = listeners w1 !! type event) ->
  length (registered (type event) w) < fuel ->
  notify call (S fuel) event w =
  call_all call (notify call fuel) (registered (type event) w) event w.
Proof.
  intros Hpres Hfuel. apply notify_undisturbed; [|done].
  by apply undisturbed_all.
Qed.

(** One step of the loop: the listener at the index is read from the list
    as it is now, and the loop goes on at the next index in the world the
    call returns. *)
Lemma dispatch_step fuel nfy (event : GameEvent D) pre l rest (w w' : World L W) :
  registered (type event) w = pre ++ l :: rest ->
  call l nfy event w = Done w' ->
  dispatch call (S fuel) nfy event (length pre) w =
  dispatch call fuel nfy event (S (length pre)) w'.
Proof.
  intros Hreg Hc. simpl. unfold registered in Hreg.
  destruct (listeners w !! type event) as [ls|] eqn:E; simpl in Hreg;
    [|by destruct pre].
  subst ls. simpl. rewrite lookup_app_r by lia. rewrite Nat.sub_diag. simpl.
  by rewrite Hc.
Qed.

(** Deleting an element at or before the end of [pre] moves what follows
    one place to the front. *)
Lemma delete_before {A} (j : nat) (pre : list A) (l x : A) (rest : list A) :
  j <= length pre ->
  exists pre', length pre' = S (length pre) /\
               delete j (pre ++ l :: x :: rest) = pre' ++ rest.
Proof.
  revert j. induction pre as [|a pre IH]; intros j Hj; simpl in *.
  - assert (j = 0) as -> by lia. by exists [x].
  - destruct j as [|j].
    + by exists (pre ++ [l; x]); rewrite length_app, <- app_assoc; simpl; split; [lia|].
    + destruct (IH j) as (pre' & Hlen & Heq); [lia|].
      exists (a :: pre'). simpl. split; [lia|]. by rewrite Heq.
Qed.

End Dispatch.

(** ** Listeners that record their calls *)

(** Listeners are numbered; the state is the list of the listeners called so
    far, as a test with a shared log array would have it. *)
Definition record_call (l : nat) (w : World nat (list nat)) : World nat (list nat) :=
  mkWorld (listeners w) (state w ++ [l]).

(** Every listener only records its call. *)
Definition quiet (l : nat) (nfy : GameEvent unit -> World nat (list nat) -> Outcome (World nat (list nat)))
    (event : GameEvent unit) (w : World nat (list nat)) : Outcome (World nat (list nat)) :=
  Done (record_call l w).

(** Listener 0 registers listener 9 for the kind of the event it is called
    with; listener 1 unregisters itself; the others only record the call. *)
Definition meddling (l : nat) (nfy : GameEvent unit -> World nat (list nat) -> Outcome (World nat (list nat)))
    (event : GameEvent unit) (w : World nat (list nat)) : Outcome (World nat (list nat)) :=
  match l with
  | 0 => Done (register (type event) 9 (record_call 0 w))
  | 1 => Done (unregister (type event) 1 (record_call 1 w))
  | _ => Done (record_call l w)
  end.

Definition dotCollected : GameEvent unit := mkEvent DotCollected tt.

(** The calls recorded by a run, when it returns. *)
Definition calls (r : Outcome (World nat (list nat))) : option (list nat) :=
  match r with
  | Done w => Some (state w)
  | _ => None
  end.

(** C1, as amended.  After any sequence of [register] and [unregister] calls
    on an empty mediator, [notify] calls the listeners registered for the
    event's kind, in registration order, one after the other, provided that
    no listener invoked during that dispatch changes the list of that kind.
    The loop reads the live array.  When the listener called at some
    position registers a listener for the same kind, and the listeners
    called after it leave the list alone, the same dispatch goes on through
    the listeners that were registered and then calls the new one.  When the
    listener called at some position removes a listener at or before its own
    position, the same dispatch does not call the listener that followed
    it: it goes on with the one after that. *)
Theorem notify_calls_registered {L D W : Type} `{EqDecision L}
    (call : L -> (GameEvent D -> World L W -> Outcome (World L W)) ->
            GameEvent D -> World L W -> Outcome (World L W))
    (event : GameEvent D) (fuel : nat) :
  (forall (ops : list (Op L)) (w0 : W),
     undisturbed call (notify call fuel) (registration_order (type event) ops [])
                 event (foldl apply_op (mkWorld ∅ w0) ops) ->
     length (registration_order (type event) ops []) < fuel ->
     notify call (S fuel) event (foldl apply_op (mkWorld ∅ w0) ops) =
     call_all call (notify call fuel) (registration_order (type event) ops [])
              event (foldl apply_op (mkWorld ∅ w0) ops)) /\
  (forall nfy pre l rest l' (w w' : World L W),
     registered (type event) w = pre ++ l :: rest ->
     call l nfy event w = Done w' ->
     registered (type event) w' = pre ++ l :: rest ++ [l'] ->
     undisturbed call nfy (rest ++ [l']) event w' ->
     S (length rest) < fuel ->
     dispatch call (S fuel) nfy event (length pre) w =
     call_all call nfy (rest ++ [l']) event w') /\
  (forall nfy pre l skipped rest j (w w' : World L W),
     registered (type event) w = pre ++ l :: skipped :: rest ->
     call l nfy event w = Done w' ->
     j <= length pre ->
     registered (type event) w' = delete j (pre ++ l :: skipped :: rest) ->
     undisturbed call nfy rest event w' ->
     length rest < fuel ->
     dispatch call (S fuel) nfy event (length pre) w =
     call_all call nfy rest event w').
Proof.
  split; [|split].
  - intros ops w0 Hpres Hfuel.
    pose proof (registered_after_ops (type event) ops (mkWorld ∅ w0)) as Hreg.
    change (registered (type event) (mkWorld ∅ w0)) with (@nil L) in Hreg.
    rewrite <- Hreg in *. by apply notify_undisturbed.
  - intros nfy pre l rest l' w w' Hreg Hc Hreg' Hpres Hfuel.
    rewrite (dispatch_step call fuel nfy event pre l rest w w' Hreg Hc).
    replace (S (length pre)) with (length (pre ++ [l]))
      by (rewrite length_app; simpl; lia).
    apply dispatch_call_all; [done| |rewrite length_app; simpl; lia].
    rewrite Hreg'. by rewrite <- app_assoc.
  - intros nfy pre l skipped rest j w w' Hreg Hc Hj Hreg' Hpres Hfuel.
    rewrite (dispatch_step call fuel nfy event pre l (skipped :: rest) w w' Hreg Hc).
    destruct (delete_before j pre l skipped rest Hj) as (pre' & Hlen & Hdel).
    rewrite <- Hlen. apply dispatch_call_all; [done| |done].
    by rewrite Hreg', Hdel.
Qed.

(** Listeners that only record: [notify] calls 2 and 3 after the five
    operations.  Listener 0 registering listener 9: the dispatch at listener
    0 goes on to call 9.  Listener 1 removing itself from [[1; 2; 3]]: the
    dispatch at listener 1 goes on with 3. *)
Lemma notify_calls_registered_witness :
  let ops := [Register DotCollected 1; Register DotCollected 2;
              Register PelletCollected 5; Unregister DotCollected 1;
              Register DotCollected 3] in
  let w0 := foldl apply_op (mkWorld ∅ []) [Register DotCollected 0] in
  let w1 := foldl apply_op (mkWorld ∅ [])
              [Register DotCollected 1; Register DotCollected 2;
               Register DotCollected 3] in
  notify quiet 6 dotCollected (foldl apply_op (mkWorld ∅ []) ops) =
  call_all quiet (notify quiet 5) (registration_order DotCollected ops [])
           dotCollected (foldl apply_op (mkWorld ∅ []) ops) /\
  dispatch meddling 6 (notify meddling 5) dotCollected 0 w0 =
  call_all meddling (notify meddling 5) [9] dotCollected
           (register DotCollected 9 (record_call 0 w0)) /\
  dispatch meddling 6 (notify meddling 5) dotCollected 0 w1 =
  call_all meddling (notify meddling 5) [3] dotCollected
           (unregister DotCollected 1 (record_call 1 w1)).
Proof.
  intros ops w0 w1.
  pose proof (notify_calls_registered quiet dotCollected 5) as (Hq & _ & _).
  pose proof (notify_calls_registered meddling dotCollected 5) as (_ & Hadd & Hdel).
  split; [|split].
  - apply (Hq ops []).
    + vm_compute. repeat split.
    + simpl. lia.
  - apply (Hadd (notify meddling 5) [] 0 [] 9 w0).
    + vm_compute. reflexivity.
    + reflexivity.
    + vm_compute. reflexivity.
    + vm_compute. repeat split.
    + simpl. lia.
  - apply (Hdel (notify meddling 5) [] 1 2 [3] 0 w1).
    + vm_compute. reflexivity.
    + reflexivity.
    + simpl. lia.
    + vm_compute. reflexivity.
    + vm_compute. repeat split.
    + simpl. lia.
Defined.

(** C1 as stated fails.  With listener 0 alone registered, [notify] also
    calls listener 9, which listener 0 registers during the dispatch; with
    listeners 1, 2 and 3 registered, listener 1 removing itself makes the
    loop skip listener 2. *)
Lemma dispatch_sees_changes :
  calls (notify meddling 8 dotCollected
           (foldl apply_op (mkWorld ∅ []) [Register DotCollected 0])) = Some [0; 9] /\
  calls (notify meddling 8 dotCollected
           (foldl apply_op (mkWorld ∅ [])
              [Register DotCollected 1; Register DotCollected 2;
               Register DotCollected 3])) = Some [1; 3].
Proof. split; vm_compute; reflexivity. Qed.

End EventMediatorProofs.

(* ===================================================================== *)
(** * Properties of the score system *)
(* ===================================================================== *)

Module ScoreSystemProofs.
Import EventMediator ScoreSystem.
Import PrimFloat.

(** C7.  On a fresh score system with the default score values, the events
    DotCollected, PelletCollected (power), GhostEaten three times,
    PowerModeEnded and GhostEaten once more leave a score of exactly 9.5
    in binary64 arithmetic. *)
Theorem default_scenario_score :
  exists w,
    notify_all 4
      [dotCollectedEvent; powerPelletEvent; ghostEatenEvent; ghostEatenEvent;
       ghostEatenEvent; powerModeEndedEvent; ghostEatenEvent]
      (newScoreSystem ∅) = Done w /\
    getScore w = 9.5%float /\
    consecutiveGhosts (state w) = 1.
Proof.
  eexists. split; [vm_compute; reflexivity|]. split; reflexivity.
Qed.

End ScoreSystemProofs.

(* ===================================================================== *)
(** * Properties of the game state machine *)
(* ===================================================================== *)

Module GameStateProofs.
Import EventMediator GameState.

Lemma lookup_clear_handles (l : list (string * nat)) (p : gmap nat Timeout) i :
  foldr (fun kv p => delete kv.2 p) p l !! i =
  if decide (i ∈ l.*2) then None else p !! i.
Proof.
  induction l as [|[k v] l IH].
  - destruct (decide (i ∈ ([] : list (string * nat)).*2)) as [Hin|Hnin]; [|done].
    by apply elem_of_nil in Hin.
  - change (foldr (fun kv p => delete kv.2 p) p ((k, v) :: l))
      with (delete v (foldr (fun kv p => delete kv.2 p) p l)).
    change (((k, v) :: l).*2) with (v :: l.*2).
    destruct (decide (v = i)) as [->|Hne].
    + rewrite lookup_delete_eq. rewrite decide_True; [done|]. by left.
    + rewrite lookup_delete_ne by done. rewrite IH.
      destruct (decide (i ∈ l.*2)) as [Hin|Hnin].
      * rewrite decide_True; [done|]. by right.
      * rewrite decide_False; [done|].
        intros [?|?]%elem_of_cons; [congruence|done].
Qed.

(** ** [managed] is an invariant *)

Lemma managed_new sys cb handle : managed (newGameState sys cb handle).
Proof. intros timerId t H. simpl in H. by rewrite lookup_empty in H. Qed.

Lemma managed_set_status st s : managed s -> managed (set_status st s).
Proof. done. Qed.

Lemma managed_set_flags a b sys s : managed s -> managed (set_flags a b sys s).
Proof. done. Qed.

Lemma managed_clearTimer id s : managed s -> managed (clearTimer id s).
Proof.
  intros Hm. unfold clearTimer. destruct (timers s !! id) as [h|] eqn:E; [|done].
  intros u t. simpl. intros Hu.
  destruct (decide (h = u)) as [->|Hne]; [by rewrite lookup_delete_eq in Hu|].
  rewrite lookup_delete_ne in Hu by done.
  pose proof (Hm u t Hu) as Ht.
  rewrite lookup_delete_ne; [done|]. intros Heq. rewrite Heq in E. congruence.
Qed.

Lemma clearTimer_gone id s : timers (clearTimer id s) !! id = None.
Proof.
  unfold clearTimer. destruct (timers s !! id) as [h|] eqn:E; [|done].
  simpl. apply lookup_delete_eq.
Qed.

Lemma managed_setTimer id cb d s : managed s -> managed (setTimer id cb d s).
Proof.
  intros Hm. pose proof (managed_clearTimer id s Hm) as Hm1.
  pose proof (clearTimer_gone id s) as Hgone.
  unfold setTimer. intros u t. simpl. intros Hu.
  destruct (decide (nextHandle (clearTimer id s) = u)) as [<-|Hne].
  - rewrite lookup_insert_eq in Hu. injection Hu as <-. simpl.
    apply lookup_insert_eq.
  - rewrite lookup_insert_ne in Hu by done.
    pose proof (Hm1 u t Hu) as Ht.
    rewrite lookup_insert_ne; [done|]. intros Heq. rewrite Heq in Hgone. congruence.
Qed.

Lemma managed_setGhostsScared d s : managed s -> managed (setGhostsScared d s).
Proof. intros Hm. by apply managed_setTimer. Qed.

Lemma managed_setShowPath d s : managed s -> managed (setShowPath d s).
Proof. intros Hm. by apply managed_setTimer. Qed.

Lemma run_callback_timers fuel cb s s' :
  run_callback fuel cb s = Done s' ->
  timers s' = timers s /\ pending s' = pending s.
Proof.
  destruct cb; simpl.
  - destruct (notify _ _ _ _); simpl; [|done|done]. by intros [= <-].
  - by intros [= <-].
Qed.

Lemma managed_fire fuel h s s' : managed s -> fire fuel h s = Done s' -> managed s'.
Proof.
  intros Hm. unfold fire. destruct (pending s !! h) as [t|] eqn:E; [|by intros [= <-]].
  destruct (run_callback _ _ _) as [s2| |] eqn:Hr; simpl; [|done|done].
  intros [= <-]. apply run_callback_timers in Hr as [Ht Hp]. simpl in Ht, Hp.
  intros u t'. simpl. rewrite Ht, Hp. intros Hu.
  destruct (decide (h = u)) as [->|Hne]; [by rewrite lookup_delete_eq in Hu|].
  rewrite lookup_delete_ne in Hu by done.
  pose proof (Hm u t' Hu) as Hu'. pose proof (Hm h t E) as Hh.
  rewrite lookup_delete_ne; [done|]. intros Heq. rewrite Heq in Hh. congruence.
Qed.

(** [clearAllTimers] leaves no timeout of the manager pending. *)
Lemma clearAllTimers_pending s : managed s -> pending (clearAllTimers s) = ∅.
Proof.
  intros Hm. apply map_eq. intros i. rewrite lookup_empty. simpl.
  rewrite lookup_clear_handles.
  destruct (decide (i ∈ (map_to_list (timers s)).*2)) as [Hin|Hnin]; [done|].
  destruct (pending s !! i) as [t|] eqn:E; [|done].
  exfalso. apply Hnin. apply list_elem_of_fmap.
  exists (timerKey t, i). split; [done|]. apply elem_of_map_to_list. by apply Hm.
Qed.

Lemma managed_clearAllTimers s : managed s -> managed (clearAllTimers s).
Proof.
  intros Hm u t Hu. rewrite (clearAllTimers_pending s Hm) in Hu.
  by rewrite lookup_empty in Hu.
Qed.






(** A game that has been started, with a status-change callback set. *)
Definition started : State :=
  set_status Playing (newGameState (ScoreSystem.newScoreSystem ∅) true 1).

(** A game in which the scared timer and the path timer are armed. *)
Definition armed : State :=
  setShowPath 15000 (setGhostsScared 10000 started).

Lemma managed_armed : managed armed.
Proof.
  unfold armed. apply managed_setShowPath, managed_setGhostsScared.
  apply managed_set_status, managed_new.
Qed.



(** C8 as stated fails.  In the armed game with the callback that
    [EventSystem] installs, [endGame] returns with the status NameInput when
    the score is a high score and HighScores when it is not; the status
    GameOver is set and left again before [endGame] returns. *)
Lemma endGame_status_moves_on :
  status armed = Playing /\ hasStatusChangeCallback armed = true /\
  (exists s', endGame (handleGameStatusChange 3 true) armed = Done s' /\
              status s' = NameInput /\ status s' <> GameOver) /\
  (exists s', endGame (handleGameStatusChange 3 false) armed = Done s' /\
              status s' = HighScores /\ status s' <> GameOver).
Proof.
  split; [reflexivity|]. split; [reflexivity|].
  split; eexists; (split; [vm_compute; reflexivity|]); done.
Qed.

(** Without [endGame] the armed scared timer does fire: its callback turns
    the flag off and drops the timer from the map. *)
Lemma armed_timer_fires :
  exists s, fire 4 1 armed = Done s /\
    ghostsScared armed = true /\ ghostsScared s = false /\
    isTimerActive SCARED_TIMER s = false.
Proof. eexists. split; [vm_compute; reflexivity|]. repeat split. Qed.

End GameStateProofs.

(* ===================================================================== *)
(** * Properties of the level loader and the level *)
(* ===================================================================== *)

Module LevelProofs.
Import Graph Entities Level.
Import PrimFloat.
Local Open Scope string_scope.
Local Open Scope list_scope.

(** ** The keys of the graph are injective in the coordinates *)

Fixpoint no_space (s : string) : Prop :=
  match s with
  | EmptyString => True
  | String c s' => c <> " "%char /\ no_space s'
  end.

Lemma pretty_N_char_no_space x : pretty_N_char x <> " "%char.
Proof. unfold pretty_N_char. by repeat case_match. Qed.

Lemma pretty_N_go_no_space x : forall s, no_space s -> no_space (pretty_N_go x s).
Proof.
  induction (N.lt_wf_0 x) as [x _ IH]. intros s Hs.
  assert (x = 0 \/ 0 < x)%N as [->|Hpos] by lia.
  - by rewrite pretty_N_go_0.
  - rewrite pretty_N_go_step by done. apply IH.
    + by apply N.div_lt.
    + split; [apply pretty_N_char_no_space|done].
Qed.

Lemma pretty_N_no_space (x : N) : no_space (pretty x).
Proof.
  unfold pretty, pretty_N. case_decide.
  - simpl. split; [done|done].
  - by apply pretty_N_go_no_space.
Qed.

Lemma no_space_app s t : no_space s -> no_space t -> no_space (s +:+ t).
Proof.
  induction s as [|c s IH]; [done|]. intros [? ?] ?.
  change (no_space (String c (s +:+ t))). split; auto.
Qed.

Lemma pretty_Z_no_space (x : Z) : no_space (pretty x).
Proof.
  unfold pretty, pretty_Z. destruct x as [|p|p].
  - simpl. split; done.
  - apply pretty_N_no_space.
  - apply no_space_app; [simpl; split; done|apply pretty_N_no_space].
Qed.

Lemma sep_inj s1 : forall s2 t1 t2,
  no_space s1 -> no_space s2 ->
  s1 +:+ " " +:+ t1 = s2 +:+ " " +:+ t2 -> s1 = s2 /\ t1 = t2.
Proof.
  induction s1 as [|c s1 IH]; intros [|d s2] t1 t2 H1 H2 H.
  - change (String " " t1 = String " " t2) in H. by injection H as ->.
  - change (String " " t1 = String d (s2 +:+ " " +:+ t2)) in H.
    injection H as Hd _. destruct H2 as [H2 _]. by rewrite Hd in H2.
  - change (String c (s1 +:+ " " +:+ t1) = String " " t2) in H.
    injection H as Hc _. destruct H1 as [H1 _]. by rewrite Hc in H1.
  - change (String c (s1 +:+ " " +:+ t1) = String d (s2 +:+ " " +:+ t2)) in H.
    injection H as -> Hr. destruct H1 as [_ H1], H2 as [_ H2].
    destruct (IH s2 t1 t2 H1 H2 Hr) as [-> ->]. done.
Qed.

Lemma key_inj x y x' y' : key x y = key x' y' -> x = x' /\ y = y'.
Proof.
  unfold key. intros H.
  apply sep_inj in H as [Hx Hy]; [|apply pretty_Z_no_space..].
  split; by apply (inj pretty).
Qed.

(** ** The texts of the numbers that [getNode] floors *)

Section NumberText.
Import SpecFloat FloatOps FloatAxioms Float64 Float64Facts.
Local Open Scope Z_scope.


















End NumberText.

(** ** The two nested loops as one pass over the tiles in row-major order *)

(** A tile: row, column and character. *)
Definition rowCells : nat -> nat -> string -> list (nat * nat * ascii) :=
  fix go i j row :=
    match row with
    | EmptyString => []
    | String c row' => (i, j, c) :: go i (S j) row'
    end.

Fixpoint gridCells (i : nat) (rows : list string) : list (nat * nat * ascii) :=
  match rows with
  | [] => []
  | row :: rows' => rowCells i 0 row ++ gridCells (S i) rows'
  end.

Definition cellKey (c : nat * nat * ascii) : string :=
  key (Z.of_nat c.1.2) (Z.of_nat c.1.1).

Definition cellNode (c : nat * nat * ascii) : Node :=
  newNode (negb (Ascii.eqb c.2 "#")) (Z.of_nat c.1.2) (Z.of_nat c.1.1).

Definition tileOf (ts : PrimFloat.float) (b : Build) (c : nat * nat * ascii) : Build :=
  createTile ts c.1.1 c.1.2 c.2 b.

Lemma createRow_cells ts i row : forall j b,
  createRow ts i j row b = foldl (tileOf ts) b (rowCells i j row).
Proof. induction row as [|c row IH]; intros j b; simpl; [done|]. by rewrite IH. Qed.

Lemma createRows_cells ts rows : forall i b,
  createRows ts i rows b = foldl (tileOf ts) b (gridCells i rows).
Proof.
  induction rows as [|row rows IH]; intros i b; simpl; [done|].
  by rewrite IH, createRow_cells, foldl_app.
Qed.

Lemma rowCells_elem i row : forall j c,
  c ∈ rowCells i j row -> c.1.1 = i /\ j <= c.1.2.
Proof.
  induction row as [|a row IH]; intros j c; simpl.
  - by intros ?%elem_of_nil.
  - intros [->|Hin]%elem_of_cons; [simpl; lia|].
    apply IH in Hin as [? ?]. lia.
Qed.

Lemma gridCells_elem rows : forall i c, c ∈ gridCells i rows -> i <= c.1.1.
Proof.
  induction rows as [|row rows IH]; intros i c; simpl.
  - by intros ?%elem_of_nil.
  - intros [Hin|Hin]%elem_of_app.
    + apply rowCells_elem in Hin as [-> _]. lia.
    + apply IH in Hin. lia.
Qed.

Lemma cellKey_inj c c' : cellKey c = cellKey c' -> c.1 = c'.1.
Proof.
  destruct c as [[i j] a], c' as [[i' j'] a']. unfold cellKey. simpl.
  intros [Hj Hi]%key_inj. f_equal; lia.
Qed.

Lemma rowCells_NoDup i row : forall j, NoDup (cellKey <$> rowCells i j row).
Proof.
  induction row as [|a row IH]; intros j; simpl; [constructor|].
  constructor; [|apply IH].
  intros (c & Hk & Hin)%list_elem_of_fmap.
  apply cellKey_inj in Hk. apply rowCells_elem in Hin as [_ Hj].
  simpl in Hk. rewrite <- Hk in Hj. simpl in Hj. lia.
Qed.

Lemma gridCells_NoDup rows : forall i, NoDup (cellKey <$> gridCells i rows).
Proof.
  induction rows as [|row rows IH]; intros i; simpl; [constructor|].
  rewrite fmap_app. apply NoDup_app. split; [apply rowCells_NoDup|].
  split; [|apply IH].
  intros k (c & -> & Hin)%list_elem_of_fmap (c' & Hk & Hin')%list_elem_of_fmap.
  apply cellKey_inj in Hk. apply rowCells_elem in Hin as [Hi _].
  apply gridCells_elem in Hin'. rewrite <- Hk in Hin'. lia.
Qed.

(** ** What the pass builds *)

Lemma create_cells ts cs : forall b,
  NoDup (cellKey <$> cs) ->
  (forall c, c ∈ cs -> bGraph b !! cellKey c = None) ->
  bNodes (foldl (tileOf ts) b cs) = bNodes b ++ (cellNode <$> cs) /\
  (forall k c, cs !! k = Some c ->
     bGraph (foldl (tileOf ts) b cs) !! cellKey c = Some (length (bNodes b) + k)) /\
  (forall s, (forall c, c ∈ cs -> cellKey c <> s) ->
     bGraph (foldl (tileOf ts) b cs) !! s = bGraph b !! s) /\
  size (bGraph (foldl (tileOf ts) b cs)) = size (bGraph b) + length cs.
Proof.
  induction cs as [|c cs IH]; intros b Hnd Hfresh; simpl.
  { split; [by rewrite app_nil_r|]. split; [done|]. split; [done|lia]. }
  apply NoDup_cons in Hnd as [Hc Hnd].
  assert (Hne : forall c', c' ∈ cs -> cellKey c' <> cellKey c).
  { intros c' Hin Heq. apply Hc. rewrite <- Heq. by apply list_elem_of_fmap_2. }
  destruct (IH (tileOf ts b c) Hnd) as (Hn & Hl & Ho & Hs).
  { intros c' Hin. simpl. rewrite lookup_insert_ne.
    - apply Hfresh. by right.
    - intros Heq. by apply (Hne c' Hin). }
  split; [|split; [|split]].
  - rewrite Hn. simpl. by rewrite <- app_assoc.
  - intros [|k] c' Hk; simpl in Hk.
    + injection Hk as <-. rewrite Ho by done. simpl.
      rewrite lookup_insert_eq. f_equal. lia.
    + rewrite (Hl k c' Hk). simpl. rewrite length_app. simpl. f_equal. lia.
  - intros s Hs'. rewrite Ho.
    + simpl. apply lookup_insert_ne. apply Hs'. by left.
    + intros c' Hin. apply Hs'. by right.
  - rewrite Hs. simpl. rewrite map_size_insert_None; [lia|].
    apply Hfresh. by left.
Qed.

(** ** Connecting the nodes *)

Definition connectOf (g : gmap string nat) (h : list Node) (c : nat * nat * ascii)
  : list Node :=
  connectTile g c.1.1 c.1.2 h.

Lemma connectRow_cells g i row : forall j h,
  connectRow g i j row h = foldl (connectOf g) h (rowCells i j row).
Proof. induction row as [|c row IH]; intros j h; simpl; [done|]. by rewrite IH. Qed.

Lemma connectRows_cells g rows : forall i h,
  connectRows g i rows h = foldl (connectOf g) h (gridCells i rows).
Proof.
  induction rows as [|row rows IH]; intros i h; simpl; [done|].
  by rewrite IH, connectRow_cells, foldl_app.
Qed.

(** The node of a tile after its neighbours were pushed. *)
Definition connected (g : gmap string nat) (c : nat * nat * ascii) (nd : Node) : Node :=
  foldl (fun nd n => push_neighbour n nd) nd
        (omap (fun k => g !! k) (neighbourKeys (Z.of_nat c.1.2) (Z.of_nat c.1.1))).

Lemma push_all_alter r ns : forall (h : list Node),
  foldl (fun h n => alter (push_neighbour n) r h) h ns =
  alter (fun nd => foldl (fun nd n => push_neighbour n nd) nd ns) r h.
Proof.
  induction ns as [|n ns IH]; intros h; simpl.
  - symmetry. by apply list_alter_id.
  - rewrite IH. by rewrite list_alter_alter_eq.
Qed.

Lemma connect_cells g cs : forall k0 (h : list Node),
  (forall k c, cs !! k = Some c -> g !! cellKey c = Some (k0 + k)) ->
  length (foldl (connectOf g) h cs) = length h /\
  (forall k c, cs !! k = Some c ->
     foldl (connectOf g) h cs !! (k0 + k) = connected g c <$> h !! (k0 + k)) /\
  (forall r, r < k0 \/ k0 + length cs <= r ->
     foldl (connectOf g) h cs !! r = h !! r).
Proof.
  induction cs as [|c cs IH]; intros k0 h Hg; simpl.
  { split; [done|]. split; [done|done]. }
  assert (Hc : connectOf g h c = alter (connected g c) k0 h).
  { unfold connectOf, connectTile. fold (cellKey c).
    rewrite (Hg 0 c eq_refl), Nat.add_0_r. apply push_all_alter. }
  rewrite Hc.
  destruct (IH (S k0) (alter (connected g c) k0 h)) as (Hl & Hk & Ho).
  { intros k c' Hk. rewrite (Hg (S k) c' Hk). f_equal. lia. }
  split; [|split].
  - by rewrite Hl, length_alter.
  - intros [|k] c' Hk'; simpl in Hk'.
    + injection Hk' as <-. rewrite Nat.add_0_r.
      rewrite Ho by lia. apply list_lookup_alter_eq.
    + replace (k0 + S k) with (S k0 + k) by lia.
      rewrite (Hk k c' Hk'). by rewrite list_lookup_alter_ne by lia.
  - intros r Hr. rewrite Ho by lia. apply list_lookup_alter_ne. lia.
Qed.

Lemma connected_fields g c nd :
  isPassable (connected g c nd) = isPassable nd /\
  x (connected g c nd) = x nd /\ y (connected g c nd) = y nd /\
  neighbours (connected g c nd) =
    neighbours nd ++
    omap (fun k => g !! k) (neighbourKeys (Z.of_nat c.1.2) (Z.of_nat c.1.1)).
Proof.
  unfold connected.
  generalize (omap (fun k => g !! k) (neighbourKeys (Z.of_nat c.1.2) (Z.of_nat c.1.1))).
  intros ns. revert nd. induction ns as [|n ns IH]; intros nd; simpl.
  - by rewrite app_nil_r.
  - destruct (IH (push_neighbour n nd)) as (H1 & H2 & H3 & H4).
    rewrite H1, H2, H3, H4. simpl. by rewrite <- app_assoc.
Qed.

(** ** Rectangular grids *)

Definition rectangular (width : nat) (rows : list string) : Prop :=
  Forall (fun row => String.length row = width) rows.

(** Some row is not as long as the first one. *)
Definition irregular (rows : list string) : Prop :=
  exists row, row ∈ rows /\ String.length row <> String.length (default "" (head rows)).

Fixpoint count_char (c : ascii) (s : string) : nat :=
  match s with
  | EmptyString => 0
  | String a s' => (if Ascii.eqb a c then 1 else 0) + count_char c s'
  end.

(** Number of tiles of the grid that hold the character [c]. *)
Definition occurrences (c : ascii) (rows : list string) : nat :=
  sum_list_with (count_char c) rows.

Lemma get_Some_lt row : forall n c, String.get n row = Some c -> n < String.length row.
Proof.
  induction row as [|a row IH]; intros [|n] c; simpl; try done; [lia|].
  intros H. apply IH in H. lia.
Qed.

Lemma rowCells_length i row : forall j, length (rowCells i j row) = String.length row.
Proof. induction row as [|a row IH]; intros j; simpl; [done|]. by rewrite IH. Qed.

Lemma rowCells_lookup i row : forall j n c,
  String.get n row = Some c -> rowCells i j row !! n = Some (i, j + n, c).
Proof.
  induction row as [|a row IH]; intros j [|n] c; simpl; try done.
  - intros [= ->]. by rewrite Nat.add_0_r.
  - intros H. rewrite (IH (S j) n c H). do 2 f_equal. f_equal. lia.
Qed.

Lemma gridCells_length width rows : forall i,
  rectangular width rows -> length (gridCells i rows) = length rows * width.
Proof.
  induction rows as [|row rows IH]; intros i Hr; simpl; [done|].
  apply Forall_cons in Hr as [Hrow Hr].
  by rewrite length_app, rowCells_length, IH, Hrow.
Qed.

Lemma gridCells_lookup width rows : forall i0 a j row c,
  rectangular width rows -> rows !! a = Some row -> String.get j row = Some c ->
  gridCells i0 rows !! (a * width + j) = Some (i0 + a, j, c).
Proof.
  induction rows as [|row0 rows IH]; intros i0 a j row c Hr Ha Hj; [done|].
  apply Forall_cons in Hr as [Hrow Hr]. simpl.
  destruct a as [|a]; simpl in Ha.
  - injection Ha as ->. simpl.
    rewrite lookup_app_l by (rewrite rowCells_length; by eapply get_Some_lt).
    rewrite (rowCells_lookup i0 row 0 j c Hj). by rewrite Nat.add_0_r.
  - rewrite lookup_app_r by (rewrite rowCells_length; simpl; lia).
    rewrite rowCells_length, Hrow.
    replace (S a * width + j - width) with (a * width + j) by (simpl; lia).
    rewrite (IH (S i0) a j row c Hr Ha Hj). do 2 f_equal. f_equal. lia.
Qed.

(** ** The start node *)

Lemma processTile_start ts c x y e p :
  Entities.startNode (processTileCharacter ts c x y e p).1 = Entities.startNode e.
Proof.
  unfold processTileCharacter.
  repeat (match goal with |- context [if ?b then _ else _] => destruct b end; [done|]).
  done.
Qed.

Lemma tile_start ts b c :
  Entities.startNode (bEntities (tileOf ts b c)) =
  if Ascii.eqb c.2 "S" then Some (length (bNodes b))
  else Entities.startNode (bEntities b).
Proof.
  unfold tileOf, createTile. simpl.
  destruct (Ascii.eqb c.2 "S"); [done|]. apply processTile_start.
Qed.

Lemma fold_start ts cs : forall b,
  is_Some (Entities.startNode (bEntities b)) \/
    (exists c, c ∈ cs /\ Ascii.eqb c.2 "S" = true) ->
  is_Some (Entities.startNode (bEntities (foldl (tileOf ts) b cs))).
Proof.
  induction cs as [|c cs IH]; intros b H; simpl.
  - destruct H as [H|(c & Hin & _)]; [done|]. by apply elem_of_nil in Hin.
  - apply IH. rewrite tile_start.
    destruct (Ascii.eqb c.2 "S") eqn:E; [left; eauto|].
    destruct H as [H|(c' & Hin & Hc')]; [by left|].
    apply elem_of_cons in Hin as [->|Hin]; [congruence|].
    right. eauto.
Qed.

Lemma count_char_cell a i row : forall j,
  1 <= count_char a row ->
  exists c, c ∈ rowCells i j row /\ Ascii.eqb c.2 a = true.
Proof.
  induction row as [|b row IH]; intros j; simpl; [lia|].
  destruct (Ascii.eqb b a) eqn:E.
  - intros _. exists (i, j, b). split; [by left|done].
  - intros H. destruct (IH (S j)) as (c & Hin & Hc); [lia|].
    exists c. split; [by right|done].
Qed.

Lemma occurrences_cell a rows : forall i,
  1 <= occurrences a rows ->
  exists c, c ∈ gridCells i rows /\ Ascii.eqb c.2 a = true.
Proof.
  induction rows as [|row rows IH]; intros i; unfold occurrences; simpl; [lia|].
  intros H. destruct (decide (1 <= count_char a row)) as [Hrow|Hrow].
  - destruct (count_char_cell a i row 0 Hrow) as (c & Hin & Hc).
    exists c. split; [|done]. apply elem_of_app. by left.
  - destruct (IH (S i)) as (c & Hin & Hc); [unfold occurrences; lia|].
    exists c. split; [|done]. apply elem_of_app. by right.
Qed.

(** ** The dimension check *)

Lemma validate_rectangular width rows :
  rectangular width rows -> 3 <= length rows -> 3 <= width ->
  validateLevelDimensions rows = Done tt.
Proof.
  intros Hr Hh Hw. unfold validateLevelDimensions.
  destruct rows as [|row rows]; [simpl in Hh; lia|].
  apply Forall_cons in Hr as [Hrow Hr]. simpl.
  rewrite Hrow.
  assert (forallb (fun row0 => Nat.eqb (String.length row0) width) rows = true) as ->.
  { apply forallb_forall. intros r Hin. apply Nat.eqb_eq.
    rewrite Forall_forall in Hr. apply Hr. by apply list_elem_of_In. }
  rewrite bool_decide_eq_false_2; [done|]. simpl in Hh. lia.
Qed.

Lemma validate_irregular rows :
  irregular rows -> validateLevelDimensions rows = Throw (GameError LevelLoadError).
Proof.
  intros (row & Hin & Hne). unfold validateLevelDimensions.
  destruct (forallb _ (tail rows)) eqn:E; [|done].
  exfalso. destruct rows as [|row0 rows]; [by apply elem_of_nil in Hin|].
  simpl in *. apply elem_of_cons in Hin as [->|Hin]; [done|].
  rewrite forallb_forall in E. apply list_elem_of_In in Hin.
  apply E in Hin. by apply Nat.eqb_eq in Hin.
Qed.

Lemma newLevelLoader_cases data canvasWidth :
  newLevelLoader data canvasWidth = Throw (GameError LevelLoadError) \/
  exists ts, newLevelLoader data canvasWidth = Done (mkLoader data ts).
Proof.
  unfold newLevelLoader. destruct (String.eqb data ""); [by left|].
  case_bool_decide; [by left|]. right. eauto.
Qed.

Lemma newLevelLoader_rectangular data canvasWidth width :
  rectangular width (split data) -> 3 <= length (split data) -> 3 <= width ->
  newLevelLoader data canvasWidth =
  Done (mkLoader data (canvasWidth / Float64.of_nat width)%float).
Proof.
  intros Hr Hh Hw. unfold newLevelLoader.
  destruct (String.eqb data "") eqn:E.
  { apply String.eqb_eq in E. subst data. simpl in Hh. lia. }
  destruct (split data) as [|row rows]; [simpl in Hh; lia|].
  apply Forall_cons in Hr as [Hrow _]. simpl. rewrite Hrow.
  rewrite bool_decide_eq_false_2 by lia. done.
Qed.

(** What [buildLevel] does on a grid, for any loader holding the text. *)
Lemma buildLevel_rectangular (data : string) (ts : PrimFloat.float) (pacman : Pacman) width :
  rectangular width (split data) -> 3 <= length (split data) -> 3 <= width ->
  occurrences "S" (split data) = 1 ->
  exists lv pac,
    buildLevel (mkLoader data ts) pacman = Done (lv, pac) /\
    size (graph lv) = length (split data) * width /\
    length (nodes lv) = length (split data) * width /\
    forall i j row c,
      split data !! i = Some row -> String.get j row = Some c ->
      exists r nd,
        graph lv !! key (Z.of_nat j) (Z.of_nat i) = Some r /\
        nodes lv !! r = Some nd /\
        x nd = Z.of_nat j /\ y nd = Z.of_nat i /\
        isPassable nd = negb (Ascii.eqb c "#").
Proof.
  intros Hrect Hh Hw Hs.
  unfold buildLevel. simpl.
  rewrite (validate_rectangular width _ Hrect Hh Hw). simpl.
  unfold createGraphAndEntities, connectNodes.
  rewrite createRows_cells, connectRows_cells.
  set (cs := gridCells 0 (split data)).
  set (b0 := mkBuild [] ∅ noEntities pacman).
  destruct (create_cells ts cs b0) as (Hn & Hl & Ho & Hsz).
  { apply gridCells_NoDup. }
  { intros c _. apply lookup_empty. }
  simpl in Hn, Hl, Hsz.
  destruct (fold_start ts cs b0) as [start Hstart].
  { right. apply occurrences_cell. lia. }
  rewrite Hstart.
  destruct (connect_cells (bGraph (foldl (tileOf ts) b0 cs)) cs 0
              (bNodes (foldl (tileOf ts) b0 cs))) as (Hcl & Hck & _).
  { intros k c Hk. by apply Hl. }
  eexists _, _. split; [reflexivity|]. simpl.
  pose proof (gridCells_length width (split data) 0 Hrect) as Hlen. fold cs in Hlen.
  split; [rewrite Hsz, map_size_empty; lia|].
  split; [rewrite Hcl, Hn, length_fmap; lia|].
  intros i j row c Hi Hj.
  pose proof (gridCells_lookup width (split data) 0 i j row c Hrect Hi Hj) as Hcell.
  fold cs in Hcell. simpl in Hcell.
  exists (i * width + j), (connected (bGraph (foldl (tileOf ts) b0 cs)) (i, j, c)
                             (cellNode (i, j, c))).
  split; [apply (Hl _ _ Hcell)|].
  split.
  - pose proof (Hck _ _ Hcell) as Hk'. simpl in Hk'. rewrite Hk', Hn.
    by rewrite list_lookup_fmap, Hcell.
  - destruct (connected_fields (bGraph (foldl (tileOf ts) b0 cs)) (i, j, c)
                (cellNode (i, j, c))) as (H1 & H2 & H3 & _).
    rewrite H1, H2, H3. done.
Qed.

(** C2.  A level whose rows all have the same length, with at least three
    rows and three columns and exactly one [S], is loaded: the graph has one
    node per tile, rows times columns in all, each found under the key of
    its coordinates with these coordinates and passable unless the tile is a
    wall.  When some row has another length than the first, loading throws
    a level-load error and returns no level. *)
Theorem buildLevel_grid (data : string) (canvasWidth : PrimFloat.float) (pacman : Pacman) :
  (forall width,
     rectangular width (split data) -> 3 <= length (split data) -> 3 <= width ->
     occurrences "S" (split data) = 1 ->
     exists lv pac,
       loadLevel data canvasWidth pacman = Done (lv, pac) /\
       size (graph lv) = length (split data) * width /\
       length (nodes lv) = length (split data) * width /\
       forall i j row c,
         split data !! i = Some row -> String.get j row = Some c ->
         exists r nd,
           graph lv !! key (Z.of_nat j) (Z.of_nat i) = Some r /\
           nodes lv !! r = Some nd /\
           x nd = Z.of_nat j /\ y nd = Z.of_nat i /\
           isPassable nd = negb (Ascii.eqb c "#")) /\
  (irregular (split data) ->
     loadLevel data canvasWidth pacman = Throw (GameError LevelLoadError) /\
     forall ts, buildLevel (mkLoader data ts) pacman = Throw (GameError LevelLoadError)).
Proof.
  split.
  - intros width Hrect Hh Hw Hs. unfold loadLevel.
    rewrite (newLevelLoader_rectangular data canvasWidth width Hrect Hh Hw).
    by apply buildLevel_rectangular.
  - intros Hirr.
    assert (Hb : forall ts, buildLevel (mkLoader data ts) pacman =
                            Throw (GameError LevelLoadError)).
    { intros ts. unfold buildLevel. simpl. by rewrite (validate_irregular _ Hirr). }
    split; [|done]. unfold loadLevel.
    destruct (newLevelLoader_cases data canvasWidth) as [->|[ts ->]]; [done|].
    apply Hb.
Qed.

(** The rows of a level joined by line feeds. *)
Definition joinRows (rows : list string) : string :=
  String.concat (String newline EmptyString) rows.

(** ** The random point *)

(** Every reference of the graph points into the heap of the level. *)
Definition graph_valid (lv : Level) : Prop :=
  map_Forall (fun _ n => n < length (nodes lv)) (graph lv).

(** The result is a passable node of the graph. *)
Definition passable_node (lv : Level) (res : Outcome nat) : Prop :=
  exists n nd k, res = Done n /\ graph lv !! k = Some n /\
                 nodes lv !! n = Some nd /\ isPassable nd = true.

Lemma randomPointLoop_bounded lv maxX maxY fuel : forall attempts r,
  graph_valid lv -> attempts < maxAttempts -> maxAttempts - attempts <= fuel ->
  (passable_node lv (randomPointLoop fuel lv maxX maxY attempts r).1 \/
   (randomPointLoop fuel lv maxX maxY attempts r).1 = Throw (GameError PathfindingError)) /\
  drawn (randomPointLoop fuel lv maxX maxY attempts r).2
    <= drawn r + 2 * (maxAttempts - attempts) /\
  draws (randomPointLoop fuel lv maxX maxY attempts r).2 = draws r.
Proof.
  intros attempts r Hv. revert attempts r.
  induction fuel as [|f IH]; intros attempts r Ha Hf; [lia|].
  cbn [randomPointLoop random]. cbv zeta.
  set (r2 := mkRng (draws (mkRng (draws r) (S (drawn r)))) (S (drawn (mkRng (draws r) (S (drawn r)))))).
  assert (Hd : drawn r2 = S (S (drawn r)) /\ draws r2 = draws r) by done.
  destruct Hd as [Hd1 Hd2].
  case_bool_decide as Hcap.
  { cbn [fst snd]. split; [by right|]. split; [lia|done]. }
  assert (Hrec : forall res, res = randomPointLoop f lv maxX maxY (S attempts) r2 ->
    (passable_node lv res.1 \/ res.1 = Throw (GameError PathfindingError)) /\
    drawn res.2 <= drawn r + 2 * (maxAttempts - attempts) /\ draws res.2 = draws r).
  { intros res ->. destruct (IH (S attempts) r2) as (H1 & H2 & H3); [lia|lia|].
    split; [done|]. split; [lia|congruence]. }
  destruct (getNode lv _ _) as [n|] eqn:Hn; [|by apply Hrec].
  unfold getNode in Hn.
  destruct (lookup_lt_is_Some_2 (nodes lv) n (Hv _ _ Hn)) as [nd Hnd].
  rewrite Hnd. destruct (isPassable nd) eqn:Hp; [|by apply Hrec].
  cbn [fst snd]. split; [|split; [lia|done]].
  left. exists n, nd. eauto.
Qed.

Lemma split_length s : 0 < length (split s).
Proof.
  destruct s as [|c s]; simpl; [lia|].
  destruct (Ascii.eqb c newline); simpl; [lia|].
  destruct (split s); simpl; lia.
Qed.

(** C9.  On a level whose grid data has a first row that is not empty, and
    whose graph points into its heap, [getRandomPoint] returns a passable
    node of the graph or throws a pathfinding error; it makes at most 100
    attempts of two draws each, and the fuel of the loop is never exhausted
    once it is at least that cap, whatever the level holds. *)
Theorem getRandomPoint_bounded (lv : Level) (r : Rng) (fuel : nat) :
  graph_valid lv ->
  String.length (default "" (head (split (levelData lv)))) <> 0 ->
  maxAttempts <= fuel ->
  (passable_node lv (getRandomPoint fuel lv r).1 \/
   (getRandomPoint fuel lv r).1 = Throw (GameError PathfindingError)) /\
  drawn (getRandomPoint fuel lv r).2 <= drawn r + 2 * maxAttempts /\
  draws (getRandomPoint fuel lv r).2 = draws r.
Proof.
  intros Hv Hx Hf. unfold getRandomPoint.
  rewrite bool_decide_eq_false_2.
  - destruct (randomPointLoop_bounded lv
                (String.length (default "" (head (split (levelData lv)))))
                (length (split (levelData lv))) fuel 0 r Hv) as (H1 & H2 & H3).
    + unfold maxAttempts. lia.
    + lia.
    + split; [done|]. split; [lia|done].
  - intros [H|H]; [done|]. pose proof (split_length (levelData lv)). lia.
Qed.

(** A level of walls only: no passable cell. *)
Definition walls3x3 : string := joinRows ["###"; "###"; "###"].

(** Every draw is one half. *)
Definition halves : Rng := mkRng (fun _ => 0.5%float) 0.

(** The graph of the walls-only level as the loader's two passes build it;
    [buildLevel] itself rejects the level, which has no start. *)
Definition wallsLevel : Level :=
  let b := createGraphAndEntities 30 (split walls3x3)
             (mkPacman (Wall.mkCircle 0 0 10) (MovementComponent.newMovement 3)) in
  mkLevel walls3x3 (bGraph b) (connectNodes (bGraph b) (split walls3x3) (bNodes b))
          0 30 (bEntities b).

Lemma getRandomPoint_bounded_witness :
  (passable_node wallsLevel (getRandomPoint 100 wallsLevel halves).1 \/
   (getRandomPoint 100 wallsLevel halves).1 = Throw (GameError PathfindingError)) /\
  drawn (getRandomPoint 100 wallsLevel halves).2 <= drawn halves + 2 * maxAttempts /\
  draws (getRandomPoint 100 wallsLevel halves).2 = draws halves.
Proof.
  apply (getRandomPoint_bounded wallsLevel halves 100).
  - apply (bool_decide_unpack _). vm_compute. exact I.
  - vm_compute. discriminate.
  - unfold maxAttempts. lia.
Defined.

(** Without a passable cell the hundredth attempt throws, after 200 draws. *)
Example no_passable_cell :
  (getRandomPoint 100 wallsLevel halves).1 = Throw (GameError PathfindingError) /\
  drawn (getRandomPoint 100 wallsLevel halves).2 = 200.
Proof. split; vm_compute; reflexivity. Qed.

(** The 5x5 level of the end-to-end scenario. *)
Definition level5x5 : string :=
  joinRows ["#####"; "#S..#"; "#.#.#"; "#..G#"; "#####"].

Definition pacman0 : Pacman :=
  mkPacman (Wall.mkCircle 0 0 10) (MovementComponent.newMovement 3).

Lemma buildLevel_grid_witness :
  exists lv pac,
    loadLevel level5x5 150 pacman0 = Done (lv, pac) /\
    size (graph lv) = length (split level5x5) * 5 /\
    length (nodes lv) = length (split level5x5) * 5 /\
    forall i j row c,
      split level5x5 !! i = Some row -> String.get j row = Some c ->
      exists r nd,
        graph lv !! key (Z.of_nat j) (Z.of_nat i) = Some r /\
        nodes lv !! r = Some nd /\
        x nd = Z.of_nat j /\ y nd = Z.of_nat i /\
        isPassable nd = negb (Ascii.eqb c "#").
Proof.
  apply (proj1 (buildLevel_grid level5x5 150 pacman0) 5).
  - vm_compute. repeat constructor.
  - vm_compute. lia.
  - lia.
  - vm_compute. reflexivity.
Defined.

(** The level without walls used in the path search: its nodes are those of
    [PathFinderProofs.open3x3]. *)
Example open3x3_built :
  exists lv pac,
    buildLevel (mkLoader (joinRows ["S.."; "..."; "..."]) 30) pacman0 = Done (lv, pac) /\
    nodes lv = PathFinderProofs.open3x3.
Proof. eexists _, _. split; vm_compute; reflexivity. Qed.

(** The end-to-end scenario: the 5x5 level is built with its start node at
    (1, 1) and one ghost, whose tile is (3, 3); the path from the start to
    the ghost's node begins and ends at these two nodes. *)
Definition scenario5x5 : option (option nat * nat * option nat * list nat) :=
  match buildLevel (mkLoader level5x5 30) pacman0 with
  | Done (lv, _) =>
      match PathFinder.constructPathBFS 64 (startNode lv) 18 (nodes lv) with
      | Done (_, p) =>
          Some (graph lv !! key 1 1, length (ghosts (entities lv)),
                graph lv !! key 3 3, p)
      | _ => None
      end
  | _ => None
  end.

Example scenario5x5_run :
  scenario5x5 = Some (Some 6, 1, Some 18, [6; 11; 16; 17; 18]).
Proof. vm_compute. reflexivity. Qed.

(** ** The order of the neighbours in a built level *)

Lemma validate_Done rows :
  validateLevelDimensions rows = Done tt ->
  rectangular (String.length (default "" (head rows))) rows.
Proof.
  unfold validateLevelDimensions.
  destruct (forallb _ (tail rows)) eqn:E; [|done]. intros _.
  destruct rows as [|row rows]; [constructor|]. simpl in *.
  constructor; [done|]. apply Forall_forall. intros r Hin.
  rewrite forallb_forall in E. apply Nat.eqb_eq, E. by apply list_elem_of_In.
Qed.

(** In a level that [buildLevel] returns, the node of every tile holds, in
    this order, the nodes found under the keys of the tiles above, to the
    left, to the right and below. *)
Lemma built_neighbours data ts pacman lv pac :
  buildLevel (mkLoader data ts) pacman = Done (lv, pac) ->
  forall i j row c,
    split data !! i = Some row -> String.get j row = Some c ->
    exists r nd,
      graph lv !! key (Z.of_nat j) (Z.of_nat i) = Some r /\
      nodes lv !! r = Some nd /\
      neighbours nd =
        omap (fun k => graph lv !! k) (neighbourKeys (Z.of_nat j) (Z.of_nat i)).
Proof.
  unfold buildLevel. simpl.
  destruct (validateLevelDimensions (split data)) as [[]| |] eqn:Hval; simpl; [|done|done].
  apply validate_Done in Hval.
  unfold createGraphAndEntities, connectNodes.
  rewrite createRows_cells, connectRows_cells.
  set (cs := gridCells 0 (split data)).
  set (b0 := mkBuild [] ∅ noEntities pacman).
  destruct (create_cells ts cs b0) as (Hn & Hl & Ho & Hsz).
  { apply gridCells_NoDup. }
  { intros c _. apply lookup_empty. }
  simpl in Hn, Hl.
  destruct (Entities.startNode _) as [start|]; [|done].
  intros [= <- <-] i j row c Hi Hj. simpl.
  destruct (connect_cells (bGraph (foldl (tileOf ts) b0 cs)) cs 0
              (bNodes (foldl (tileOf ts) b0 cs))) as (Hcl & Hck & _).
  { intros k c' Hk. by apply Hl. }
  pose proof (gridCells_lookup _ (split data) 0 i j row c Hval Hi Hj) as Hcell.
  fold cs in Hcell. simpl in Hcell.
  eexists _, _. split; [apply (Hl _ _ Hcell)|].
  split.
  - pose proof (Hck _ _ Hcell) as Hk'. simpl in Hk'. rewrite Hk', Hn.
    by rewrite list_lookup_fmap, Hcell.
  - by destruct (connected_fields (bGraph (foldl (tileOf ts) b0 cs)) (i, j, c)
                   (cellNode (i, j, c))) as (_ & _ & _ & ->).
Qed.

End LevelProofs.

(* ===================================================================== *)
(** * Properties of the ghost behaviours *)
(* ===================================================================== *)

Module GhostBehaviorProofs.
Import Graph GhostBehavior.

(** Whether a reference points to a passable node. *)
Definition passableIn (h : list Node) (n : nat) : bool :=
  match h !! n with
  | Some nd => isPassable nd
  | None => false
  end.

Lemma filterPassable_filter (h : list Node) ns :
  Forall (fun n => n < length h) ns ->
  filterPassable h ns = Done (filter (fun n => passableIn h n = true) ns).
Proof.
  induction ns as [|n ns IH]; intros Hv; [done|].
  apply Forall_cons in Hv as [Hn Hv].
  destruct (lookup_lt_is_Some_2 h n Hn) as [nd Hnd].
  cbn [filterPassable]. unfold deref. rewrite Hnd. cbn [bind].
  rewrite (IH Hv). cbn [bind].
  rewrite filter_cons.
  destruct (decide (passableIn h n = true)) as [Hp|Hp];
    unfold passableIn in Hp; rewrite Hnd in Hp;
    destruct (isPassable nd); done.
Qed.

(** C10.  An ambusher that is not scared and within its chase radius of the
    player (Manhattan distance of the two nodes) heads for the first passable
    node of the player's [neighbours] array, and for the player's node when
    there is none; the destination and the supplier's state do not depend on
    the random-point supplier, which is not called.  In a level returned by
    [buildLevel] the [neighbours] array of a tile's node lists the nodes of
    the tiles above, left, right and below that exist, in this order. *)
Theorem ambusher_destination :
  (forall (W : Type) (h : list Node) (cur pac : nat) (chaseRadius : Q)
          (getRandomPoint : @Supplier W) (w : W) (nc np : Node),
     h !! cur = Some nc -> h !! pac = Some np ->
     Forall (fun n => n < length h) (neighbours np) ->
     (inject_Z (distanceBetween nc np) <= chaseRadius)%Q ->
     determineDestination (AmbusherBehavior chaseRadius) h cur pac false
                          getRandomPoint w =
     (Done (Some (default pac
                    (head (filter (fun n => passableIn h n = true) (neighbours np)))),
            AmbusherBehavior chaseRadius), w)) /\
  (forall data ts pacman lv pac,
     Level.buildLevel (Level.mkLoader data ts) pacman = Done (lv, pac) ->
     forall i j row c,
       Level.split data !! i = Some row -> String.get j row = Some c ->
       exists r nd,
         Level.graph lv !! Level.key (Z.of_nat j) (Z.of_nat i) = Some r /\
         Level.nodes lv !! r = Some nd /\
         neighbours nd =
           omap (fun k => Level.graph lv !! k)
                (Level.neighbourKeys (Z.of_nat j) (Z.of_nat i))).
Proof.
  split.
  - intros W h cur pac chaseRadius getRandomPoint w nc np Hc Hp Hv Hd.
    unfold determineDestination, deref. rewrite Hc, Hp.
    unfold withinRadius. apply Qle_bool_iff in Hd. rewrite Hd.
    rewrite (filterPassable_filter h _ Hv).
    by destruct (filter _ _).
  - apply LevelProofs.built_neighbours.
Qed.

(** The player on a tile with a wall above and a free tile to the right;
    the supplier counts its calls. *)
Definition besidePlayer : list Node :=
  [ mkNode true [1; 2] 1 1 None; mkNode false [0] 1 0 None;
    mkNode true [0] 2 1 None ].

Lemma ambusher_destination_witness :
  determineDestination (AmbusherBehavior 8%Q) besidePlayer 2 0 false
                       (fun w : nat => (Done 1, S w)) 0 =
  (Done (Some (default 0
                 (head (filter (fun n => passableIn besidePlayer n = true) [1; 2]))),
         AmbusherBehavior 8%Q), 0).
Proof.
  apply (proj1 ambusher_destination nat besidePlayer 2 0 8%Q
           (fun w : nat => (Done 1, S w)) 0
           (mkNode true [0] 2 1 None) (mkNode true [1; 2] 1 1 None)).
  - reflexivity.
  - reflexivity.
  - repeat constructor.
  - vm_compute. discriminate.
Defined.

End GhostBehaviorProofs.

(* ===================================================================== *)
(** * Properties of the pathfinding component *)
(* ===================================================================== *)

Module PathfindingComponentProofs.
Import PrimFloat.
Import Graph GhostBehavior PathfindingComponent.
Local Open Scope string_scope.
Local Open Scope list_scope.

(** The tick counter after an update. *)
Definition next_count (frequency : Q) (l : nat) : nat :=
  if Qle_bool frequency (inject_Z (Z.of_nat (S l))) then 0 else S l.

(** What [determineMovementDirection] does to the controller for a target
    node and a current node that differ. *)
Definition steer {C : Type} (moveInDirection : string -> C -> C)
    (target current : Node) (c : C) : C :=
  if negb (String.eqb (axisDirection target current) "NONE")
  then moveInDirection (axisDirection target current) c
  else c.

(** The component after a recomputing tick. *)
Definition recomputed (c : Component) (newPath : list nat) (dest target : option nat)
    (p : nat) : Component :=
  mkComponent newPath dest (Some p) target (updateFrequency c) 0.

Lemma succ_mod n k : 1 <= n ->
  S k mod n = if bool_decide (n <= S (k mod n)) then 0 else S (k mod n).
Proof.
  intros Hn. pose proof (Nat.mod_upper_bound k n ltac:(lia)) as Hlt.
  pose proof (Nat.div_mod_eq k n) as Hk.
  case_bool_decide as Hc.
  - symmetry. apply (Nat.mod_unique (S k) n (S (k / n)) 0); [lia|nia].
  - symmetry. apply (Nat.mod_unique (S k) n (k / n) (S (k mod n))); [lia|lia].
Qed.

(** With an update frequency of [n] ticks the counter counts modulo [n]. *)
Lemma counter_period n k : 1 <= n ->
  Nat.iter k (next_count (inject_Z (Z.of_nat n))) 0 = k mod n.
Proof.
  intros Hn. induction k as [|k IH]; simpl.
  - symmetry. apply Nat.Div0.mod_0_l.
  - rewrite IH, succ_mod by done. unfold next_count.
    destruct (Qle_bool _ _) eqn:E.
    + apply Qle_bool_iff in E. rewrite <- Zle_Qle in E.
      rewrite bool_decide_eq_true_2; [done|lia].
    + rewrite bool_decide_eq_false_2; [done|].
      intros Hle. assert (Qle_bool (inject_Z (Z.of_nat n))
                            (inject_Z (Z.of_nat (S (k mod n)))) = true); [|congruence].
      apply Qle_bool_iff. rewrite <- Zle_Qle. lia.
Qed.

Lemma axisDirection_prefers_horizontal (target current : Node) :
  (x target <> x current ->
     axisDirection target current = "RIGHT" \/ axisDirection target current = "LEFT") /\
  (x target = x current -> y target <> y current ->
     axisDirection target current = "UP" \/ axisDirection target current = "DOWN").
Proof.
  unfold axisDirection. split.
  - intros Hx. destruct (x current <? x target)%Z eqn:E1; [by left|].
    destruct (x target <? x current)%Z eqn:E2; [by right|]. lia.
  - intros Hx Hy. rewrite Hx, Z.ltb_irrefl.
    destruct (y target <? y current)%Z eqn:E1; [by left|].
    destruct (y current <? y target)%Z eqn:E2; [by right|]. lia.
Qed.

Section Ticks.
Context {W C : Type}.
Variable moveInDirection : string -> C -> C.

Lemma update_unfold fuel getPoint (getRandomPoint : @Supplier W) px py pacmanPoint
    isScared (e : Env W C) p :
  getPoint px py = Done p ->
  update moveInDirection fuel getPoint getRandomPoint px py pacmanPoint isScared e =
  if recomputes (comp e) then
    updatePathfinding moveInDirection fuel getRandomPoint pacmanPoint isScared
      (mkEnv (heap e)
         (mkComponent (path (comp e)) (destination (comp e)) (Some p)
                      (currentTarget (comp e)) (updateFrequency (comp e)) 0)
         (behavior e) (controller e) (world e))
  else
    Done (mkEnv (heap e)
            (mkComponent (path (comp e)) (destination (comp e)) (Some p)
                         (currentTarget (comp e)) (updateFrequency (comp e))
                         (S (lastUpdate (comp e))))
            (behavior e) (controller e) (world e)).
Proof. intros Hp. unfold update. rewrite Hp. reflexivity. Qed.

(** The tick counter and the frequency through the steps of an update. *)
Definition clock (c : Component) : Q * nat := (updateFrequency c, lastUpdate c).

Lemma determineMovementDirection_comp (e e' : Env W C) :
  determineMovementDirection moveInDirection e = Done e' -> comp e' = comp e.
Proof.
  unfold determineMovementDirection.
  destruct (currentTarget (comp e)) as [t|]; [|by intros [= <-]].
  destruct (currentPoint (comp e)) as [q|]; [|by intros [= <-]].
  destruct (decide (t = q)); [by intros [= <-]|].
  destruct (deref (heap e) t); simpl; [|done|done].
  destruct (deref (heap e) q); simpl; [|done|done].
  destruct (negb _); by intros [= <-].
Qed.

Lemma moveToNextNode_clock (getRandomPoint : @Supplier W) (e e' : Env W C) :
  moveToNextNode moveInDirection getRandomPoint e = Done e' ->
  clock (comp e') = clock (comp e).
Proof.
  unfold moveToNextNode.
  destruct (currentPoint (comp e)) as [cp|]; [|by intros [= <-]].
  case_bool_decide.
  - intros H1. by rewrite (determineMovementDirection_comp _ _ H1).
  - destruct (getRandomPoint (world e)).1; simpl; [|done|done].
    intros H1. by rewrite (determineMovementDirection_comp _ _ H1).
Qed.

Lemma updatePathfinding_clock fuel (getRandomPoint : @Supplier W) pacmanPoint isScared
    (e e' : Env W C) :
  updatePathfinding moveInDirection fuel getRandomPoint pacmanPoint isScared e = Done e' ->
  clock (comp e') = clock (comp e).
Proof.
  unfold updatePathfinding.
  destruct (currentPoint (comp e)) as [cp|]; [|by intros [= <-]].
  destruct (determineDestination _ _ _ _ _ _ _).1 as [[d b']| |]; simpl; [|done|done].
  destruct d as [d|]; [|by intros [= <-]].
  destruct (PathFinder.constructPathBFS _ _ _ _) as [[h' np]| |]; simpl; [|done|done].
  intros H1. by rewrite (moveToNextNode_clock _ _ _ H1).
Qed.

(** C6, as amended.  A tick runs the path search only when the tick counter
    reaches the update frequency, which is 30 for a ghost and makes the
    counter count modulo the frequency.  On such a tick the second node of
    the new path becomes the immediate target and the controller is steered
    by axis comparison, horizontal first; when the new path has fewer than
    two nodes a random destination is requested in the same tick.  On every
    other tick only the current node and the counter change: the path, the
    target and the controller are left as they are. *)
Theorem update_throttled (fuel : nat)
    (getPoint : PrimFloat.float -> PrimFloat.float -> Outcome nat)
    (getRandomPoint : @Supplier W) (px py : PrimFloat.float) (pacmanPoint : nat)
    (isScared : bool) (e : Env W C) (p : nat) :
  getPoint px py = Done p ->
  (recomputes (comp e) = false ->
     update moveInDirection fuel getPoint getRandomPoint px py pacmanPoint isScared e =
     Done (mkEnv (heap e)
             (mkComponent (path (comp e)) (destination (comp e)) (Some p)
                          (currentTarget (comp e)) (updateFrequency (comp e))
                          (S (lastUpdate (comp e))))
             (behavior e) (controller e) (world e))) /\
  (recomputes (comp e) = true ->
     forall d b' w1 h' newPath,
       determineDestination (behavior e) (heap e) p pacmanPoint isScared
                            getRandomPoint (world e) = (Done (Some d, b'), w1) ->
       PathFinder.constructPathBFS fuel p d (heap e) = Done (h', newPath) ->
       (forall t tn pn,
          2 <= length newPath -> newPath !! 1 = Some t -> t <> p ->
          h' !! t = Some tn -> h' !! p = Some pn ->
          update moveInDirection fuel getPoint getRandomPoint px py pacmanPoint isScared e =
          Done (mkEnv h' (recomputed (comp e) newPath (Some d) (Some t) p) b'
                      (steer moveInDirection tn pn (controller e)) w1)) /\
       (forall rp w2,
          length newPath < 2 -> getRandomPoint w1 = (Done rp, w2) ->
          update moveInDirection fuel getPoint getRandomPoint px py pacmanPoint isScared e =
          Done (mkEnv h' (recomputed (comp e) newPath (Some rp) (Some p) p) b'
                      (controller e) w2))) /\
  (forall target current : Node,
     (x target <> x current ->
        axisDirection target current = "RIGHT" \/ axisDirection target current = "LEFT") /\
     (x target = x current -> y target <> y current ->
        axisDirection target current = "UP" \/ axisDirection target current = "DOWN")) /\
  (forall e',
     update moveInDirection fuel getPoint getRandomPoint px py pacmanPoint isScared e =
       Done e' ->
     updateFrequency (comp e') = updateFrequency (comp e) /\
     lastUpdate (comp e') = next_count (updateFrequency (comp e)) (lastUpdate (comp e))) /\
  (forall n k, 1 <= n ->
     Nat.iter k (next_count (inject_Z (Z.of_nat n))) 0 = k mod n) /\
  (forall gx gy gw gh col b,
     updateFrequency (Entities.pathfinding (Entities.newGhost gx gy gw gh col b)) = 30%Q).
Proof.
  intros Hp. rewrite (update_unfold fuel getPoint getRandomPoint px py pacmanPoint
                        isScared e p Hp).
  split; [by intros ->|]. split; [|split; [|split; [|split]]].
  - intros -> d b' w1 h' newPath Hd Hbfs.
    unfold updatePathfinding. cbn [comp currentPoint heap behavior world].
    rewrite Hd. cbn [fst snd bind]. rewrite Hbfs. cbn [fst snd bind].
    unfold moveToNextNode. cbn [comp currentPoint path].
    split.
    + intros t tn pn Hlen Ht Hne Htn Hpn.
      rewrite bool_decide_eq_true_2 by done.
      unfold determineMovementDirection.
      cbn [comp currentTarget currentPoint heap destination updateFrequency
           lastUpdate behavior controller world].
      rewrite Ht. rewrite decide_False by done.
      unfold deref. rewrite Htn, Hpn. cbn [bind].
      unfold steer, recomputed. by destruct (negb _).
    + intros rp w2 Hlen Hr.
      rewrite bool_decide_eq_false_2 by lia.
      cbn [comp currentTarget currentPoint heap destination updateFrequency
           lastUpdate behavior controller world path].
      rewrite Hr. cbn [fst snd bind].
      assert (Hhead : default p (head newPath) = p).
      { destruct newPath as [|a l]; [done|].
        unfold PathFinder.constructPathBFS in Hbfs.
        destruct (PathFinder.bfs_loop _ _ _ _ _) as [o n] eqn:Hl. simpl in Hbfs. subst o.
        by destruct (PathFinderProofs.loop_path_ends _ _ _ _ _ _ _ _ Hl) as [[= ->] _]. }
      rewrite Hhead. unfold determineMovementDirection.
      cbn [comp currentTarget currentPoint]. by rewrite decide_True.
  - apply axisDirection_prefers_horizontal.
  - intros e'. unfold next_count. fold (recomputes (comp e)).
    destruct (recomputes (comp e)).
    + intros H1. apply updatePathfinding_clock in H1. by injection H1.
    + by intros [= <-].
  - apply counter_period.
  - done.
Qed.

End Ticks.

(** ** A ghost on a corridor of three tiles *)

Definition corridor : list Node :=
  [ mkNode true [1] 0 0 None; mkNode true [0; 2] 1 0 None;
    mkNode true [1] 2 0 None ].

(** The controller records the directions it is asked to move in. *)
Definition recordMove (direction : string) (calls : list string) : list string :=
  calls ++ [direction].

(** The supplier counts its calls and always returns node 0. *)
Definition countingSupplier : @Supplier nat := fun w => (Done 0, S w).

(** The tile under a position, for tiles of width 30 on one row. *)
Definition corridorPoint (px py : PrimFloat.float) : Outcome nat :=
  Done (Z.to_nat (default 0%Z (Float64.floorZ (px / 30)%float))).

(** A chaser at the left end, with a fresh component at frequency 30 and
    the player at the right end, two tiles away. *)
Definition freshGhost : Env nat (list string) :=
  mkEnv corridor (newComponent defaultUpdateFrequency) (ChaserBehavior 5%Q) [] 0.

(** One update per position of the ghost. *)
Fixpoint run_ticks (positions : list PrimFloat.float) (e : Env nat (list string))
  : Outcome (Env nat (list string)) :=
  match positions with
  | [] => Done e
  | px :: positions' =>
      bind (update recordMove 16 corridorPoint countingSupplier px 15%float 2 false e)
           (run_ticks positions')
  end.

(** The path, the target, the tick counter and the controller's record. *)
Definition observe (o : Outcome (Env nat (list string)))
  : option (list nat * option nat * nat * list string) :=
  match o with
  | Done e => Some (path (comp e), currentTarget (comp e), lastUpdate (comp e),
                    controller e)
  | _ => None
  end.

Lemma update_throttled_witness :
  update recordMove 16 corridorPoint countingSupplier 15%float 15%float 2 false freshGhost =
  Done (mkEnv corridor (mkComponent [] None (Some 0) None 30%Q 1) (ChaserBehavior 5%Q) [] 0).
Proof.
  apply (proj1 (update_throttled recordMove 16 corridorPoint countingSupplier 15%float 15%float 2
                  false freshGhost 0 eq_refl)).
  reflexivity.
Defined.

(** C6 as stated fails.  A ghost that stays on the first tile searches on
    its 30th tick and is steered right, towards the second node of the path;
    on the 31st tick no direction is derived: the controller is not called.
    Nor is it when the ghost stands on the third tile on that tick, where the
    comparison with the target would say left. *)
Lemma no_direction_between_searches :
  observe (run_ticks (replicate 29 15%float) freshGhost) = Some ([], None, 29, []) /\
  observe (run_ticks (replicate 30 15%float) freshGhost) =
    Some ([0; 1; 2], Some 1, 0, ["RIGHT"]) /\
  observe (run_ticks (replicate 31 15%float) freshGhost) =
    Some ([0; 1; 2], Some 1, 1, ["RIGHT"]) /\
  observe (run_ticks (replicate 30 15%float ++ [75%float]) freshGhost) =
    Some ([0; 1; 2], Some 1, 1, ["RIGHT"]) /\
  axisDirection (mkNode true [0; 2] 1 0 None) (mkNode true [1] 2 0 None) = "LEFT".
Proof. repeat split; vm_compute; reflexivity. Qed.

End PathfindingComponentProofs.

(* ===================================================================== *)
(** * Soundness and completeness of the path search *)
(* ===================================================================== *)

Module PathFinderSoundness.
Import Graph PathFinder PathFinderProofs.

(** *** The queue after the [forEach] *)

Lemma expand_queue e V ns : forall (h : list Node) q h' q'',
  expand e V ns h q = Some (h', q'') ->
  (forall n, n ∈ q -> n ∈ q'') /\
  (forall n nd, n ∈ ns -> h !! n = Some nd -> isPassable nd = true ->
     n ∉ V -> n ∈ q'').
Proof.
  induction ns as [|m ns IH]; intros h q h' q''; simpl.
  - intros [= <- <-]. split; [done|]. intros n nd Hn. by apply elem_of_nil in Hn.
  - destruct (h !! m) as [md|] eqn:Hm; [|done].
    destruct (isPassable md && bool_decide (m ∉ V)) eqn:Hc; intros He.
    + destruct (IH _ _ _ _ He) as [Hq Hns]. split.
      * intros n Hn. apply Hq. by apply elem_of_cons; right.
      * intros n nd Hn Hl Hp HV. apply elem_of_cons in Hn as [->|Hn].
        -- apply Hq. by apply elem_of_cons; left.
        -- destruct (decide (n = m)) as [->|Hne].
           ++ apply Hq. by apply elem_of_cons; left.
           ++ eapply Hns; [done| |done|done].
              by rewrite list_lookup_insert_ne.
    + destruct (IH _ _ _ _ He) as [Hq Hns]. split; [done|].
      intros n nd Hn Hl Hp HV. apply elem_of_cons in Hn as [->|Hn].
      * rewrite Hm in Hl. injection Hl as ->. rewrite Hp in Hc. simpl in Hc.
        apply bool_decide_eq_false in Hc. by destruct Hc.
      * by eapply Hns.
Qed.

Lemma expand_frame e V ns : forall (h : list Node) q h' q'',
  expand e V ns h q = Some (h', q'') -> frame <$> h' = frame <$> h.
Proof.
  induction ns as [|m ns IH]; intros h q h' q''; simpl.
  - by intros [= <- <-].
  - destruct (h !! m) as [md|] eqn:Hm; [|done].
    destruct (isPassable md && bool_decide (m ∉ V)); intros He.
    + rewrite (IH _ _ _ _ He). rewrite list_fmap_insert.
      apply list_insert_id. by rewrite list_lookup_fmap, Hm.
    + by eapply IH.
Qed.

Lemma loop_frame fuel : forall from to s iters h' p n,
  bfs_loop fuel from to s iters = (Done (h', p), n) ->
  frame <$> h' = frame <$> heap s.
Proof.
  induction fuel as [|f IH]; intros from to s iters h' p n; [done|].
  simpl. destruct (pop (queue s)) as [[e q']|]; [|by intros [= <- <- <-]].
  destruct (decide (e = to)) as [->|Hne].
  - destruct (walk f (heap s) from to []) as [p'| |]; try done.
    by intros [= <- <- <-].
  - destruct (heap s !! e) as [nd|]; [|done].
    destruct (expand _ _ _ _ _) as [[h1 q1]|] eqn:He; [|done].
    intros Hl. apply IH in Hl. simpl in Hl. rewrite Hl. by eapply expand_frame.
Qed.

Lemma walk_is_path (h0 h : list Node) (V : gset nat) from :
  (forall v, v ∈ V -> v <> from ->
     exists nd p, h !! v = Some nd /\ prev nd = Some p /\ p ∈ V /\ edge h0 p v) ->
  forall fuel v acc p,
    v ∈ V -> is_path h0 (v :: reverse acc) ->
    walk fuel h from v acc = Done p -> is_path h0 p.
Proof.
  intros HV. induction fuel as [|f IH]; intros v acc p Hv Hacc; [done|].
  simpl. destruct (decide (v = from)) as [->|Hne].
  - intros [= <-]. by rewrite reverse_app.
  - destruct (HV v Hv Hne) as (nd & q & Hl & Hp & Hq & He).
    rewrite Hl, Hp. apply IH; [done|].
    rewrite reverse_app. simpl. done.
Qed.

Section Sound.
Variable h0 : list Node.
Variables from to : nat.
Hypothesis Hwf : well_formed h0.

(** What the loop maintains besides termination: the [prev] link of a
    visited node, and of a queued one that is not visited yet, is an edge
    from a visited node; the visited set is closed under edges up to the
    queue; [to] has not been visited. *)
Record Sound (s : BfsState) : Prop := {
  snd_graph : same_graph h0 (heap s);
  snd_visited : forall v, v ∈ visited s -> v <> from ->
      exists nd p, heap s !! v = Some nd /\ prev nd = Some p /\
                   p ∈ visited s /\ edge h0 p v;
  snd_queue : forall q, q ∈ queue s ->
      q = from \/ q ∈ visited s \/
      exists nd p, heap s !! q = Some nd /\ prev nd = Some p /\
                   p ∈ visited s /\ edge h0 p q;
  snd_closed : forall u v, u ∈ visited s -> edge h0 u v ->
      v ∈ visited s \/ v ∈ queue s;
  snd_start : from ∈ visited s \/ from ∈ queue s;
  snd_to : to ∉ visited s
}.

Lemma sound_initial : Sound (mkBfs h0 ∅ [from]).
Proof.
  split; simpl; try set_solver.
Qed.

Lemma sound_popped s e q' :
  Sound s -> queue s = q' ++ [e] ->
  forall v, v ∈ {[e]} ∪ visited s -> v <> from ->
    exists nd p, heap s !! v = Some nd /\ prev nd = Some p /\
                 p ∈ {[e]} ∪ visited s /\ edge h0 p v.
Proof.
  intros HS Hq v Hv Hne.
  assert (Hold : v ∈ visited s -> exists nd p, heap s !! v = Some nd /\
            prev nd = Some p /\ p ∈ {[e]} ∪ visited s /\ edge h0 p v).
  { intros Hin. destruct (snd_visited _ HS v Hin Hne) as (nd & p & H1 & H2 & H3 & H4).
    exists nd, p. repeat split; [done|done|set_solver|done]. }
  apply elem_of_union in Hv as [Hv|Hv]; [|by apply Hold].
  apply elem_of_singleton in Hv as ->.
  destruct (snd_queue _ HS e) as [Hf|[Hin|(nd & p & H1 & H2 & H3 & H4)]].
  - rewrite Hq. apply elem_of_snoc_last.
  - done.
  - by apply Hold.
  - exists nd, p. repeat split; [done|done|set_solver|done].
Qed.

Lemma sound_step s e q' nd h' q'' :
  Sound s -> queue s = q' ++ [e] -> e <> to -> heap s !! e = Some nd ->
  expand e ({[e]} ∪ visited s) (neighbours nd) (heap s) q' = Some (h', q'') ->
  Sound (mkBfs h' ({[e]} ∪ visited s) q'').
Proof.
  intros HS Hq Hne He Hex.
  pose proof (snd_graph _ HS) as Hsg.
  destruct (same_graph_lookup _ _ _ _ (same_graph_sym _ _ Hsg) He) as (nd0 & H0 & Hs0).
  injection Hs0 as Hp0 Hn0.
  assert (Hval : Forall (fun n => n < length (heap s)) (neighbours nd)).
  { rewrite <- Hn0. rewrite <- (same_graph_length _ _ Hsg).
    unfold well_formed in Hwf. rewrite Forall_forall in Hwf.
    apply Hwf. by eapply list_elem_of_lookup_2. }
  destruct (expand_spec e ({[e]} ∪ visited s) (neighbours nd) (heap s) q' Hval)
    as (h1 & news & Hex1 & _ & Hsg1 & Hnew & Hold).
  rewrite Hex in Hex1. injection Hex1 as <- ->.
  destruct (expand_queue _ _ _ _ _ _ _ Hex) as [Hkeep Hadd].
  set (V' := {[e]} ∪ visited s) in *.
  assert (Hedge : forall n, n ∈ news -> edge h0 e n).
  { intros n Hn. destruct (Hnew n Hn) as (Hin & _ & (ndn & Hln & Hpn) & _).
    destruct (same_graph_lookup _ _ _ _ (same_graph_sym _ _ Hsg) Hln) as (ndn0 & Hl0 & Hsn).
    injection Hsn as Hpn0 _.
    exists nd0, ndn0. rewrite Hn0. repeat split; [done|done|done|congruence]. }
  assert (Hfresh : forall r, r ∈ V' -> h' !! r = heap s !! r).
  { intros r Hr. apply Hold. intros Hrn. by destruct (Hnew r Hrn) as (_ & HrV & _). }
  split; simpl.
  - by eapply same_graph_trans.
  - intros v Hv Hvf. rewrite (Hfresh v Hv). by eapply sound_popped.
  - intros q Hqin.
    destruct (decide (q ∈ news)) as [Hn|Hn].
    + destruct (Hnew q Hn) as (_ & _ & _ & (nd' & Hl' & Hp')).
      right; right. exists nd', e. repeat split; [done|done|set_solver|by apply Hedge].
    + apply elem_of_app in Hqin as [Hqin|Hqin]; [done|].
      destruct (snd_queue _ HS q) as [Hf|[Hv|(ndq & p & Hl & Hp & HpV & Hpe)]].
      { rewrite Hq. by apply elem_of_snoc_init. }
      * by left.
      * right; left. set_solver.
      * right; right. exists ndq, p. rewrite (Hold q Hn).
        repeat split; [done|done|set_solver|done].
  - intros u v Hu Huv.
    destruct (decide (v ∈ V')) as [Hv|Hv]; [by left|right].
    apply elem_of_union in Hu as [Hu|Hu].
    + apply elem_of_singleton in Hu as ->.
      destruct Huv as (nu & nv & Hlu & Hin & Hlv & Hpv).
      rewrite H0 in Hlu. injection Hlu as <-.
      destruct (same_graph_lookup _ _ _ _ Hsg Hlv) as (nv' & Hlv' & Hsv).
      injection Hsv as Hpv' _.
      eapply Hadd; [by rewrite <- Hn0|done|congruence|done].
    + destruct (snd_closed _ HS u v Hu Huv) as [Hin|Hin]; [set_solver|].
      rewrite Hq in Hin. apply elem_of_app in Hin as [Hin|Hin].
      * by apply Hkeep.
      * apply list_elem_of_singleton in Hin as ->. set_solver.
  - destruct (snd_start _ HS) as [Hin|Hin]; [left; set_solver|].
    rewrite Hq in Hin. apply elem_of_app in Hin as [Hin|Hin].
    + right. by apply Hkeep.
    + apply list_elem_of_singleton in Hin as ->. left. set_solver.
  - pose proof (snd_to _ HS). set_solver.
Qed.

Lemma sound_closed s : Sound s -> queue s = [] ->
  forall v, reach h0 from v -> v ∈ visited s.
Proof.
  intros HS Hq v Hr. induction Hr as [|u v _ IH Huv].
  - destruct (snd_start _ HS) as [Hin|Hin]; [done|].
    rewrite Hq in Hin. by apply elem_of_nil in Hin.
  - destruct (snd_closed _ HS u v IH Huv) as [Hin|Hin]; [done|].
    rewrite Hq in Hin. by apply elem_of_nil in Hin.
Qed.

Lemma loop_sound fuel : forall s iters h' p n,
  Sound s -> bfs_loop fuel from to s iters = (Done (h', p), n) ->
  is_path h0 p /\ (reach h0 from to -> p <> []).
Proof.
  induction fuel as [|f IH]; intros s iters h' p n HS; [done|].
  simpl. destruct (pop (queue s)) as [[e q']|] eqn:Hpop.
  - apply pop_Some in Hpop.
    destruct (decide (e = to)) as [->|Hne].
    + destruct (walk f (heap s) from to []) as [p'| |] eqn:Hw; try done.
      intros [= <- <- <-]. split.
      * apply (walk_is_path h0 (heap s) ({[to]} ∪ visited s) from
                 (sound_popped _ _ _ HS Hpop) f to [] p');
          [set_solver|exact I|exact Hw].
      * intros _ Hnil. apply walk_shape in Hw as [Hh _].
        rewrite Hnil in Hh. discriminate Hh.
    + destruct (heap s !! e) as [nd|] eqn:He; [|done].
      destruct (expand _ _ _ _ _) as [[h1 q1]|] eqn:Hex; [|done].
      apply IH. by eapply sound_step.
  - intros [= <- <- <-]. split; [done|]. intros Hr _.
    apply pop_None in Hpop.
    by apply (snd_to _ HS), (sound_closed _ HS Hpop).
Qed.

End Sound.

(** X1.  On a heap with valid neighbour references the search returns a
    path every step of which goes from a node to one of its passable
    neighbours: the returned nodes are connected in the order given. *)
Theorem constructPathBFS_steps (h : list Node) (from to : nat) :
  well_formed h -> from < length h ->
  exists fuel0, forall fuel, fuel0 <= fuel ->
    exists h' p, constructPathBFS fuel from to h = Done (h', p) /\ is_path h p.
Proof.
  intros Hwf Hfrom. exists (2 * S (max_degree h) ^ length h + 2).
  intros fuel Hfuel.
  destruct (bfs_fuel_bound h from to fuel Hwf Hfrom Hfuel)
    as (h' & p & n & Hr & _ & _).
  exists h', p. unfold constructPathBFS. rewrite Hr. split; [done|].
  by destruct (loop_sound h from to Hwf fuel _ _ _ _ _ (sound_initial h from to Hwf) Hr).
Qed.

Lemma constructPathBFS_steps_witness :
  exists fuel0, forall fuel, fuel0 <= fuel ->
    exists h' p, constructPathBFS fuel 0 8 open3x3 = Done (h', p) /\ is_path open3x3 p.
Proof.
  apply (constructPathBFS_steps open3x3 0 8).
  - unfold well_formed, open3x3. repeat (constructor; simpl; try lia).
  - simpl. lia.
Defined.

(** X2.  When [to] is reachable from [from] through passable neighbours,
    the search finds it: the returned path is not empty, starts at [from]
    and ends at [to]. *)
Theorem constructPathBFS_complete (h : list Node) (from to : nat) :
  well_formed h -> from < length h -> reach h from to ->
  exists fuel0, forall fuel, fuel0 <= fuel ->
    exists h' p, constructPathBFS fuel from to h = Done (h', p) /\ p <> [] /\
                 head p = Some from /\ last p = Some to.
Proof.
  intros Hwf Hfrom Hreach. exists (2 * S (max_degree h) ^ length h + 2).
  intros fuel Hfuel.
  destruct (bfs_fuel_bound h from to fuel Hwf Hfrom Hfuel)
    as (h' & p & n & Hr & _ & _).
  exists h', p. unfold constructPathBFS. rewrite Hr. split; [done|].
  destruct (loop_sound h from to Hwf fuel _ _ _ _ _ (sound_initial h from to Hwf) Hr)
    as [_ Hne].
  split; [by apply Hne|]. eapply loop_path_ends; [exact Hr|by apply Hne].
Qed.

Lemma constructPathBFS_complete_witness :
  exists fuel0, forall fuel, fuel0 <= fuel ->
    exists h' p, constructPathBFS fuel 0 1 open3x3 = Done (h', p) /\ p <> [] /\
                 head p = Some 0 /\ last p = Some 1.
Proof.
  apply (constructPathBFS_complete open3x3 0 1).
  - unfold well_formed, open3x3. repeat (constructor; simpl; try lia).
  - simpl. lia.
  - eapply reach_step; [apply reach_refl|].
    exists (mkNode true [1; 3] 0 0 None), (mkNode true [0; 2; 4] 1 0 None).
    repeat split; [by apply elem_of_cons; left].
Defined.

(** X3.  The search writes [prev] fields only: passability, neighbours and
    coordinates of every node are the same after the search, so the heap it
    leaves is again one with valid neighbour references. *)
Theorem constructPathBFS_frame (h : list Node) (from to : nat) :
  well_formed h -> from < length h ->
  exists fuel0, forall fuel, fuel0 <= fuel ->
    exists h' p, constructPathBFS fuel from to h = Done (h', p) /\
                 frame <$> h' = frame <$> h /\ well_formed h'.
Proof.
  intros Hwf Hfrom. exists (2 * S (max_degree h) ^ length h + 2).
  intros fuel Hfuel.
  destruct (bfs_fuel_bound h from to fuel Hwf Hfrom Hfuel)
    as (h' & p & n & Hr & _ & _).
  exists h', p. unfold constructPathBFS. rewrite Hr. split; [done|].
  pose proof (loop_frame _ _ _ _ _ _ _ _ Hr) as Hf. simpl in Hf.
  split; [done|].
  unfold well_formed in *. rewrite Forall_forall in *.
  intros nd Hnd. apply list_elem_of_lookup in Hnd as [i Hi].
  assert (Hl : (frame <$> h') !! i = Some (frame nd)) by (by rewrite list_lookup_fmap, Hi).
  rewrite Hf, list_lookup_fmap in Hl.
  destruct (h !! i) as [nd0|] eqn:H0; [|done]. injection Hl as _ Hn _ _.
  apply (f_equal length) in Hf. rewrite !length_fmap in Hf. rewrite Hf, <- Hn.
  apply (Hwf nd0). by eapply list_elem_of_lookup_2.
Qed.

Lemma constructPathBFS_frame_witness :
  exists fuel0, forall fuel, fuel0 <= fuel ->
    exists h' p, constructPathBFS fuel 0 8 open3x3 = Done (h', p) /\
                 frame <$> h' = frame <$> open3x3 /\ well_formed h'.
Proof.
  apply (constructPathBFS_frame open3x3 0 8).
  - unfold well_formed, open3x3. repeat (constructor; simpl; try lia).
  - simpl. lia.
Defined.

Lemma frame_lookup (h1 h2 : list Node) r nd :
  frame <$> h1 = frame <$> h2 -> h1 !! r = Some nd ->
  exists nd', h2 !! r = Some nd' /\ frame nd' = frame nd.
Proof.
  intros E Hr. apply (f_equal (fun l => l !! r)) in E.
  rewrite !list_lookup_fmap, Hr in E. simpl in E.
  destruct (h2 !! r) as [nd'|]; [|done]. exists nd'. split; [done|].
  simpl in E. congruence.
Qed.

Lemma expand_stale e V ns : forall (h1 h2 : list Node) q h1' q',
  frame <$> h1 = frame <$> h2 ->
  expand e V ns h1 q = Some (h1', q') ->
  exists h2', expand e V ns h2 q = Some (h2', q') /\
    frame <$> h1' = frame <$> h2' /\
    (forall v, same_prev h1 h2 v -> same_prev h1' h2' v) /\
    (forall v, v ∈ q' -> v ∈ q \/ same_prev h1' h2' v).
Proof.
  induction ns as [|m ns IH]; intros h1 h2 q h1' q' Hf; simpl.
  - intros [= <- <-]. exists h2. repeat split; [done|done|]. intros v Hv. by left.
  - destruct (h1 !! m) as [md|] eqn:Hm; [|done].
    destruct (frame_lookup _ _ _ _ Hf Hm) as (md2 & Hm2 & Hfm).
    rewrite Hm2. injection Hfm as Hp _ _ _. rewrite Hp.
    destruct (isPassable md && bool_decide (m ∉ V)); intros He.
    + destruct (IH (<[m := set_prev e md]> h1) (<[m := set_prev e md2]> h2)
                   (m :: q) h1' q') as (h2' & He2 & Hf' & Hkeep & Hnew); [|done|].
      { rewrite !list_fmap_insert. rewrite Hf. f_equal.
        apply (f_equal (fun l => l !! m)) in Hf.
        rewrite !list_lookup_fmap, Hm, Hm2 in Hf. simpl in Hf.
        injection Hf as Hf. unfold frame in *. simpl. congruence. }
      assert (Hmm : same_prev (<[m := set_prev e md]> h1) (<[m := set_prev e md2]> h2) m).
      { unfold same_prev. rewrite !list_lookup_insert_eq; [done| |].
        - by eapply lookup_lt_Some.
        - by eapply lookup_lt_Some. }
      exists h2'. split; [done|]. split; [done|]. split.
      * intros v Hv. apply Hkeep. destruct (decide (v = m)) as [->|Hne]; [done|].
        unfold same_prev in *. by rewrite !list_lookup_insert_ne.
      * intros v Hv. destruct (Hnew v Hv) as [Hin|Hs]; [|by right].
        apply elem_of_cons in Hin as [->|Hin]; [right; by apply Hkeep|by left].
    + by apply IH.
Qed.

Lemma walk_stale (h1 h2 : list Node) (V : gset nat) from :
  (forall v, v ∈ V -> v <> from ->
     exists nd p, h1 !! v = Some nd /\ prev nd = Some p /\ p ∈ V) ->
  (forall v, v ∈ V -> v <> from -> same_prev h1 h2 v) ->
  forall fuel v acc, v ∈ V -> walk fuel h1 from v acc = walk fuel h2 from v acc.
Proof.
  intros HV HP. induction fuel as [|f IH]; intros v acc Hv; [done|].
  simpl. destruct (decide (v = from)) as [->|Hne]; [done|].
  destruct (HV v Hv Hne) as (nd & p & Hl & Hp & HpV).
  pose proof (HP v Hv Hne) as Hs. unfold same_prev in Hs. rewrite Hl in Hs.
  destruct (h2 !! v) as [nd2|]; [|done]. simpl in Hs. injection Hs as Hs.
  rewrite Hl, Hp, <- Hs, Hp. by apply IH.
Qed.

Section Stale.
Variable h0 : list Node.
Variables from to : nat.
Hypothesis Hwf : well_formed h0.

Record Rel (s1 s2 : BfsState) : Prop := {
  rel_visited : visited s1 = visited s2;
  rel_queue : queue s1 = queue s2;
  rel_frame : frame <$> heap s1 = frame <$> heap s2;
  rel_prev : forall v, v ∈ visited s1 \/ v ∈ queue s1 -> v <> from ->
      same_prev (heap s1) (heap s2) v
}.

Lemma loop_stale fuel : forall s1 s2 iters,
  Sound h0 from to s1 -> Rel s1 s2 ->
  result_path (bfs_loop fuel from to s1 iters) =
  result_path (bfs_loop fuel from to s2 iters).
Proof.
  induction fuel as [|f IH]; intros s1 s2 iters HS HR; [done|].
  simpl. rewrite <- (rel_queue _ _ HR), <- (rel_visited _ _ HR).
  destruct (pop (queue s1)) as [[e q']|] eqn:Hpop; [|done].
  apply pop_Some in Hpop.
  destruct (decide (e = to)) as [->|Hne].
  - rewrite <- (walk_stale (heap s1) (heap s2) ({[to]} ∪ visited s1) from).
    + by destruct (walk f (heap s1) from to []).
    + intros v Hv Hvf.
      destruct (sound_popped h0 from to Hwf s1 to q' HS Hpop v Hv Hvf)
        as (nd & p & H1 & H2 & H3 & _). eauto.
    + intros v Hv Hvf. apply (rel_prev _ _ HR); [|done].
      apply elem_of_union in Hv as [Hv|Hv]; [|by left].
      apply elem_of_singleton in Hv as ->. right. rewrite Hpop. apply elem_of_snoc_last.
    + set_solver.
  - destruct (heap s1 !! e) as [nd|] eqn:He.
    + destruct (frame_lookup _ _ _ _ (rel_frame _ _ HR) He) as (nd2 & He2 & Hfe).
      rewrite He2. injection Hfe as _ Hn _ _. rewrite Hn.
      destruct (expand e ({[e]} ∪ visited s1) (neighbours nd) (heap s1) q')
        as [[h1' q1]|] eqn:Hex.
      * destruct (expand_stale _ _ _ _ _ _ _ _ (rel_frame _ _ HR) Hex)
          as (h2' & Hex2 & Hf' & Hkeep & Hnew).
        rewrite Hex2. apply IH; [by eapply sound_step|].
        split; simpl; [done|done|done|].
        intros v Hv Hvf.
        assert (Hold : v ∈ visited s1 \/ v ∈ queue s1 -> same_prev h1' h2' v).
        { intros Hin. by apply Hkeep, (rel_prev _ _ HR). }
        destruct Hv as [Hv|Hv].
        -- apply Hold. apply elem_of_union in Hv as [Hv|Hv]; [|by left].
           apply elem_of_singleton in Hv as ->. right. rewrite Hpop.
           apply elem_of_snoc_last.
        -- destruct (Hnew v Hv) as [Hin|Hs]; [|done].
           apply Hold. right. rewrite Hpop. by apply elem_of_snoc_init.
      * exfalso.
        pose proof (snd_graph _ _ _ _ HS) as Hsg.
        destruct (same_graph_lookup _ _ _ _ (same_graph_sym _ _ Hsg) He) as (nd0 & H0 & Hs0).
        injection Hs0 as _ Hn0.
        assert (Hval : Forall (fun n => n < length (heap s1)) (neighbours nd)).
        { rewrite <- Hn0. rewrite <- (same_graph_length _ _ Hsg).
          unfold well_formed in Hwf. rewrite Forall_forall in Hwf.
          apply Hwf. by eapply list_elem_of_lookup_2. }
        destruct (expand_spec e ({[e]} ∪ visited s1) (neighbours nd) (heap s1) q' Hval)
          as (h1 & news & Hex1 & _). congruence.
    + assert (heap s2 !! e = None) as ->; [|done].
      apply lookup_ge_None. apply lookup_ge_None in He.
      pose proof (f_equal length (rel_frame _ _ HR)) as Hl.
      rewrite !length_fmap in Hl. lia.
Qed.
End Stale.

(** X4.  The [prev] fields left by earlier searches do not matter: on two
    heaps that differ in [prev] fields only, the search gives the same
    outcome, the same path and the same number of iterations, for every
    amount of fuel.  [Node.reset] need not be called between searches. *)
Theorem constructPathBFS_stale_prev (h1 h2 : list Node) (from to fuel : nat) :
  well_formed h1 -> frame <$> h1 = frame <$> h2 ->
  bind (constructPathBFS fuel from to h1) (fun hp => Done hp.2) =
  bind (constructPathBFS fuel from to h2) (fun hp => Done hp.2) /\
  loop_iterations fuel from to h1 = loop_iterations fuel from to h2.
Proof.
  intros Hwf Hf.
  pose proof (loop_stale h1 from to Hwf fuel (mkBfs h1 ∅ [from]) (mkBfs h2 ∅ [from]) 0
                (sound_initial h1 from to Hwf)) as H.
  unfold result_path in H. unfold constructPathBFS, loop_iterations.
  assert (HR : Rel from (mkBfs h1 ∅ [from]) (mkBfs h2 ∅ [from])).
  { split; simpl; [done|done|done|].
    intros v [Hv|Hv] Hne; [set_solver|].
    apply list_elem_of_singleton in Hv. done. }
  specialize (H HR). by injection H.
Qed.

Lemma constructPathBFS_stale_prev_witness :
  bind (constructPathBFS 32 0 8 open3x3) (fun hp => Done hp.2) =
  bind (constructPathBFS 32 0 8 (set_prev 5 <$> open3x3)) (fun hp => Done hp.2) /\
  loop_iterations 32 0 8 open3x3 =
  loop_iterations 32 0 8 (set_prev 5 <$> open3x3).
Proof.
  apply (constructPathBFS_stale_prev open3x3 (set_prev 5 <$> open3x3) 0 8 32).
  - unfold well_formed, open3x3. repeat (constructor; simpl; try lia).
  - reflexivity.
Defined.

End PathFinderSoundness.

(* ===================================================================== *)
(** * The structure of a loaded level *)
(* ===================================================================== *)

Module LevelStructure.
Import Graph Entities Level PathFinder LevelProofs.
Import PrimFloat.
Local Open Scope string_scope.
Local Open Scope list_scope.

(** What [buildLevel] returns, in terms of the tiles in reading order. *)
Lemma built_cells data ts pacman lv pac :
  buildLevel (mkLoader data ts) pacman = Done (lv, pac) ->
  let cs := gridCells 0 (split data) in
  let b := foldl (tileOf ts) (mkBuild [] ∅ noEntities pacman) cs in
  rectangular (String.length (default "" (head (split data)))) (split data) /\
  3 <= length (split data) /\
  3 <= String.length (default "" (head (split data))) /\
  levelData lv = data /\ tileSize lv = ts /\
  entities lv = bEntities b /\ pac = bPacman b /\
  Entities.startNode (bEntities b) = Some (startNode lv) /\
  length (nodes lv) = length cs /\
  (forall k c, cs !! k = Some c ->
     graph lv !! cellKey c = Some k /\
     nodes lv !! k = Some (connected (graph lv) c (cellNode c))) /\
  (forall s r, graph lv !! s = Some r ->
     exists c, cs !! r = Some c /\ s = cellKey c).
Proof.
  unfold buildLevel. simpl.
  destruct (validateLevelDimensions (split data)) as [[]| |] eqn:Hval; simpl; [|done|done].
  pose proof (validate_Done _ Hval) as Hrect.
  assert (Hdim : 3 <= length (split data) /\
                 3 <= String.length (default "" (head (split data)))).
  { unfold validateLevelDimensions in Hval.
    destruct (forallb _ _); [|done]. case_bool_decide; [done|]. lia. }
  unfold createGraphAndEntities, connectNodes.
  rewrite createRows_cells, connectRows_cells.
  set (cs := gridCells 0 (split data)).
  set (b0 := mkBuild [] ∅ noEntities pacman).
  destruct (create_cells ts cs b0) as (Hn & Hl & Ho & Hsz).
  { apply gridCells_NoDup. }
  { intros c _. apply lookup_empty. }
  simpl in Hn, Hl.
  destruct (Entities.startNode _) as [start|] eqn:Hstart; [|done].
  intros [= <- <-]. simpl.
  destruct (connect_cells (bGraph (foldl (tileOf ts) b0 cs)) cs 0
              (bNodes (foldl (tileOf ts) b0 cs))) as (Hcl & Hck & _).
  { intros k c' Hk. by apply Hl. }
  split; [done|]. split; [apply Hdim|]. split; [apply Hdim|].
  split; [done|]. split; [done|]. split; [done|]. split; [done|]. split; [done|].
  split; [by rewrite Hcl, Hn, length_fmap|]. split.
  - intros k c Hk. split; [by apply Hl|].
    pose proof (Hck _ _ Hk) as Hk'. simpl in Hk'. rewrite Hk', Hn.
    by rewrite list_lookup_fmap, Hk.
  - intros s r Hs.
    destruct (decide (s ∈ cellKey <$> cs)) as [Hin|Hnin].
    + apply list_elem_of_fmap in Hin as (c & -> & Hc).
      apply list_elem_of_lookup in Hc as [k Hk].
      rewrite (Hl _ _ Hk) in Hs. injection Hs as <-. eauto.
    + rewrite Ho in Hs; [by unfold b0 in Hs; simpl in Hs; rewrite lookup_empty in Hs|].
      intros c Hc <-. apply Hnin. by apply list_elem_of_fmap_2.
Qed.

Lemma elem_of_snoc_nil (l : list string) : "" ∈ l ++ [""].
Proof. apply elem_of_app. right. by apply list_elem_of_singleton. Qed.


Lemma rowCells_lookup_inv i row : forall j n c,
  rowCells i j row !! n = Some c ->
  c.1.1 = i /\ c.1.2 = j + n /\ String.get n row = Some c.2.
Proof.
  induction row as [|a row IH]; intros j [|n] c; simpl; try done.
  - intros [= <-]. simpl. split; [done|]. split; [lia|done].
  - intros H. apply IH in H as (? & ? & ?). split; [done|]. split; [lia|done].
Qed.

Lemma gridCells_lookup_inv width rows : forall i0 k c,
  rectangular width rows -> gridCells i0 rows !! k = Some c ->
  exists row, rows !! (c.1.1 - i0) = Some row /\ String.get c.1.2 row = Some c.2 /\
              i0 <= c.1.1 /\ c.1.2 < width /\ k = (c.1.1 - i0) * width + c.1.2.
Proof.
  induction rows as [|row0 rows IH]; intros i0 k c Hr Hk; [done|].
  apply Forall_cons in Hr as [Hrow Hr]. simpl in Hk.
  destruct (decide (k < String.length row0)) as [Hlt|Hge].
  - rewrite lookup_app_l in Hk by (by rewrite rowCells_length).
    apply rowCells_lookup_inv in Hk as (Hi & Hj & Hg). simpl in Hj.
    exists row0. rewrite Hi, Nat.sub_diag, Hj. simpl.
    split; [done|]. split; [done|]. split; [lia|]. split; [lia|lia].
  - rewrite lookup_app_r in Hk by (rewrite rowCells_length; lia).
    rewrite rowCells_length in Hk.
    destruct (IH (S i0) _ c Hr Hk) as (row & Ha & Hg & Hi & Hj & Hkk).
    exists row. replace (c.1.1 - i0) with (S (c.1.1 - S i0)) by lia.
    split; [done|]. split; [done|]. split; [lia|]. split; [done|].
    simpl. lia.
Qed.

Lemma max_degree_le (h : list Node) d :
  (forall r nd, h !! r = Some nd -> length (neighbours nd) <= d) -> max_degree h <= d.
Proof.
  induction h as [|a h IH]; intros H; simpl; [lia|].
  pose proof (H 0 a eq_refl). specialize (IH (fun r nd Hr => H (S r) nd Hr)). lia.
Qed.

Lemma built_lookup data ts pacman lv pac r nd :
  buildLevel (mkLoader data ts) pacman = Done (lv, pac) ->
  nodes lv !! r = Some nd ->
  exists c, gridCells 0 (split data) !! r = Some c /\
            graph lv !! cellKey c = Some r /\
            isPassable nd = negb (Ascii.eqb c.2 "#") /\
            x nd = Z.of_nat c.1.2 /\ y nd = Z.of_nat c.1.1 /\
            neighbours nd =
              omap (fun k => graph lv !! k)
                   (neighbourKeys (Z.of_nat c.1.2) (Z.of_nat c.1.1)).
Proof.
  intros Hb Hr. destruct (built_cells _ _ _ _ _ Hb) as (_&_&_&_&_&_&_&_& Hlen & Hc & _).
  destruct (lookup_lt_is_Some_2 (gridCells 0 (split data)) r) as [c Hcell].
  { rewrite <- Hlen. by eapply lookup_lt_Some. }
  destruct (Hc _ _ Hcell) as [Hg Hn]. rewrite Hn in Hr. injection Hr as <-.
  destruct (connected_fields (graph lv) c (cellNode c)) as (H1 & H2 & H3 & H4).
  exists c. rewrite H1, H2, H3, H4. done.
Qed.

Lemma neighbourKeys_length (g : gmap string nat) j i :
  length (omap (fun k => g !! k) (neighbourKeys j i)) <= 4.
Proof. unfold neighbourKeys. simpl. repeat case_match; simpl; lia. Qed.


(** ** The start tile *)

(** Pacman as an [S] tile leaves it: centred on the tile, with the radius
    of the tile size, and stopped. *)
Definition placed (ts : PrimFloat.float) (c : nat * nat * ascii) (p : Pacman) : Pacman :=
  mkPacman
    (Wall.mkCircle (Float64.of_nat c.1.2 * ts + ts / 2)%float
                   (Float64.of_nat c.1.1 * ts + ts / 2)%float
                   ((ts / 2) * 0.8)%float)
    (MovementComponent.stop (speed p)).

Definition isStart (c : nat * nat * ascii) : bool := Ascii.eqb c.2 "S".

Lemma tile_nodes_length ts cs : forall b,
  length (bNodes (foldl (tileOf ts) b cs)) = length (bNodes b) + length cs.
Proof.
  induction cs as [|c cs IH]; intros b; simpl; [lia|].
  rewrite IH. simpl. rewrite length_app. simpl. lia.
Qed.

Lemma tile_pacman ts b c :
  bPacman (tileOf ts b c) =
  if isStart c then placed ts c (bPacman b) else bPacman b.
Proof.
  unfold tileOf, createTile, isStart, processTileCharacter. simpl.
  destruct (Ascii.eqb c.2 "S"); [done|].
  repeat (match goal with |- context [if ?b then _ else _] => destruct b end; [done|]).
  done.
Qed.

Lemma fold_no_start ts cs : forall b,
  Forall (fun c => isStart c = false) cs ->
  Entities.startNode (bEntities (foldl (tileOf ts) b cs)) =
    Entities.startNode (bEntities b) /\
  bPacman (foldl (tileOf ts) b cs) = bPacman b.
Proof.
  induction cs as [|c cs IH]; intros b Hf; simpl; [done|].
  apply Forall_cons in Hf as [Hc Hf]. destruct (IH (tileOf ts b c) Hf) as [-> ->].
  rewrite tile_start, tile_pacman. unfold isStart in Hc. unfold isStart.
  by rewrite Hc.
Qed.

Lemma fold_speed ts cs : forall b,
  MovementComponent.stop (speed (bPacman (foldl (tileOf ts) b cs))) =
  MovementComponent.stop (speed (bPacman b)).
Proof.
  induction cs as [|c cs IH]; intros b; simpl; [done|].
  rewrite IH, tile_pacman. by destruct (isStart c).
Qed.

Lemma fold_last_start ts pre c post b :
  isStart c = true -> Forall (fun c => isStart c = false) post ->
  Entities.startNode (bEntities (foldl (tileOf ts) b (pre ++ c :: post))) =
    Some (length (bNodes b) + length pre) /\
  bPacman (foldl (tileOf ts) b (pre ++ c :: post)) = placed ts c (bPacman b).
Proof.
  intros Hc Hpost. rewrite foldl_app. simpl.
  destruct (fold_no_start ts post (tileOf ts (foldl (tileOf ts) b pre) c) Hpost)
    as [-> ->].
  rewrite tile_start, tile_pacman. unfold isStart in Hc. unfold isStart.
  rewrite Hc, tile_nodes_length. split; [done|].
  unfold placed. by rewrite fold_speed.
Qed.

Lemma last_start_split cs :
  Forall (fun c => isStart c = false) cs \/
  exists pre c post, cs = pre ++ c :: post /\ isStart c = true /\
                     Forall (fun c => isStart c = false) post.
Proof.
  induction cs as [|a cs IH]; [left; constructor|].
  destruct IH as [Hno|(pre & c & post & -> & Hc & Hpost)].
  - destruct (isStart a) eqn:Ha.
    + right. exists [], a, cs. done.
    + left. by constructor.
  - right. exists (a :: pre), c, post. done.
Qed.

(** Number of cells that hold the character [a]. *)
Definition count_cells (a : ascii) (cs : list (nat * nat * ascii)) : nat :=
  sum_list_with (fun c => if Ascii.eqb c.2 a then 1 else 0) cs.

Lemma count_cells_row a i row : forall j,
  count_cells a (rowCells i j row) = count_char a row.
Proof.
  induction row as [|b row IH]; intros j; simpl; [done|].
  unfold count_cells in *. simpl. by rewrite IH.
Qed.

Lemma count_cells_grid a rows : forall i,
  count_cells a (gridCells i rows) = occurrences a rows.
Proof.
  induction rows as [|row rows IH]; intros i; simpl; [done|].
  unfold count_cells in *. rewrite sum_list_with_app.
  fold (count_cells a (rowCells i 0 row)). rewrite count_cells_row, IH. done.
Qed.

Lemma count_cells_none a cs :
  count_cells a cs = 0 <-> Forall (fun c => Ascii.eqb c.2 a = false) cs.
Proof.
  induction cs as [|c cs IH]; simpl; [split; [constructor|done]|].
  unfold count_cells in *. simpl. rewrite Forall_cons, <- IH.
  destruct (Ascii.eqb c.2 a).
  - split; [lia|]. by intros [? ?].
  - split; [intros H; split; [done|lia]|]. intros [_ H]. lia.
Qed.

Lemma built_start data ts pacman lv pac :
  buildLevel (mkLoader data ts) pacman = Done (lv, pac) ->
  exists pre c post,
    gridCells 0 (split data) = pre ++ c :: post /\ isStart c = true /\
    Forall (fun c => isStart c = false) post /\
    startNode lv = length pre /\ pac = placed ts c pacman.
Proof.
  intros Hb.
  destruct (built_cells _ _ _ _ _ Hb) as (_&_&_&_&_&_& Hpac & Hstart &_).
  destruct (last_start_split (gridCells 0 (split data)))
    as [Hno|(pre & c & post & Hcs & Hc & Hpost)].
  - destruct (fold_no_start ts _ (mkBuild [] ∅ noEntities pacman) Hno) as [Hs _].
    rewrite Hs in Hstart. done.
  - exists pre, c, post. rewrite Hcs in Hstart, Hpac.
    destruct (fold_last_start ts pre c post (mkBuild [] ∅ noEntities pacman) Hc Hpost)
      as [Hs Hp].
    rewrite Hs in Hstart. rewrite Hp in Hpac. simpl in Hstart, Hpac.
    injection Hstart as <-. done.
Qed.

Lemma built_well_formed loader pacman lv pac :
  buildLevel loader pacman = Done (lv, pac) ->
  well_formed (nodes lv) /\ graph_valid lv /\ max_degree (nodes lv) <= 4.
Proof.
  destruct loader as [data ts]. intros Hb.
  destruct (built_cells _ _ _ _ _ Hb) as (_&_&_&_&_&_&_& Hstart & Hlen & Hc & Hinv).
  assert (Hgv : forall s r, graph lv !! s = Some r -> r < length (nodes lv)).
  { intros s r Hs. destruct (Hinv s r Hs) as (c & Hcell & _).
    rewrite Hlen. by eapply lookup_lt_Some. }
  split; [|split].
  - unfold well_formed. apply Forall_forall. intros nd Hnd.
    apply list_elem_of_lookup in Hnd as [r Hr].
    destruct (built_lookup _ _ _ _ _ _ _ Hb Hr) as (c & _ & _ & _ & _ & _ & ->).
    apply Forall_forall. intros n Hn.
    apply list_elem_of_omap in Hn as (k & _ & Hk). by eapply Hgv.
  - intros s r Hs. by eapply Hgv.
  - apply max_degree_le. intros r nd Hr.
    destruct (built_lookup _ _ _ _ _ _ _ Hb Hr) as (c & _ & _ & _ & _ & _ & ->).
    apply neighbourKeys_length.
Qed.

(** X5.  The graph of a level that [buildLevel] returns is a grid graph:
    every neighbour reference and every graph entry points into the heap,
    the start node is in the heap, a node has at most four neighbours, and
    every neighbour of a node is at Manhattan distance one from it and has
    the node among its own neighbours. *)
Theorem built_graph_grid loader pacman lv pac :
  buildLevel loader pacman = Done (lv, pac) ->
  well_formed (nodes lv) /\ graph_valid lv /\
  startNode lv < length (nodes lv) /\ max_degree (nodes lv) <= 4 /\
  forall r nd n, nodes lv !! r = Some nd -> n ∈ neighbours nd ->
    exists nn, nodes lv !! n = Some nn /\
               GhostBehavior.distanceBetween nd nn = 1%Z /\ r ∈ neighbours nn.
Proof.
  intros Hb. destruct (built_well_formed _ _ _ _ Hb) as (Hwf & Hgv & Hdeg).
  destruct loader as [data ts].
  destruct (built_cells _ _ _ _ _ Hb) as (_&_&_&_&_&_&_& Hstart & Hlen & Hc & Hinv).
  split; [done|]. split; [done|]. split; [|split; [done|]].
  - destruct (built_start _ _ _ _ _ Hb) as (pre & c & post & Hcs & _ & _ & -> & _).
    rewrite Hlen, Hcs, length_app. simpl. lia.
  - intros r nd n Hr Hn.
    destruct (built_lookup _ _ _ _ _ _ _ Hb Hr) as (c & Hcell & Hg & _ & Hx & Hy & Hns).
    rewrite Hns in Hn. apply list_elem_of_omap in Hn as (k & Hk & Hkn).
    destruct (Hinv _ _ Hkn) as (c' & Hcell' & ->).
    destruct (Hc _ _ Hcell') as [_ Hn'].
    exists (connected (graph lv) c' (cellNode c')). split; [done|].
    destruct (connected_fields (graph lv) c' (cellNode c')) as (_ & H2 & H3 & H4).
    unfold GhostBehavior.distanceBetween. rewrite H2, H3, H4, Hx, Hy.
    change (x (cellNode c')) with (Z.of_nat c'.1.2).
    change (y (cellNode c')) with (Z.of_nat c'.1.1).
    change (neighbours (cellNode c')) with (@nil nat). rewrite app_nil_l.
    assert (Hadj : (
      (Z.of_nat c'.1.2 = Z.of_nat c.1.2 /\ Z.of_nat c'.1.1 = Z.of_nat c.1.1 - 1) \/
      (Z.of_nat c'.1.2 = Z.of_nat c.1.2 - 1 /\ Z.of_nat c'.1.1 = Z.of_nat c.1.1) \/
      (Z.of_nat c'.1.2 = Z.of_nat c.1.2 + 1 /\ Z.of_nat c'.1.1 = Z.of_nat c.1.1) \/
      (Z.of_nat c'.1.2 = Z.of_nat c.1.2 /\ Z.of_nat c'.1.1 = Z.of_nat c.1.1 + 1))%Z).
    { unfold neighbourKeys in Hk. unfold cellKey in Hk.
      repeat (apply elem_of_cons in Hk as [Hk|Hk]; [apply key_inj in Hk; tauto|]).
      by apply elem_of_nil in Hk. }
    split; [lia|].
    apply list_elem_of_omap. exists (cellKey c). split; [|done].
    unfold cellKey, neighbourKeys.
    destruct Hadj as [[-> ->]|[[-> ->]|[[-> ->]|[-> ->]]]].
    + replace (Z.of_nat c.1.1 - 1 + 1)%Z with (Z.of_nat c.1.1) by lia.
      do 3 right. by left.
    + replace (Z.of_nat c.1.2 - 1 + 1)%Z with (Z.of_nat c.1.2) by lia.
      do 2 right. by left.
    + replace (Z.of_nat c.1.2 + 1 - 1)%Z with (Z.of_nat c.1.2) by lia.
      right. by left.
    + replace (Z.of_nat c.1.1 + 1 - 1)%Z with (Z.of_nat c.1.1) by lia.
      by left.
Qed.

(** X11.  In a level that [buildLevel] returns, the start node is the
    passable node of an [S] tile, found under the key of that tile; with
    several [S] tiles it is the last one in reading order.  Pacman is left
    at the centre of that tile with a radius of 0.8 half tiles, stopped. *)
Theorem buildLevel_start loader pacman lv pac :
  buildLevel loader pacman = Done (lv, pac) ->
  exists i j row nd,
    split (loaderData loader) !! i = Some row /\
    String.get j row = Some "S"%char /\
    graph lv !! key (Z.of_nat j) (Z.of_nat i) = Some (startNode lv) /\
    nodes lv !! startNode lv = Some nd /\ isPassable nd = true /\
    x nd = Z.of_nat j /\ y nd = Z.of_nat i /\
    pac = mkPacman
            (Wall.mkCircle
               (Float64.of_nat j * loaderTileSize loader + loaderTileSize loader / 2)%float
               (Float64.of_nat i * loaderTileSize loader + loaderTileSize loader / 2)%float
               ((loaderTileSize loader / 2) * 0.8)%float)
            (MovementComponent.stop (speed pacman)) /\
    forall i' j' row',
      split (loaderData loader) !! i' = Some row' ->
      String.get j' row' = Some "S"%char ->
      i' < i \/ (i' = i /\ j' <= j).
Proof.
  destruct loader as [data ts]. simpl. intros Hb.
  destruct (built_cells _ _ _ _ _ Hb) as (Hrect&_&_&_&_&_&_&_& Hlen & Hc & Hinv).
  destruct (built_start _ _ _ _ _ Hb) as (pre & c & post & Hcs & Hstart & Hpost & Hs & Hpac).
  assert (Hcell : gridCells 0 (split data) !! length pre = Some c).
  { rewrite Hcs. by rewrite list_lookup_middle. }
  destruct (gridCells_lookup_inv _ _ _ _ _ Hrect Hcell) as (row & Hrow & Hget & _ & Hj & Hk).
  rewrite Nat.sub_0_r in Hrow, Hk.
  unfold isStart in Hstart. apply Ascii.eqb_eq in Hstart.
  destruct (Hc _ _ Hcell) as [Hg Hn].
  exists c.1.1, c.1.2, row, (connected (graph lv) c (cellNode c)).
  rewrite Hs. rewrite Hstart in Hget.
  destruct (connected_fields (graph lv) c (cellNode c)) as (H1 & H2 & H3 & _).
  split; [done|]. split; [done|]. split; [done|]. split; [done|].
  split; [rewrite H1; simpl; by rewrite Hstart|].
  split; [by rewrite H2|]. split; [by rewrite H3|]. split; [done|].
  intros i' j' row' Hi' Hj'.
  pose proof (gridCells_lookup _ _ 0 i' j' row' _ Hrect Hi' Hj') as Hcell'.
  simpl in Hcell'.
  assert (Hj'w : j' < String.length (default "" (head (split data)))).
  { pose proof Hrect as Hall. unfold rectangular in Hall.
    rewrite Forall_forall in Hall. rewrite <- (Hall row').
    - by eapply get_Some_lt.
    - by eapply list_elem_of_lookup_2. }
  assert (Hle : i' * String.length (default "" (head (split data))) + j' <= length pre).
  { destruct (decide (i' * String.length (default "" (head (split data))) + j'
                      <= length pre)) as [|Hgt]; [done|].
    exfalso. rewrite Hcs in Hcell'.
    rewrite lookup_app_r in Hcell' by lia.
    destruct (i' * String.length (default "" (head (split data))) + j' - length pre)
      as [|m] eqn:Hm; [lia|].
    simpl in Hcell'. rewrite Forall_forall in Hpost.
    specialize (Hpost _ (list_elem_of_lookup_2 _ _ _ Hcell')). done. }
  rewrite Hk in Hle. nia.
Qed.

(** ** When loading succeeds *)

(** The grids [buildLevel] accepts: rows of one length, at least three rows
    and three columns, and a start tile. *)
Definition loadable (rows : list string) : Prop :=
  rectangular (String.length (default "" (head rows))) rows /\
  3 <= length rows /\ 3 <= String.length (default "" (head rows)) /\
  1 <= occurrences "S" rows.

Lemma buildLevel_cases loader pacman :
  buildLevel loader pacman = Throw (GameError LevelLoadError) \/
  exists lv pac, buildLevel loader pacman = Done (lv, pac).
Proof.
  unfold buildLevel, validateLevelDimensions.
  destruct (forallb _ _); [|by left].
  case_bool_decide; [by left|]. simpl.
  destruct (Entities.startNode _); [right; eauto|by left].
Qed.

Lemma built_loadable data ts pacman lv pac :
  buildLevel (mkLoader data ts) pacman = Done (lv, pac) -> loadable (split data).
Proof.
  intros Hb.
  destruct (built_cells _ _ _ _ _ Hb) as (Hrect & Hh & Hw & _).
  destruct (built_start _ _ _ _ _ Hb) as (pre & c & post & Hcs & Hstart & _).
  split; [done|]. split; [done|]. split; [done|].
  rewrite <- (count_cells_grid "S" (split data) 0), Hcs.
  unfold count_cells. rewrite sum_list_with_app. simpl.
  unfold isStart in Hstart. rewrite Hstart. lia.
Qed.

Lemma loadable_built data ts pacman :
  loadable (split data) -> exists lv pac, buildLevel (mkLoader data ts) pacman = Done (lv, pac).
Proof.
  intros (Hrect & Hh & Hw & Hs). unfold buildLevel. simpl.
  rewrite (validate_rectangular _ _ Hrect Hh Hw). simpl.
  unfold createGraphAndEntities. rewrite createRows_cells.
  destruct (fold_start ts (gridCells 0 (split data)) (mkBuild [] ∅ noEntities pacman))
    as [start Hstart].
  { right. by apply occurrences_cell. }
  rewrite Hstart. eauto.
Qed.

Lemma loadable_loads data canvasWidth pacman :
  loadable (split data) ->
  exists lv pac, loadLevel data canvasWidth pacman = Done (lv, pac).
Proof.
  intros Hl. unfold loadLevel. destruct Hl as (Hrect & Hh & Hw & Hs).
  rewrite (newLevelLoader_rectangular data canvasWidth _ Hrect Hh Hw).
  by apply loadable_built.
Qed.

Lemma not_loadable_throws data canvasWidth pacman :
  ~ loadable (split data) ->
  loadLevel data canvasWidth pacman = Throw (GameError LevelLoadError).
Proof.
  intros Hn. unfold loadLevel.
  destruct (newLevelLoader_cases data canvasWidth) as [->|[ts ->]]; [done|].
  simpl. destruct (buildLevel_cases (mkLoader data ts) pacman)
    as [->|(lv & pac & Hb)]; [done|].
  by apply built_loadable in Hb.
Qed.

(** X7.  Loading succeeds exactly on the texts whose rows all have the
    length of the first one, with at least three rows and three columns and
    at least one [S]; on every other text it throws a level-load error, and
    never another one. *)
Theorem loadLevel_outcome (data : string) (canvasWidth : PrimFloat.float) (pacman : Pacman) :
  (loadable (split data) ->
     exists lv pac, loadLevel data canvasWidth pacman = Done (lv, pac)) /\
  (~ loadable (split data) ->
     loadLevel data canvasWidth pacman = Throw (GameError LevelLoadError)).
Proof.
  split; [apply loadable_loads|apply not_loadable_throws].
Qed.

Lemma split_trailing s : split (s +:+ String newline "") = split s ++ [""].
Proof.
  induction s as [|c s IH].
  - reflexivity.
  - change (split (String c (s +:+ String newline "")) = split (String c s) ++ [""]).
    simpl. rewrite IH. destruct (Ascii.eqb c newline); [done|].
    pose proof (split_length s). destruct (split s); [simpl in *; lia|done].
Qed.

(** X8.  A level text that ends with a line feed is rejected with a
    level-load error: [split] yields an empty last row, which is shorter
    than any accepted first row, and the loader does not trim the text. *)
Theorem trailing_newline_rejected (data : string) (canvasWidth : PrimFloat.float) (pacman : Pacman) :
  loadLevel (data +:+ String newline "") canvasWidth pacman =
  Throw (GameError LevelLoadError).
Proof.
  apply not_loadable_throws. rewrite split_trailing.
  intros (Hrect & _ & Hw & _).
  unfold rectangular in Hrect. rewrite Forall_forall in Hrect.
  specialize (Hrect "" (elem_of_snoc_nil _)). simpl in Hrect. lia.
Qed.

(** X9.  The keys of the graph map do not collide: two pairs of integer
    coordinates have the same key only when they are the same pair. *)
Theorem key_collision_free (x y x' y' : Z) :
  key x y = key x' y' <-> x = x' /\ y = y'.
Proof.
  split; [apply key_inj|]. by intros [-> ->].
Qed.

(** ** The entities of a level *)

Definition tally (a : ascii) (c : nat * nat * ascii) : nat :=
  if Ascii.eqb c.2 a then 1 else 0.

Lemma tile_entities ts b c :
  length (walls (bEntities (tileOf ts b c))) =
    length (walls (bEntities b)) + tally "#" c /\
  length (dots (bEntities (tileOf ts b c))) =
    length (dots (bEntities b)) + tally "." c /\
  length (ghosts (bEntities (tileOf ts b c))) =
    length (ghosts (bEntities b)) + (tally "G" c + tally "A" c + tally "R" c) /\
  length (pellets (bEntities (tileOf ts b c))) =
    length (pellets (bEntities b)) + (tally "H" c + tally "P" c).
Proof.
  unfold tileOf, createTile, processTileCharacter, tally.
  destruct c as [[i j] a]. cbn [fst snd].
  destruct (Ascii.eqb a "S") eqn:ES;
    [apply Ascii.eqb_eq in ES; subst a; cbn; lia|].
  destruct (Ascii.eqb a ".") eqn:E1;
    [apply Ascii.eqb_eq in E1; subst a; cbn; rewrite ?length_app; cbn; lia|].
  destruct (Ascii.eqb a "#") eqn:E2;
    [apply Ascii.eqb_eq in E2; subst a; cbn; rewrite ?length_app; cbn; lia|].
  destruct (Ascii.eqb a "G") eqn:E3;
    [apply Ascii.eqb_eq in E3; subst a; cbn; rewrite ?length_app; cbn; lia|].
  destruct (Ascii.eqb a "A") eqn:E4;
    [apply Ascii.eqb_eq in E4; subst a; cbn; rewrite ?length_app; cbn; lia|].
  destruct (Ascii.eqb a "R") eqn:E5;
    [apply Ascii.eqb_eq in E5; subst a; cbn; rewrite ?length_app; cbn; lia|].
  destruct (Ascii.eqb a "H") eqn:E6;
    [apply Ascii.eqb_eq in E6; subst a; cbn; rewrite ?length_app; cbn; lia|].
  destruct (Ascii.eqb a "P") eqn:E7;
    [apply Ascii.eqb_eq in E7; subst a; cbn; rewrite ?length_app; cbn; lia|].
  cbn. lia.
Qed.

Lemma fold_entities ts cs : forall b,
  length (walls (bEntities (foldl (tileOf ts) b cs))) =
    length (walls (bEntities b)) + count_cells "#" cs /\
  length (dots (bEntities (foldl (tileOf ts) b cs))) =
    length (dots (bEntities b)) + count_cells "." cs /\
  length (ghosts (bEntities (foldl (tileOf ts) b cs))) =
    length (ghosts (bEntities b)) +
    (count_cells "G" cs + count_cells "A" cs + count_cells "R" cs) /\
  length (pellets (bEntities (foldl (tileOf ts) b cs))) =
    length (pellets (bEntities b)) + (count_cells "H" cs + count_cells "P" cs).
Proof.
  induction cs as [|c cs IH]; intros b.
  - unfold count_cells. simpl. lia.
  - change (foldl (tileOf ts) b (c :: cs)) with (foldl (tileOf ts) (tileOf ts b c) cs).
    destruct (IH (tileOf ts b c)) as (-> & -> & -> & ->).
    destruct (tile_entities ts b c) as (-> & -> & -> & ->).
    unfold count_cells, tally. cbn [sum_list_with]. lia.
Qed.

(** X6.  A level that [buildLevel] returns holds one wall for each [#] of
    the text, one dot for each [.], one ghost for each [G], [A] or [R] and
    one pellet for each [H] or [P]; it is completed from the start exactly
    when the text has no [.]. *)
Theorem buildLevel_entities loader pacman lv pac :
  buildLevel loader pacman = Done (lv, pac) ->
  let rows := split (loaderData loader) in
  length (walls (entities lv)) = occurrences "#" rows /\
  length (dots (entities lv)) = occurrences "." rows /\
  length (ghosts (entities lv)) =
    occurrences "G" rows + occurrences "A" rows + occurrences "R" rows /\
  length (pellets (entities lv)) = occurrences "H" rows + occurrences "P" rows /\
  (isCompleted lv = true <-> occurrences "." rows = 0).
Proof.
  destruct loader as [data ts]. simpl. intros Hb.
  destruct (built_cells _ _ _ _ _ Hb) as (_&_&_&_&_& He &_).
  destruct (fold_entities ts (gridCells 0 (split data)) (mkBuild [] ∅ noEntities pacman))
    as (H1 & H2 & H3 & H4).
  rewrite <- He in H1, H2, H3, H4. simpl in H1, H2, H3, H4.
  rewrite !count_cells_grid in *.
  split; [done|]. split; [done|]. split; [done|]. split; [done|].
  unfold isCompleted. rewrite bool_decide_eq_true. by rewrite H2.
Qed.

(** ** Looking up a tile *)





(** ** Searching a path in a loaded level *)

(** X13.  On the graph of a level that [buildLevel] returns, the path
    search from any node of the level returns once the fuel passes
    [2 * 5 ^ n + 2] for [n] nodes: the path is connected step by step, it is
    not empty exactly when the destination is reachable, and the loop runs
    at most [5 ^ n] iterations. *)
Theorem built_level_search loader pacman lv pac (from to fuel : nat) :
  buildLevel loader pacman = Done (lv, pac) ->
  from < length (nodes lv) ->
  2 * 5 ^ length (nodes lv) + 2 <= fuel ->
  exists h' p,
    constructPathBFS fuel from to (nodes lv) = Done (h', p) /\
    is_path (nodes lv) p /\
    (p <> [] <-> reach (nodes lv) from to) /\
    loop_iterations fuel from to (nodes lv) <= 5 ^ length (nodes lv).
Proof.
  intros Hb Hfrom Hfuel.
  destruct (built_well_formed _ _ _ _ Hb) as (Hwf & _ & Hdeg).
  assert (Hpow : S (max_degree (nodes lv)) ^ length (nodes lv) <= 5 ^ length (nodes lv)).
  { apply Nat.pow_le_mono_l. lia. }
  destruct (PathFinderProofs.bfs_fuel_bound (nodes lv) from to fuel Hwf Hfrom)
    as (h' & p & n & Hr & Hn & Hreach); [lia|].
  destruct (PathFinderSoundness.loop_sound (nodes lv) from to Hwf fuel _ _ _ _ _
              (PathFinderSoundness.sound_initial (nodes lv) from to Hwf) Hr)
    as [Hpath Hne].
  exists h', p. unfold constructPathBFS, loop_iterations. rewrite Hr. simpl.
  split; [done|]. split; [done|]. split; [split; [done|done]|lia].
Qed.

(** ** The attempts of the random point *)

(** The node [getRandomPoint] looks up from the draws at positions [d] and
    [d + 1], and whether it is passable. *)
Definition pointAt (lv : Level) (maxX maxY : nat) (draws : nat -> PrimFloat.float) (d : nat)
  : option nat :=
  getNode lv (Float64.floor (draws d * Float64.of_nat maxX)%float)
             (Float64.floor (draws (S d) * Float64.of_nat maxY)%float).

Definition passableAt (lv : Level) (maxX maxY : nat) (draws : nat -> PrimFloat.float) (d : nat)
  : bool :=
  match pointAt lv maxX maxY draws d with
  | Some n => match nodes lv !! n with Some nd => isPassable nd | None => false end
  | None => false
  end.

Lemma loop_miss lv maxX maxY f a r :
  graph_valid lv -> S a < maxAttempts ->
  passableAt lv maxX maxY (draws r) (drawn r) = false ->
  randomPointLoop (S f) lv maxX maxY a r =
  randomPointLoop f lv maxX maxY (S a) (mkRng (draws r) (S (S (drawn r)))).
Proof.
  intros Hv Ha Hp. cbn [randomPointLoop random]. cbv zeta.
  rewrite bool_decide_eq_false_2 by lia.
  unfold passableAt, pointAt in Hp. cbn [draws drawn].
  destruct (getNode lv _ _) as [n|] eqn:Hn; [|done].
  destruct (lookup_lt_is_Some_2 (nodes lv) n (Hv _ _ Hn)) as [nd Hnd].
  rewrite Hnd in Hp |- *. by rewrite Hp.
Qed.

Lemma loop_first_hit lv maxX maxY n : graph_valid lv ->
  forall k fuel a r,
    a + k + 1 < maxAttempts -> k < fuel ->
    (forall k', k' < k -> passableAt lv maxX maxY (draws r) (drawn r + 2 * k') = false) ->
    pointAt lv maxX maxY (draws r) (drawn r + 2 * k) = Some n ->
    passableAt lv maxX maxY (draws r) (drawn r + 2 * k) = true ->
    randomPointLoop fuel lv maxX maxY a r =
    (Done n, mkRng (draws r) (drawn r + 2 * S k)).
Proof.
  intros Hv. induction k as [|k IH]; intros fuel a r Ha Hf Hmiss Hpt Hhit.
  - destruct fuel as [|f]; [lia|]. rewrite Nat.add_0_r in Hpt, Hhit.
    cbn [randomPointLoop random]. cbv zeta.
    rewrite bool_decide_eq_false_2 by lia.
    unfold passableAt in Hhit. rewrite Hpt in Hhit.
    unfold pointAt in Hpt. cbn [draws drawn]. rewrite Hpt.
    destruct (nodes lv !! n) as [nd|]; [|done]. rewrite Hhit.
    do 2 f_equal. lia.
  - destruct fuel as [|f]; [lia|].
    rewrite loop_miss; [|done|lia|].
    + rewrite (IH f (S a) (mkRng (draws r) (S (S (drawn r))))); cbn [draws drawn].
      * do 2 f_equal. lia.
      * lia.
      * lia.
      * intros k' Hk'. replace (S (S (drawn r)) + 2 * k') with (drawn r + 2 * S k') by lia.
        apply Hmiss. lia.
      * by replace (S (S (drawn r)) + 2 * k) with (drawn r + 2 * S k) by lia.
      * by replace (S (S (drawn r)) + 2 * k) with (drawn r + 2 * S k) by lia.
    + specialize (Hmiss 0). rewrite Nat.add_0_r in Hmiss. apply Hmiss. lia.
Qed.

Lemma loop_no_hit lv maxX maxY : graph_valid lv ->
  forall m fuel a r,
    a + m + 1 = maxAttempts -> m < fuel ->
    (forall k', k' < m -> passableAt lv maxX maxY (draws r) (drawn r + 2 * k') = false) ->
    randomPointLoop fuel lv maxX maxY a r =
    (Throw (GameError PathfindingError), mkRng (draws r) (drawn r + 2 * S m)).
Proof.
  intros Hv. induction m as [|m IH]; intros fuel a r Ha Hf Hmiss.
  - destruct fuel as [|f]; [lia|].
    cbn [randomPointLoop random]. cbv zeta.
    rewrite bool_decide_eq_true_2 by lia. cbn [draws drawn]. do 2 f_equal. lia.
  - destruct fuel as [|f]; [lia|].
    rewrite loop_miss; [|done|lia|].
    + rewrite (IH f (S a) (mkRng (draws r) (S (S (drawn r))))); cbn [draws drawn].
      * do 2 f_equal. lia.
      * lia.
      * lia.
      * intros k' Hk'. replace (S (S (drawn r)) + 2 * k') with (drawn r + 2 * S k') by lia.
        apply Hmiss. lia.
    + specialize (Hmiss 0). rewrite Nat.add_0_r in Hmiss. apply Hmiss. lia.
Qed.

(** X12.  [getRandomPoint] returns the node of the first attempt that
    hits a passable node, after two draws for each attempt made, provided
    this is one of the first 99 attempts; when none of the first 99
    attempts hits a passable node it throws a pathfinding error after 200
    draws, whatever the hundredth attempt would have found. *)
Theorem getRandomPoint_attempts (lv : Level) (r : Rng) (fuel : nat) :
  graph_valid lv ->
  String.length (default "" (head (split (levelData lv)))) <> 0 ->
  maxAttempts <= fuel ->
  let maxX := String.length (default "" (head (split (levelData lv)))) in
  let maxY := length (split (levelData lv)) in
  (forall k n,
     k + 1 < maxAttempts ->
     (forall k', k' < k -> passableAt lv maxX maxY (draws r) (drawn r + 2 * k') = false) ->
     pointAt lv maxX maxY (draws r) (drawn r + 2 * k) = Some n ->
     passableAt lv maxX maxY (draws r) (drawn r + 2 * k) = true ->
     getRandomPoint fuel lv r = (Done n, mkRng (draws r) (drawn r + 2 * S k))) /\
  ((forall k', k' + 1 < maxAttempts ->
      passableAt lv maxX maxY (draws r) (drawn r + 2 * k') = false) ->
   getRandomPoint fuel lv r =
   (Throw (GameError PathfindingError), mkRng (draws r) (drawn r + 2 * maxAttempts))).
Proof.
  intros Hv Hx Hf maxX maxY.
  assert (Hg : getRandomPoint fuel lv r = randomPointLoop fuel lv maxX maxY 0 r).
  { unfold getRandomPoint. rewrite bool_decide_eq_false_2; [done|].
    intros [H|H]; [done|]. pose proof (split_length (levelData lv)). lia. }
  rewrite Hg. split.
  - intros k n Hk Hmiss Hpt Hhit.
    apply loop_first_hit; [done|lia|unfold maxAttempts in *; lia|done|done|done].
  - intros Hmiss.
    rewrite (loop_no_hit lv maxX maxY Hv (maxAttempts - 1) fuel 0 r).
    + do 2 f_equal; unfold maxAttempts; lia.
    + unfold maxAttempts. lia.
    + unfold maxAttempts in *. lia.
    + intros k' Hk'. apply Hmiss. unfold maxAttempts in *. lia.
Qed.

Definition loader5x5 : LevelLoader := mkLoader level5x5 30.

(** The level and the Pacman that [buildLevel] returns for the 5x5 level. *)
Definition built5x5 : Level * Pacman :=
  match buildLevel loader5x5 pacman0 with
  | Done r => r
  | _ => (wallsLevel, pacman0)
  end.


(** Draws that first point at the wall in the corner and then at the start
    tile. *)
Definition cornerThenStart : Rng :=
  mkRng (fun d => if Nat.ltb d 2 then 0%float else 0.3%float) 0.

(** In the 5x5 level the first attempt finds the wall at (0, 0) and the
    second returns the node of the tile (1, 1), after four draws; in the
    level of walls every attempt fails and the hundredth throws. *)
Lemma getRandomPoint_attempts_witness :
  passableAt built5x5.1 5 5 (draws cornerThenStart) 0 = false /\
  pointAt built5x5.1 5 5 (draws cornerThenStart) 2 = Some 6 /\
  getRandomPoint 100 built5x5.1 cornerThenStart =
    (Done 6, mkRng (draws cornerThenStart) 4) /\
  getRandomPoint 100 wallsLevel halves =
    (Throw (GameError PathfindingError), mkRng (draws halves) 200).
Proof.
  assert (Hv5 : graph_valid built5x5.1).
  { apply (bool_decide_unpack _). vm_compute. exact I. }
  assert (Hvw : graph_valid wallsLevel).
  { apply (bool_decide_unpack _). vm_compute. exact I. }
  destruct (getRandomPoint_attempts built5x5.1 cornerThenStart 100 Hv5)
    as [Hhit _]; [vm_compute; discriminate|unfold maxAttempts; lia|].
  destruct (getRandomPoint_attempts wallsLevel halves 100 Hvw)
    as [_ Hmiss]; [vm_compute; discriminate|unfold maxAttempts; lia|].
  split; [vm_compute; reflexivity|]. split; [vm_compute; reflexivity|]. split.
  - apply (Hhit 1 6).
    + unfold maxAttempts. lia.
    + intros k' Hk'. assert (k' = 0) as -> by lia. vm_compute. reflexivity.
    + vm_compute. reflexivity.
    + vm_compute. reflexivity.
  - apply Hmiss. intros k' _. unfold passableAt, pointAt. cbn [draws halves].
    vm_compute. reflexivity.
Defined.

Lemma built_graph_grid_witness :
  well_formed (nodes built5x5.1) /\ graph_valid built5x5.1 /\
  startNode built5x5.1 < length (nodes built5x5.1) /\
  max_degree (nodes built5x5.1) <= 4 /\
  forall r nd n, nodes built5x5.1 !! r = Some nd -> n ∈ neighbours nd ->
    exists nn, nodes built5x5.1 !! n = Some nn /\
               GhostBehavior.distanceBetween nd nn = 1%Z /\ r ∈ neighbours nn.
Proof.
  apply (built_graph_grid loader5x5 pacman0 built5x5.1 built5x5.2).
  vm_compute. reflexivity.
Defined.

Lemma buildLevel_start_witness :
  exists i j row nd,
    split (loaderData loader5x5) !! i = Some row /\
    String.get j row = Some "S"%char /\
    graph built5x5.1 !! key (Z.of_nat j) (Z.of_nat i) = Some (startNode built5x5.1) /\
    nodes built5x5.1 !! startNode built5x5.1 = Some nd /\ isPassable nd = true /\
    x nd = Z.of_nat j /\ y nd = Z.of_nat i /\
    built5x5.2 =
      mkPacman
        (Wall.mkCircle
           (Float64.of_nat j * loaderTileSize loader5x5 + loaderTileSize loader5x5 / 2)%float
           (Float64.of_nat i * loaderTileSize loader5x5 + loaderTileSize loader5x5 / 2)%float
           ((loaderTileSize loader5x5 / 2) * 0.8)%float)
        (MovementComponent.stop (speed pacman0)) /\
    forall i' j' row',
      split (loaderData loader5x5) !! i' = Some row' ->
      String.get j' row' = Some "S"%char ->
      i' < i \/ (i' = i /\ j' <= j).
Proof.
  apply (buildLevel_start loader5x5 pacman0 built5x5.1 built5x5.2).
  vm_compute. reflexivity.
Defined.

Lemma buildLevel_entities_witness :
  let rows := split (loaderData loader5x5) in
  length (walls (entities built5x5.1)) = occurrences "#" rows /\
  length (dots (entities built5x5.1)) = occurrences "." rows /\
  length (ghosts (entities built5x5.1)) =
    occurrences "G" rows + occurrences "A" rows + occurrences "R" rows /\
  length (pellets (entities built5x5.1)) = occurrences "H" rows + occurrences "P" rows /\
  (isCompleted built5x5.1 = true <-> occurrences "." rows = 0).
Proof.
  apply (buildLevel_entities loader5x5 pacman0 built5x5.1 built5x5.2).
  vm_compute. reflexivity.
Defined.


Lemma built_level_search_witness :
  exists h' p,
    constructPathBFS (2 * 5 ^ length (nodes built5x5.1) + 2) 6 18 (nodes built5x5.1)
      = Done (h', p) /\
    is_path (nodes built5x5.1) p /\
    (p <> [] <-> reach (nodes built5x5.1) 6 18) /\
    loop_iterations (2 * 5 ^ length (nodes built5x5.1) + 2) 6 18 (nodes built5x5.1)
      <= 5 ^ length (nodes built5x5.1).
Proof.
  apply (built_level_search loader5x5 pacman0 built5x5.1 built5x5.2 6 18
           (2 * 5 ^ length (nodes built5x5.1) + 2)).
  - vm_compute. reflexivity.
  - vm_compute. lia.
  - reflexivity.
Defined.

End LevelStructure.

(* ===================================================================== *)
(** * Properties of the collision tests and of the wall pass *)
(* ===================================================================== *)

Module CollisionSystemProofs.
Import PrimFloat CollisionDetector Wall CollisionSystem.
Import Float64 Float64Facts WallProofs.
Local Open Scope Z_scope.













Lemma float_one_not_minus : (1 <> -1)%float.
Proof. intros H. apply (f_equal (fun f => (f <? 0)%float)) in H. vm_compute in H. done. Qed.

Lemma float_zero_not_one : (0 <> 1)%float.
Proof. intros H. apply (f_equal (fun f => (f <? 1)%float)) in H. vm_compute in H. done. Qed.

Lemma float_zero_not_minus : (0 <> -1)%float.
Proof. intros H. apply (f_equal (fun f => (f <? 0)%float)) in H. vm_compute in H. done. Qed.

(** X16.  The normal of [getResolutionVector] is a unit vector along one
    axis that points from the centre of the second rectangle towards the
    centre of the first: its component is -1 exactly when the distance of
    the centres on the chosen axis is negative.  When the two cross products
    are numbers (not NaN), the penetration is the smaller of their absolute
    values. *)
Theorem getResolutionVector_normal (info : CollisionInfo) :
  let r := getResolutionVector info in
  (((normalX r = 1 \/ normalX r = -1) /\ normalY r = 0 \/
    normalX r = 0 /\ (normalY r = 1 \/ normalY r = -1)) /\
   (normalX r = -1 -> (dx info <? 0) = true) /\
   (normalX r = 1 -> (dx info <? 0) = false) /\
   (normalY r = -1 -> (dy info <? 0) = true) /\
   (normalY r = 1 -> (dy info <? 0) = false) /\
   ((crossWidth info =? crossWidth info) = true ->
    (crossHeight info =? crossHeight info) = true ->
    (penetration r = abs (crossWidth info) \/ penetration r = abs (crossHeight info)) /\
    (penetration r <=? abs (crossWidth info)) = true /\
    (penetration r <=? abs (crossHeight info)) = true))%float.
Proof.
  intros r. unfold r, getResolutionVector.
  pose proof float_one_not_minus. pose proof float_zero_not_one.
  pose proof float_zero_not_minus.
  destruct (abs (crossWidth info) <=? abs (crossHeight info))%float eqn:E.
  - cbn [normalX normalY penetration].
    destruct (dx info <? 0)%float eqn:Hd.
    + split; [left; split; [by right|done]|].
      repeat split; try done; try (by intros ?; exfalso; auto).
      * by left.
      * by apply leb_refl, abs_number.
    + split; [left; split; [by left|done]|].
      repeat split; try done; try (by intros ?; exfalso; auto).
      * by left.
      * by apply leb_refl, abs_number.
  - cbn [normalX normalY penetration].
    destruct (dy info <? 0)%float eqn:Hd.
    + split; [right; split; [done|by right]|].
      repeat split; try done; try (by intros ?; exfalso; auto).
      * by right.
      * apply leb_total; [by apply abs_number|by apply abs_number|done].
      * by apply leb_refl, abs_number.
    + split; [right; split; [done|by left]|].
      repeat split; try done; try (by intros ?; exfalso; auto).
      * by right.
      * apply leb_total; [by apply abs_number|by apply abs_number|done].
      * by apply leb_refl, abs_number.
Qed.

End CollisionSystemProofs.

(* ===================================================================== *)
(** * Registration round trips and a dispatch that does not end *)
(* ===================================================================== *)

Module EventMediatorRegistry.
Import EventMediator EventMediatorProofs.

Section Registry.
Context {L D W : Type} `{EqDecision L}.

Lemma remove_first_absent (l : L) ls : l ∉ ls -> remove_first l ls = ls.
Proof.
  induction ls as [|a ls IH]; [done|]. intros Hn. simpl.
  rewrite decide_False by (intros ->; apply Hn; by left).
  f_equal. apply IH. intros Hin. apply Hn. by right.
Qed.

Lemma remove_first_snoc (l : L) ls : l ∉ ls -> remove_first l (ls ++ [l]) = ls.
Proof.
  induction ls as [|a ls IH]; intros Hn; simpl.
  - by rewrite decide_True.
  - rewrite decide_False by (intros ->; apply Hn; by left).
    f_equal. apply IH. intros Hin. apply Hn. by right.
Qed.

(** X17.  Registering a listener that is not registered for a kind and
    unregistering it again restores the listeners of every kind and leaves
    the state alone; the kind keeps its entry in the map, with the list it
    had or an empty one. *)
Theorem unregister_register (k : GameEventType) (l : L) (w : World L W) :
  l ∉ registered k w ->
  (forall k', registered k' (unregister k l (register k l w)) = registered k' w) /\
  state (unregister k l (register k l w)) = state w /\
  is_Some (listeners (unregister k l (register k l w)) !! k).
Proof.
  intros Hn. split; [|split].
  - intros k'. rewrite registered_unregister, registered_register.
    destruct (decide (k = k')) as [->|Hne]; [|done]. by apply remove_first_snoc.
  - unfold unregister, register. simpl. by destruct (alter _ _ _ !! k).
  - unfold unregister.
    assert (Hs : is_Some (listeners (register k l w) !! k)).
    { unfold register. simpl. rewrite lookup_alter_eq.
      destruct (listeners w !! k) eqn:E; simpl.
      - rewrite E. eauto.
      - rewrite lookup_insert_eq. eauto. }
    destruct (listeners (register k l w) !! k) as [ls|] eqn:Hls.
    + cbn [listeners]. rewrite lookup_alter_eq, Hls. eauto.
    + by destruct Hs.
Qed.

(** X18.  Unregistering a listener that is not registered for the kind,
    whether the kind has an entry or not, changes nothing. *)
Theorem unregister_absent (k : GameEventType) (l : L) (w : World L W) :
  l ∉ registered k w -> unregister k l w = w.
Proof.
  intros Hn. unfold unregister, registered in *.
  destruct (listeners w !! k) as [ls|] eqn:E; [|done]. simpl in Hn.
  destruct w as [m s]. simpl in *. f_equal.
  apply map_eq. intros k'. destruct (decide (k = k')) as [<-|Hne].
  - rewrite lookup_alter_eq, E. simpl. by rewrite remove_first_absent.
  - by rewrite lookup_alter_ne.
Qed.

End Registry.

(** A listener that registers itself again, for the kind of the event it is
    called with, each time it is called. *)
Definition clinging (l : nat)
    (nfy : GameEvent unit -> World nat unit -> Outcome (World nat unit))
    (event : GameEvent unit) (w : World nat unit) : Outcome (World nat unit) :=
  Done (register (type event) l w).

Lemma dispatch_clinging nfy (event : GameEvent unit) fuel : forall i (w : World nat unit),
  i < length (registered (type event) w) ->
  dispatch clinging fuel nfy event i w = OutOfFuel.
Proof.
  induction fuel as [|f IH]; intros i w Hi; [done|]. simpl.
  unfold registered in Hi.
  destruct (listeners w !! type event) as [ls|] eqn:E; simpl in Hi; [|lia].
  simpl. destruct (lookup_lt_is_Some_2 ls i Hi) as [l Hl]. rewrite Hl. simpl.
  apply IH. rewrite registered_register, decide_True by done.
  unfold registered. rewrite E. simpl. rewrite length_app. simpl. lia.
Qed.

(** X19.  [notify] has no guard against listeners that add listeners: when
    every listener of a kind registers itself again for that kind each time
    it is called, the loop over the live array never ends, whatever the
    fuel. *)
Theorem notify_clinging_diverges (event : GameEvent unit) (w : World nat unit) (fuel : nat) :
  registered (type event) w <> [] ->
  notify clinging fuel event w = OutOfFuel.
Proof.
  intros Hne. destruct fuel as [|f]; [done|]. simpl.
  unfold registered in Hne.
  destruct (listeners w !! type event) as [ls|] eqn:E; [|done]. simpl in Hne.
  apply dispatch_clinging. unfold registered. rewrite E. simpl.
  destruct ls; [done|simpl; lia].
Qed.


Lemma unregister_register_witness :
  let w := mkWorld (∅ : gmap GameEventType (list nat)) tt in
  (forall k', registered k' (unregister DotCollected 7 (register DotCollected 7 w))
              = registered k' w) /\
  state (unregister DotCollected 7 (register DotCollected 7 w)) = state w /\
  is_Some (listeners (unregister DotCollected 7 (register DotCollected 7 w))
             !! DotCollected).
Proof.
  intros w. apply (unregister_register DotCollected 7 w).
  apply (bool_decide_unpack _). vm_compute. exact I.
Defined.

Lemma unregister_absent_witness :
  let w := register DotCollected 3 (mkWorld (∅ : gmap GameEventType (list nat)) tt) in
  unregister DotCollected 7 w = w.
Proof.
  intros w. apply (unregister_absent DotCollected 7 w).
  apply (bool_decide_unpack _). vm_compute. exact I.
Defined.

Lemma notify_clinging_diverges_witness :
  notify clinging 50 dotCollected
    (register DotCollected 0 (mkWorld (∅ : gmap GameEventType (list nat)) tt))
  = OutOfFuel.
Proof.
  apply (notify_clinging_diverges dotCollected
           (register DotCollected 0 (mkWorld (∅ : gmap GameEventType (list nat)) tt)) 50).
  vm_compute. discriminate.
Defined.

End EventMediatorRegistry.

(* ===================================================================== *)
(** * The listeners of the score system *)
(* ===================================================================== *)

Module ScoreListeners.
Import EventMediator ScoreSystem EventMediatorProofs.

(** A [notify] that returns leaves the listener lists and the score table
    as they were. *)
Definition steady (nfy : Notify) : Prop :=
  forall ev w w', nfy ev w = Done w' ->
    listeners w' = listeners w /\ scoreValues (state w') = scoreValues (state w).

Lemma call_steady nfy l : steady nfy -> steady (call l nfy).
Proof.
  intros Hn ev w w'. destruct l; cbn [call]; unfold addGhostScore, addScore.
  - intros H. by apply Hn in H.
  - destruct (truthy _).
    + destruct (nfy _ _) as [w1| |] eqn:E; simpl; [|done|done].
      intros [= <-]. by apply Hn in E.
    + destruct (truthy _); [intros H; by apply Hn in H|by intros [= <-]].
  - intros H. by apply Hn in H.
  - intros H. by apply Hn in H.
  - intros H. by apply Hn in H.
  - by intros [= <-].
Qed.

Lemma dispatch_steady nfy fuel : steady nfy ->
  forall i ev w w', dispatch call fuel nfy ev i w = Done w' ->
    listeners w' = listeners w /\ scoreValues (state w') = scoreValues (state w).
Proof.
  intros Hn. induction fuel as [|f IH]; intros i ev w w'; [done|]. simpl.
  destruct (listeners w !! type ev ≫= _) as [l|]; [|by intros [= <-]].
  destruct (call l nfy ev w) as [w1| |] eqn:E; simpl; [|done|done].
  intros H. apply IH in H as [-> ->]. by apply (call_steady nfy l Hn) in E.
Qed.

Lemma notify_steady fuel : steady (notify call fuel).
Proof.
  induction fuel as [|f IH]; intros ev w w'; [done|]. simpl.
  destruct (listeners w !! type ev); [|by intros [= <-]].
  by apply dispatch_steady.
Qed.

(** No listener of the score system listens to score changes. *)
Definition unobserved (w : SWorld) : Prop := registered ScoreChanged w = [].

Lemma notify_unobserved f d (w : SWorld) :
  unobserved w -> 2 <= f -> notify call f (mkEvent ScoreChanged d) w = Done w.
Proof.
  intros Hu Hf. destruct f as [|[|f]]; try lia. unfold unobserved, registered in Hu.
  simpl. destruct (listeners w !! ScoreChanged) as [ls|]; [|done].
  simpl in Hu. subst ls. done.
Qed.

Lemma call_returns f l ev (w : SWorld) :
  unobserved w -> 2 <= f ->
  exists w', call l (notify call f) ev w = Done w' /\ listeners w' = listeners w.
Proof.
  intros Hu Hf.
  assert (Hadd : forall p (w0 : SWorld), listeners w0 = listeners w ->
            exists w', addScore p (notify call f) w0 = Done w' /\ listeners w' = listeners w).
  { intros p w0 Hl. unfold addScore. rewrite notify_unobserved; [eauto|..|done].
    unfold unobserved, registered in *. simpl. by rewrite Hl. }
  destruct l; cbn [call].
  - by apply Hadd.
  - destruct (truthy _).
    + destruct (Hadd (powerPellet (scoreValues (state w))) w eq_refl) as (w1 & -> & Hl).
      simpl. eauto.
    + destruct (truthy _); [by apply Hadd|eauto].
  - unfold addGhostScore. by apply Hadd.
  - by apply Hadd.
  - by apply Hadd.
  - eauto.
Qed.

Lemma call_all_returns f ev ls : forall (w : SWorld),
  unobserved w -> 2 <= f ->
  exists w', call_all call (notify call f) ls ev w = Done w' /\
             listeners w' = listeners w.
Proof.
  induction ls as [|l ls IH]; intros w Hu Hf; simpl; [eauto|].
  destruct (call_returns f l ev w Hu Hf) as (w1 & -> & Hl). simpl.
  destruct (IH w1) as (w2 & H2 & Hl2); [|done|].
  - unfold unobserved, registered in *. by rewrite Hl.
  - exists w2. split; [done|congruence].
Qed.

(** X23.  When no listener of the score system is registered for score
    changes, [notify] returns for every event once the fuel exceeds the
    number of listeners of the event's kind by three; the listener lists
    and the score table are then as before: the listeners of the score
    system never register, unregister or reconfigure. *)
Theorem score_events_handled (event : Event) (w : SWorld) (fuel : nat) :
  unobserved w ->
  length (registered (type event) w) + 3 <= fuel ->
  exists w',
    notify call fuel event w = Done w' /\
    listeners w' = listeners w /\
    scoreValues (state w') = scoreValues (state w).
Proof.
  intros Hu Hf. destruct fuel as [|f]; [lia|].
  rewrite notify_call_all.
  - destruct (call_all_returns f event (registered (type event) w) w Hu) as (w' & Hc & Hl);
      [lia|].
    exists w'. split; [done|]. split; [done|].
    assert (Hn : notify call (S f) event w = Done w').
    { rewrite notify_call_all; [done| |lia].
      intros l w1 w2 H. apply (call_steady _ l (notify_steady f)) in H as [-> _]. done. }
    by apply notify_steady in Hn as [_ ->].
  - intros l w1 w2 H. apply (call_steady _ l (notify_steady f)) in H as [-> _]. done.
  - lia.
Qed.


Lemma score_events_handled_witness :
  exists w',
    notify call 4 ghostEatenEvent (newScoreSystem ∅) = Done w' /\
    listeners w' = listeners (newScoreSystem ∅) /\
    scoreValues (state w') = scoreValues (state (newScoreSystem ∅)).
Proof.
  apply (score_events_handled ghostEatenEvent (newScoreSystem ∅) 4).
  - vm_compute. reflexivity.
  - vm_compute. lia.
Defined.

End ScoreListeners.

(* ===================================================================== *)
(** * Properties of the timers *)
(* ===================================================================== *)

Module TimerProofs.
Import EventMediator GameState GameStateProofs EventMediatorProofs ScoreListeners.

Lemma clearTimer_nextHandle id s : nextHandle (clearTimer id s) = nextHandle s.
Proof. unfold clearTimer. by destruct (timers s !! id). Qed.

Lemma clearTimer_other id id' s :
  id' <> id -> timers (clearTimer id s) !! id' = timers s !! id'.
Proof.
  intros Hne. unfold clearTimer. destruct (timers s !! id); [|done].
  simpl. by rewrite lookup_delete_ne.
Qed.

(** X20.  [setTimer] replaces: when the pending timeouts are those of the
    manager, after [setTimer] the identifier is active, the new timeout is
    pending under the handle [setTimeout] returned, no other timeout of
    that identifier is pending, and the other identifiers are as active as
    before. *)
Theorem setTimer_replaces (id : string) (cb : TimerCallback) (d : Q) (s : State) :
  managed s ->
  managed (setTimer id cb d s) /\
  isTimerActive id (setTimer id cb d s) = true /\
  pending (setTimer id cb d s) !! nextHandle s = Some (mkTimeout id cb d) /\
  (forall h t, pending (setTimer id cb d s) !! h = Some t -> timerKey t = id ->
     h = nextHandle s /\ t = mkTimeout id cb d) /\
  (forall id', id' <> id ->
     isTimerActive id' (setTimer id cb d s) = isTimerActive id' s).
Proof.
  intros Hm. pose proof (managed_setTimer id cb d s Hm) as Hm'.
  assert (Hnew : pending (setTimer id cb d s) !! nextHandle s = Some (mkTimeout id cb d)).
  { unfold setTimer. simpl. rewrite clearTimer_nextHandle. apply lookup_insert_eq. }
  split; [done|]. split; [|split; [done|split]].
  - unfold isTimerActive, setTimer. simpl. apply bool_decide_eq_true.
    rewrite lookup_insert_eq. eauto.
  - intros h t Hh Hk. pose proof (Hm' h t Hh) as Ht. rewrite Hk in Ht.
    unfold setTimer in Ht. simpl in Ht. rewrite lookup_insert_eq in Ht.
    injection Ht as <-. rewrite clearTimer_nextHandle in *. split; [done|].
    rewrite Hnew in Hh. by injection Hh.
  - intros id' Hne. unfold isTimerActive, setTimer. simpl.
    rewrite lookup_insert_ne by done. by rewrite clearTimer_other.
Qed.

Lemma cleared s : managed s ->
  timers (clearAllTimers s) = ∅ /\ pending (clearAllTimers s) = ∅.
Proof. intros Hm. split; [done|]. by apply clearAllTimers_pending. Qed.


Lemma power_mode_ended f (sys : ScoreSystem.SWorld) :
  registered PowerModeEnded sys = [ScoreSystem.OnPowerModeEnded] -> 2 <= f ->
  notify ScoreSystem.call (S f) ScoreSystem.powerModeEndedEvent sys =
  Done (ScoreSystem.resetConsecutiveGhosts sys).
Proof.
  intros Hreg Hf. rewrite notify_call_all.
  - change (type ScoreSystem.powerModeEndedEvent) with PowerModeEnded.
    by rewrite Hreg.
  - intros l w1 w2 H. apply (call_steady _ l (notify_steady f)) in H as [-> _]. done.
  - change (type ScoreSystem.powerModeEndedEvent) with PowerModeEnded.
    rewrite Hreg. simpl. lia.
Qed.

(** X22.  When the scared timeout fires and the score system listens to
    the end of the power mode, the callback returns: the ghosts are no
    longer scared, the timer is no longer active, the streak of eaten
    ghosts is zero, and score, path flag and status are unchanged; the
    pending timeouts are still those of the manager. *)
Theorem scared_timer_expiry (s : State) (h : nat) (d : Q) (fuel : nat) :
  managed s ->
  pending s !! h = Some (mkTimeout SCARED_TIMER ScaredExpired d) ->
  registered PowerModeEnded (scoreSystem s) = [ScoreSystem.OnPowerModeEnded] ->
  3 <= fuel ->
  exists s',
    fire fuel h s = Done s' /\
    ghostsScared s' = false /\ isTimerActive SCARED_TIMER s' = false /\
    pending s' = delete h (pending s) /\
    ScoreSystem.consecutiveGhosts (state (scoreSystem s')) = 0 /\
    ScoreSystem.score (state (scoreSystem s')) = ScoreSystem.score (state (scoreSystem s)) /\
    showPath s' = showPath s /\ status s' = status s /\ managed s'.
Proof.
  intros Hm Hp Hreg Hfuel.
  destruct fuel as [|f]; [lia|].
  pose proof (power_mode_ended f (scoreSystem s) Hreg) as Hn.
  assert (Hf : fire (S f) h s =
    Done (mkGameState (status s) (level s) false (showPath s)
            (delete SCARED_TIMER (timers s))
            (ScoreSystem.resetConsecutiveGhosts (scoreSystem s))
            (hasStatusChangeCallback s) (nextHandle s)
            (delete h (pending s)))).
  { unfold fire. rewrite Hp. cbn [callback timerKey run_callback].
    cbn [set_flags scoreSystem]. rewrite Hn by lia. reflexivity. }
  eexists. split; [exact Hf|]. simpl.
  split; [done|]. split.
  { unfold isTimerActive. simpl. apply bool_decide_eq_false.
    rewrite lookup_delete_eq. by intros [? ?]. }
  split; [done|]. split; [done|]. split; [done|]. split; [done|]. split; [done|].
  by eapply managed_fire.
Qed.

Lemma setTimer_replaces_witness :
  managed (setTimer SCARED_TIMER ScaredExpired 5000 armed) /\
  isTimerActive SCARED_TIMER (setTimer SCARED_TIMER ScaredExpired 5000 armed) = true /\
  pending (setTimer SCARED_TIMER ScaredExpired 5000 armed) !! nextHandle armed
    = Some (mkTimeout SCARED_TIMER ScaredExpired 5000) /\
  (forall h t,
     pending (setTimer SCARED_TIMER ScaredExpired 5000 armed) !! h = Some t ->
     timerKey t = SCARED_TIMER ->
     h = nextHandle armed /\ t = mkTimeout SCARED_TIMER ScaredExpired 5000) /\
  (forall id', id' <> SCARED_TIMER ->
     isTimerActive id' (setTimer SCARED_TIMER ScaredExpired 5000 armed)
     = isTimerActive id' armed).
Proof.
  apply (setTimer_replaces SCARED_TIMER ScaredExpired 5000 armed).
  apply managed_armed.
Defined.


Lemma scared_timer_expiry_witness :
  exists s',
    fire 4 1 armed = Done s' /\
    ghostsScared s' = false /\ isTimerActive SCARED_TIMER s' = false /\
    pending s' = delete 1 (pending armed) /\
    ScoreSystem.consecutiveGhosts (state (scoreSystem s')) = 0 /\
    ScoreSystem.score (state (scoreSystem s'))
      = ScoreSystem.score (state (scoreSystem armed)) /\
    showPath s' = showPath armed /\ status s' = status armed /\ managed s'.
Proof.
  apply (scared_timer_expiry armed 1 10000 4).
  - apply managed_armed.
  - vm_compute. reflexivity.
  - vm_compute. reflexivity.
  - lia.
Defined.

End TimerProofs.

(* ===================================================================== *)
(** * Properties of the destinations of the ghosts *)
(* ===================================================================== *)

Module GhostBehaviorFacts.
Import Graph GhostBehavior.

(** The index of a patrol is zero or points into the patrol points. *)
Definition patrol_ok (b : Behavior) : Prop :=
  match b with
  | PatrolBehavior patrolPoints currentPatrolIndex _ =>
      currentPatrolIndex = 0 \/ currentPatrolIndex < length patrolPoints
  | _ => True
  end.

Lemma supplied_Done {W} b (r : Outcome nat * W) d b' w' :
  supplied b r = (Done (d, b'), w') -> is_Some d /\ b' = b.
Proof.
  unfold supplied. destruct r as [[n| |] w]; simpl; [|done|done].
  intros [= <- <- _]. eauto.
Qed.

(** X24.  A destination that [determineDestination] returns is never
    undefined, for any of the three behaviours, as long as the index of a
    patrol is zero or points into its patrol points; the call, like
    [setPatrolPoints] and [addPatrolPoint], keeps the index that way, and
    the behaviour keeps its name. *)
Theorem destination_defined {W} (b : Behavior) (h : list Node)
    (currentPoint pacmanPoint : nat) (isScared : bool)
    (getRandomPoint : @Supplier W) (w w' : W) (d : option nat) (b' : Behavior) :
  patrol_ok b ->
  determineDestination b h currentPoint pacmanPoint isScared getRandomPoint w
    = (Done (d, b'), w') ->
  is_Some d /\ patrol_ok b' /\ getName b' = getName b /\
  (forall points point,
     patrol_ok (setPatrolPoints points b') /\ patrol_ok (addPatrolPoint point b')).
Proof.
  intros Hok Hd.
  assert (Hmain : is_Some d /\ patrol_ok b' /\ getName b' = getName b).
  { destruct b as [r|r|pts idx r]; simpl in Hd.
    - destruct isScared; [apply supplied_Done in Hd as [? ->]; done|].
      destruct (deref h currentPoint) as [cur| |]; try (by injection Hd);
        destruct (deref h pacmanPoint) as [pac| |]; try (by injection Hd).
      destruct (withinRadius cur pac r).
      + injection Hd as <- <- _. eauto.
      + apply supplied_Done in Hd as [? ->]; done.
    - destruct isScared; [apply supplied_Done in Hd as [? ->]; done|].
      destruct (deref h currentPoint) as [cur| |]; try (by injection Hd);
        destruct (deref h pacmanPoint) as [pac| |]; try (by injection Hd).
      destruct (withinRadius cur pac r).
      + destruct (filterPassable h (neighbours pac)) as [[|n ns]| |];
          try (by injection Hd); injection Hd as <- <- _; eauto.
      + apply supplied_Done in Hd as [? ->]; done.
    - case_bool_decide as Hlen.
      + destruct isScared; [apply supplied_Done in Hd as [? ->]; done|].
        destruct (deref h currentPoint) as [cur| |]; try (by injection Hd);
          destruct (deref h pacmanPoint) as [pac| |]; try (by injection Hd).
        destruct (withinRadius cur pac r).
        * injection Hd as <- <- _. eauto.
        * apply supplied_Done in Hd as [? ->]; done.
      + destruct isScared; [apply supplied_Done in Hd as [? ->]; done|].
        destruct (deref h currentPoint) as [cur| |]; try (by injection Hd);
          destruct (deref h pacmanPoint) as [pac| |]; try (by injection Hd).
        destruct (withinRadius cur pac r); [injection Hd as <- <- _; eauto|].
        simpl in Hok.
        assert (Hidx : idx < length pts) by lia.
        case_bool_decide.
        * injection Hd as <- <- _.
          assert (Hnext : S idx mod length pts < length pts)
            by (apply Nat.mod_upper_bound; lia).
          split; [by apply lookup_lt_is_Some_2|]. split; [simpl; by right|done].
        * injection Hd as <- <- _. split; [by apply lookup_lt_is_Some_2|done]. }
  destruct Hmain as (H1 & H2 & H3). split; [done|]. split; [done|]. split; [done|].
  intros points point. destruct b' as [r|r|pts idx r]; simpl; try done.
  split; [by left|]. simpl in H2. rewrite length_app. simpl. lia.
Qed.

(** X25.  The ghost that [GhostFactory.createRandom] builds is a chaser of
    radius 0: while it is not scared it heads for Pacman's node exactly
    when its node has the coordinates of Pacman's node, and for the
    supplier's random point otherwise. *)
Theorem random_ghost_chases_on_contact {W} (x y size : PrimFloat.float) (h : list Node)
    (currentPoint pacmanPoint : nat) (cur pac : Node)
    (getRandomPoint : @Supplier W) (w : W) :
  h !! currentPoint = Some cur -> h !! pacmanPoint = Some pac ->
  determineDestination (Entities.behavior (Entities.createRandom x y size)) h
    currentPoint pacmanPoint false getRandomPoint w =
  if bool_decide (Graph.x cur = Graph.x pac /\ Graph.y cur = Graph.y pac)
  then (Done (Some pacmanPoint, ChaserBehavior 0), w)
  else supplied (ChaserBehavior 0) (getRandomPoint w).
Proof.
  intros Hc Hp. simpl. unfold deref. rewrite Hc, Hp.
  unfold withinRadius, distanceBetween.
  case_bool_decide as Hxy.
  - destruct Hxy as [-> ->]. rewrite !Z.sub_diag. reflexivity.
  - destruct (Qle_bool _ 0) eqn:E; [|done].
    exfalso. apply Hxy. apply Qle_bool_iff in E.
    unfold Qle in E. simpl in E. lia.
Qed.

(** X26.  [distanceBetween] is a metric on the coordinates of nodes: it is
    symmetric, never negative, zero exactly for equal coordinates, and
    satisfies the triangle inequality. *)
Theorem distanceBetween_metric (a b c : Node) :
  distanceBetween a b = distanceBetween b a /\
  (0 <= distanceBetween a b)%Z /\
  (distanceBetween a b = 0%Z <-> Graph.x a = Graph.x b /\ Graph.y a = Graph.y b) /\
  (distanceBetween a c <= distanceBetween a b + distanceBetween b c)%Z.
Proof. unfold distanceBetween. lia. Qed.


(** A supplier that always returns node 1. *)
Definition nodeOne : @Supplier unit := fun w => (Done 1, w).

Lemma destination_defined_witness :
  is_Some (Some 2) /\ patrol_ok (PatrolBehavior [0; 2] 1 1) /\
  getName (PatrolBehavior [0; 2] 1 1) = getName (PatrolBehavior [0; 2] 0 1) /\
  (forall points point,
     patrol_ok (setPatrolPoints points (PatrolBehavior [0; 2] 1 1)) /\
     patrol_ok (addPatrolPoint point (PatrolBehavior [0; 2] 1 1))).
Proof.
  apply (destination_defined (PatrolBehavior [0; 2] 0 1) PathFinderProofs.walled_off
           0 2 false nodeOne tt tt (Some 2) (PatrolBehavior [0; 2] 1 1)).
  - simpl. lia.
  - vm_compute. reflexivity.
Defined.

Lemma random_ghost_chases_on_contact_witness :
  determineDestination
    (Entities.behavior (Entities.createRandom PrimFloat.zero PrimFloat.one PrimFloat.one))
    PathFinderProofs.walled_off 0 2 false nodeOne tt =
  if bool_decide (Graph.x (mkNode true [1] 0 0 None) = Graph.x (mkNode true [1] 2 0 None) /\
                  Graph.y (mkNode true [1] 0 0 None) = Graph.y (mkNode true [1] 2 0 None))
  then (Done (Some 2, ChaserBehavior 0), tt)
  else supplied (ChaserBehavior 0) (nodeOne tt).
Proof.
  apply (random_ghost_chases_on_contact PrimFloat.zero PrimFloat.one PrimFloat.one
           PathFinderProofs.walled_off 0 2
           (mkNode true [1] 0 0 None) (mkNode true [1] 2 0 None) nodeOne tt).
  - reflexivity.
  - reflexivity.
Defined.

End GhostBehaviorFacts.

(* ===================================================================== *)
(** * Properties of the movement component *)
(* ===================================================================== *)

Module MovementProofs.
Import MovementComponent.
Local Open Scope Q_scope.

Lemma Qltb_true a b : Qltb a b = true <-> a < b.
Proof.
  unfold Qltb. rewrite negb_true_iff. split.
  - intros H. apply Qnot_le_lt. intros Hle. apply Qle_bool_iff in Hle. congruence.
  - intros H. destruct (Qle_bool b a) eqn:E; [|done].
    apply Qle_bool_iff in E. lra.
Qed.

Lemma Qltb_false a b : Qltb a b = false <-> b <= a.
Proof. unfold Qltb. rewrite negb_false_iff. apply Qle_bool_iff. Qed.

(** X28.  With a positive magnitude [getDirection] reads back the
    direction [moveInDirection] was called with, for each of the four
    directions; after [stop] it reads [NONE], and [moveInDirection] with
    any string other than these four (the empty string that [Pacman.move]
    passes, or [NONE]) changes nothing. *)
Theorem getDirection_moveInDirection (s : Speed) :
  0 < magnitude s ->
  getDirection (moveInDirection "UP" s) = "UP"%string /\
  getDirection (moveInDirection "DOWN" s) = "DOWN"%string /\
  getDirection (moveInDirection "LEFT" s) = "LEFT"%string /\
  getDirection (moveInDirection "RIGHT" s) = "RIGHT"%string /\
  getDirection (stop s) = "NONE"%string /\
  (forall d : string,
     d <> "UP"%string -> d <> "DOWN"%string ->
     d <> "LEFT"%string -> d <> "RIGHT"%string ->
     moveInDirection d s = s).
Proof.
  intros Hm.
  assert (H1 : Qltb 0 (magnitude s) = true) by (by apply Qltb_true).
  assert (H2 : Qltb 0 (- magnitude s) = false) by (apply Qltb_false; lra).
  assert (H3 : Qltb (- magnitude s) 0 = true) by (apply Qltb_true; lra).
  repeat split;
    try (unfold getDirection, moveInDirection, stop; simpl;
         rewrite ?H1, ?H2, ?H3; done).
  intros d Hu Hd Hl Hr. unfold moveInDirection.
  apply String.eqb_neq in Hu, Hd, Hl, Hr.
  by rewrite Hu, Hd, Hl, Hr.
Qed.

(** X29.  [setMagnitude] with a positive magnitude keeps the direction:
    [getDirection] reads the same before and after, and every component of
    the speed that is not zero has the new magnitude as its absolute
    value. *)
Theorem setMagnitude_keeps_direction (m : Q) (s : Speed) :
  0 < m ->
  getDirection (setMagnitude m s) = getDirection s /\
  magnitude (setMagnitude m s) = m /\
  (Qabs (dx (setMagnitude m s)) == m \/ dx (setMagnitude m s) == 0) /\
  (Qabs (dy (setMagnitude m s)) == m \/ dy (setMagnitude m s) == 0).
Proof.
  intros Hm.
  assert (H1 : Qltb 0 m = true) by (by apply Qltb_true).
  assert (H2 : Qltb 0 (- m) = false) by (apply Qltb_false; lra).
  assert (H3 : Qltb (- m) 0 = true) by (apply Qltb_true; lra).
  assert (H4 : Qltb m 0 = false) by (apply Qltb_false; lra).
  assert (Hsign : forall v, 
    let v' := if Qneb v 0 then (if Qltb 0 v then m else - m) else v in
    Qltb 0 v' = Qltb 0 v /\ Qltb v' 0 = Qltb v 0 /\ (Qabs v' == m \/ v' == 0)).
  { intros v. unfold Qneb. destruct (Qeq_bool v 0) eqn:E; simpl.
    - apply Qeq_bool_iff in E. split; [done|]. split; [done|by right].
    - apply Qeq_bool_neq in E. destruct (Qltb 0 v) eqn:Hv.
      + apply Qltb_true in Hv. rewrite H1, H4. split; [done|].
        split; [symmetry; apply Qltb_false; lra|].
        left. apply Qabs_pos. lra.
      + apply Qltb_false in Hv. rewrite H2, H3. split; [done|].
        split; [symmetry; apply Qltb_true; lra|].
        left. rewrite Qabs_opp. apply Qabs_pos. lra. }
  destruct (Hsign (dx s)) as (Hx1 & Hx2 & Hx3).
  destruct (Hsign (dy s)) as (Hy1 & Hy2 & Hy3).
  unfold getDirection, setMagnitude. cbn [dx dy magnitude].
  rewrite Hx1, Hx2, Hy1, Hy2. done.
Qed.


Lemma getDirection_moveInDirection_witness :
  let s := newMovement 3 in
  getDirection (moveInDirection "UP" s) = "UP"%string /\
  getDirection (moveInDirection "DOWN" s) = "DOWN"%string /\
  getDirection (moveInDirection "LEFT" s) = "LEFT"%string /\
  getDirection (moveInDirection "RIGHT" s) = "RIGHT"%string /\
  getDirection (stop s) = "NONE"%string /\
  (forall d : string,
     d <> "UP"%string -> d <> "DOWN"%string ->
     d <> "LEFT"%string -> d <> "RIGHT"%string ->
     moveInDirection d s = s).
Proof.
  intros s. apply (getDirection_moveInDirection s). vm_compute. reflexivity.
Defined.

Lemma setMagnitude_keeps_direction_witness :
  let s := mkSpeed (-3) 0 3 in
  getDirection (setMagnitude 2 s) = getDirection s /\
  magnitude (setMagnitude 2 s) = 2 /\
  (Qabs (dx (setMagnitude 2 s)) == 2 \/ dx (setMagnitude 2 s) == 0) /\
  (Qabs (dy (setMagnitude 2 s)) == 2 \/ dy (setMagnitude 2 s) == 0).
Proof.
  intros s. apply (setMagnitude_keeps_direction 2 s). vm_compute. reflexivity.
Defined.

End MovementProofs.

(* ===================================================================== *)
(** * Steering towards an adjacent node *)
(* ===================================================================== *)

Module SteeringProofs.
Import Graph GhostBehavior MovementComponent PathfindingComponent.
Local Open Scope Q_scope.

(** X27.  For a target node at Manhattan distance one from the current
    node, the direction [determineMovementDirection] derives is not [NONE],
    and [moveInDirection] with it sets a speed of the controller's
    magnitude that points from the current node to the target, up being
    the direction of decreasing [y]. *)
Theorem axisDirection_adjacent (target current : Node) (s : Speed) :
  distanceBetween current target = 1%Z ->
  let direction := axisDirection target current in
  direction <> "NONE"%string /\
  dx (moveInDirection direction s) == magnitude s * inject_Z (x target - x current) /\
  dy (moveInDirection direction s) == magnitude s * inject_Z (y target - y current).
Proof.
  unfold distanceBetween, axisDirection. intros Hd.
  destruct (Z.ltb_spec (x current) (x target)) as [H1|H1].
  { assert (x target - x current = 1)%Z as -> by lia.
    assert (y target - y current = 0)%Z as -> by lia.
    simpl. split; [done|]. split; ring. }
  destruct (Z.ltb_spec (x target) (x current)) as [H2|H2].
  { assert (x target - x current = -1)%Z as -> by lia.
    assert (y target - y current = 0)%Z as -> by lia.
    simpl. split; [done|]. split; ring. }
  destruct (Z.ltb_spec (y target) (y current)) as [H3|H3].
  { assert (x target - x current = 0)%Z as -> by lia.
    assert (y target - y current = -1)%Z as -> by lia.
    simpl. split; [done|]. split; ring. }
  destruct (Z.ltb_spec (y current) (y target)) as [H4|H4].
  { assert (x target - x current = 0)%Z as -> by lia.
    assert (y target - y current = 1)%Z as -> by lia.
    simpl. split; [done|]. split; ring. }
  lia.
Qed.


Lemma axisDirection_adjacent_witness :
  let target := mkNode true [] 1 0 None in
  let current := mkNode true [] 1 1 None in
  let s := newMovement 3 in
  let direction := axisDirection target current in
  direction <> "NONE"%string /\
  dx (moveInDirection direction s) == magnitude s * inject_Z (x target - x current) /\
  dy (moveInDirection direction s) == magnitude s * inject_Z (y target - y current).
Proof.
  intros target current s.
  apply (axisDirection_adjacent target current s). reflexivity.
Defined.

End SteeringProofs.
